(** * MBohr: the Bohr model of hydrogen-like atoms ([src/MBohr/core.py])

    A shallow embedding of the class [BohrAtom] and of the part of the Python
    run time its methods rest on, followed by the properties of the energy,
    radius, transition, frequency and wavelength queries.

    Python's [float] is the IEEE 754 binary64 format, which is what Rocq's
    primitive [float] is: the arithmetic below is the very arithmetic the
    interpreter performs, bit for bit, and every closed expression can be
    evaluated.  Python's [int] is unbounded and is modelled by [Z]. *)

From Stdlib Require Import ZArith Lia Bool String Ascii List QArith Qabs.
From Stdlib Require Import Floats.
From Stdlib Require Import Qpower Lra Psatz.

Set Warnings "-inexact-float".

Local Open Scope Z_scope.

(** ** The fragment of the Python run time used by [core.py] *)

Abbreviation int := Z.

Module Py.

(** The exceptions the program can raise.  Both [ValueError]s of the source
    are told apart by their message. *)
Inductive exception : Type :=
| ValueError (msg : string)
| ZeroDivisionError
| OverflowError.

(** The outcome of evaluating an expression: a value, or a raised exception. *)
Inductive result (A : Type) : Type :=
| Return (a : A)
| Raise (e : exception).

Arguments Return {A} a.
Arguments Raise {A} e.

Definition bind {A B : Type} (r : result A) (k : A -> result B) : result B :=
  match r with
  | Return a => k a
  | Raise e => Raise e
  end.

Definition returns {A : Type} (r : result A) : bool :=
  match r with
  | Return _ => true
  | Raise _ => false
  end.

(** [int] to [float], as [PyLong_AsDouble] does it: the nearest binary64
    value, ties to even, and [OverflowError] ("int too large to convert to
    float") when that value would not be finite. *)
Definition float_of_int (z : int) : result float :=
  match binary_normalize prec emax z 0 false with
  | S754_infinity _ => Raise OverflowError
  | sf => Return (SF2Prim sf)
  end.

(** The integers that have a float: [float(z)] does not raise. *)
Definition float_range (z : int) : bool := returns (float_of_int z).

(** [x * y], [x - y], [-x] and [abs(x)] on floats never raise. *)
Definition float_mul (x y : float) : float := (x * y)%float.
Definition float_sub (x y : float) : float := (x - y)%float.
Definition float_neg (x : float) : float := (- x)%float.
Definition float_abs (x : float) : float := PrimFloat.abs x.

(** [x / y] on floats: [ZeroDivisionError] ("float division by zero") when
    the divisor compares equal to zero, of either sign. *)
Definition float_truediv (x y : float) : result float :=
  if (y =? 0)%float then Raise ZeroDivisionError else Return (x / y)%float.

(** Mixed arithmetic converts the [int] operand first. *)
Definition int_mul_float (i : int) (x : float) : result float :=
  bind (float_of_int i) (fun fi => Return (float_mul fi x)).

Definition float_mul_int (x : float) (i : int) : result float :=
  bind (float_of_int i) (fun fi => Return (float_mul x fi)).

Definition float_truediv_int (x : float) (i : int) : result float :=
  bind (float_of_int i) (fun fi => float_truediv x fi).

(** [x ** k] for a float [x] and a positive [int] literal [k].  CPython hands
    the operation to the C library's [pow]; it is modelled as the correctly
    rounded power: the exact power of a finite [x], rounded once to the
    nearest float.  A result out of range is an [OverflowError]. *)
Definition float_pow (x : float) (k : positive) : result float :=
  match Prim2SF x with
  | S754_nan => Return nan
  | S754_infinity s => Return (SF2Prim (S754_infinity (s && Z.odd (Zpos k))))
  | S754_zero s => Return (SF2Prim (S754_zero (s && Z.odd (Zpos k))))
  | S754_finite s m e =>
      match binary_normalize prec emax (cond_Zopp s (Zpos m) ^ Zpos k)
                             (Zpos k * e) false with
      | S754_infinity _ => Raise OverflowError
      | sf => Return (SF2Prim sf)
      end
  end.

(** [str.lower()].  A unit string is modelled by its bytes; lowering acts on
    the ASCII capitals.  No character outside ASCII lowers to one of [j],
    [e] or [v], so the two comparisons of the source are decided alike. *)
Definition lower_ascii (c : ascii) : ascii :=
  let n := N_of_ascii c in
  if ((65 <=? n) && (n <=? 90))%N then ascii_of_N (n + 32) else c.

Fixpoint lower (s : string) : string :=
  match s with
  | EmptyString => EmptyString
  | String c s' => String (lower_ascii c) (lower s')
  end.

(** [str(z)] and the [{z}] field of an f-string.  The digits of a natural
    number are produced from the least significant one; the fuel bounds the
    number of digits by the number of bits. *)
Definition digit_char (d : Z) : ascii := ascii_of_N (48 + Z.to_N d).

Fixpoint decimal_digits (fuel : nat) (n : Z) (acc : string) : string :=
  match fuel with
  | O => acc
  | S fuel' =>
      let acc' := String (digit_char (n mod 10)) acc in
      if n <? 10 then acc' else decimal_digits fuel' (n / 10) acc'
  end.

Definition decimal (n : Z) : string :=
  decimal_digits (S (Z.to_nat (Z.log2 n))) n "".

(** CPython refuses to convert an [int] of more than
    [sys.get_int_max_str_digits()] digits, 4300 unless reconfigured. *)
Definition int_max_str_digits : Z := 4300.

Definition msg_int_str : string :=
  "Exceeds the limit (4300 digits) for integer string conversion; use sys.set_int_max_str_digits() to increase the limit".

Definition int_str (z : int) : result string :=
  let digits := decimal (Z.abs z) in
  if int_max_str_digits <? Z.of_nat (String.length digits)
  then Raise (ValueError msg_int_str)
  else Return (if z <? 0 then String "-" digits else digits).

(** [format(x, '.3e')], the [{x:.3e}] field of an f-string: one digit, a
    point, three digits and a decimal exponent of at least two digits, the
    four digits being the exact value of [x] rounded to nearest, ties to
    even.  [a / b] is the magnitude of a finite float that is not zero; its
    decimal exponent is searched downwards from that of the largest float. *)
Definition pow10_le (d a b : Z) : bool :=
  if 0 <=? d then b * 10 ^ d <=? a else b <=? a * 10 ^ (- d).

Fixpoint decimal_exponent (fuel : nat) (d a b : Z) : Z :=
  match fuel with
  | O => d
  | S fuel' => if pow10_le d a b then d else decimal_exponent fuel' (d - 1) a b
  end.

Definition round_half_even (a b : Z) : Z :=
  let q := a / b in
  match 2 * (a mod b) ?= b with
  | Lt => q
  | Gt => q + 1
  | Eq => if Z.even q then q else q + 1
  end.

Definition exponent_str (d : Z) : string :=
  let sign := if d <? 0 then "-"%string else "+"%string in
  let pad := if Z.abs d <? 10 then "0"%string else ""%string in
  String.append sign (String.append pad (decimal (Z.abs d))).

Definition scientific3 (a b : Z) : string :=
  let d := decimal_exponent 640 308 a b in
  let N := if 3 <=? d then round_half_even a (b * 10 ^ (d - 3))
           else round_half_even (a * 10 ^ (3 - d)) b in
  let N' := if N =? 10000 then 1000 else N in
  let d' := if N =? 10000 then d + 1 else d in
  String (digit_char (N' / 1000))
    (String "."
       (String (digit_char (N' / 100 mod 10))
          (String (digit_char (N' / 10 mod 10))
             (String (digit_char (N' mod 10))
                (String "e" (exponent_str d')))))).

Definition sign_str (s : bool) : string := if s then "-"%string else ""%string.

Definition float_format_3e (x : float) : string :=
  match Prim2SF x with
  | S754_nan => "nan"%string
  | S754_infinity s => String.append (sign_str s) "inf"
  | S754_zero s => String.append (sign_str s) "0.000e+00"
  | S754_finite s m e =>
      String.append (sign_str s)
        (if 0 <=? e then scientific3 (Zpos m * 2 ^ e) 1
         else scientific3 (Zpos m) (2 ^ (- e)))
  end.

(** [math.pi] *)
Definition math_pi : float := 3.141592653589793%float.

End Py.

Import Py.

Declare Scope py_scope.
Delimit Scope py_scope with py.
Notation "x <- c1 ;; c2" := (bind c1 (fun x => c2))
  (at level 61, c1 at next level, right associativity) : py_scope.
Local Open Scope py_scope.

(** ** [core.py] *)

Module core.

(** Module-level constants (CODATA). *)
Definition _h : float := 6.62607015e-34%float.
Definition _hbar : float := (_h / (2 * math_pi))%float.
Definition _e : float := 1.602176634e-19%float.
Definition _m_e : float := 9.1093837015e-31%float.
Definition _epsilon0 : float := 8.8541878128e-12%float.
Definition _c : float := 299792458.0%float.

Module BohrAtom.

(** The attributes of an instance. *)
Record t : Type := mk {
  Z : int;
  _h : float;
  _hbar : float;
  _e : float;
  _m_e : float;
  _epsilon0 : float;
  _c : float;
  a0 : float
}.

Definition msg_Z : string := "Z debe ser >= 1".
Definition msg_n : string := "n debe ser >= 1".
Definition msg_unit : string := "Unidad desconocida. Use 'eV' o 'J'.".

(** [a0 = 4 * math.pi * eps0 * hbar**2 / (m_e * e**2)], evaluated from left
    to right as Python does. *)
Definition bohr_radius (eps0 hbar m_e e : float) : result float :=
  t1 <- int_mul_float 4 math_pi ;;
  hbar2 <- float_pow hbar 2 ;;
  let num := float_mul (float_mul t1 eps0) hbar2 in
  e2 <- float_pow e 2 ;;
  float_truediv num (float_mul m_e e2).

Definition __init__ (Z0 : int) : result t :=
  if Z0 <? 1 then Raise (ValueError msg_Z)
  else
    a <- bohr_radius core._epsilon0 core._hbar core._m_e core._e ;;
    Return {| Z := Z0;
              _h := core._h;
              _hbar := core._hbar;
              _e := core._e;
              _m_e := core._m_e;
              _epsilon0 := core._epsilon0;
              _c := core._c;
              a0 := a |}.

(** [E = - (m_e * e**4 * Z**2) / (8 * eps0**2 * h**2 * n**2)]: the unary
    minus applies to the numerator, then the quotient is taken. *)
Definition energy_joule (self : t) (n : int) : result float :=
  if n <? 1 then Raise (ValueError msg_n)
  else
    e4 <- float_pow (_e self) 4 ;;
    num <- float_mul_int (float_mul (_m_e self) e4) (Z self ^ 2) ;;
    eps2 <- float_pow (_epsilon0 self) 2 ;;
    d1 <- int_mul_float 8 eps2 ;;
    h2 <- float_pow (_h self) 2 ;;
    den <- float_mul_int (float_mul d1 h2) (n ^ 2) ;;
    float_truediv (float_neg num) den.

Definition energy (self : t) (n : int) (unit : string) : result float :=
  E_j <- energy_joule self n ;;
  if String.eqb (lower unit) "j" then Return E_j
  else if String.eqb (lower unit) "ev" then float_truediv E_j (_e self)
  else Raise (ValueError msg_unit).

Definition radius (self : t) (n : int) : result float :=
  if n <? 1 then Raise (ValueError msg_n)
  else
    r <- float_mul_int (a0 self) (n ^ 2) ;;
    float_truediv_int r (Z self).

Definition transition_energy_joule (self : t) (n_i n_f : int) : result float :=
  E_i <- energy_joule self n_i ;;
  E_f <- energy_joule self n_f ;;
  Return (float_sub E_f E_i).

Definition transition_energy (self : t) (n_i n_f : int) (unit : string)
  : result float :=
  dE_j <- transition_energy_joule self n_i n_f ;;
  if String.eqb (lower unit) "j" then Return (float_abs dE_j)
  else if String.eqb (lower unit) "ev" then float_truediv (float_abs dE_j) (_e self)
  else Raise (ValueError msg_unit).

Definition frequency (self : t) (n_i n_f : int) : result float :=
  dE0 <- transition_energy_joule self n_i n_f ;;
  float_truediv (float_abs dE0) (_h self).

Definition wavelength (self : t) (n_i n_f : int) : result float :=
  nu <- frequency self n_i n_f ;;
  float_truediv (_c self) nu.

(** [f"<BohrAtom Z={self.Z} a0={self.a0:.3e} m>"]: the fields are
    formatted from left to right. *)
Definition __repr__ (self : t) : result string :=
  z <- int_str (Z self) ;;
  Return (String.append "<BohrAtom Z="
            (String.append z
               (String.append " a0="
                  (String.append (float_format_3e (a0 self)) " m>")))).

End BohrAtom.

End core.

Import core.

(** ** Binary64 rounding

    The operations of [SpecFloat] round through [binary_round_aux], which
    shifts a mantissa bit by bit while it keeps a round bit and a sticky
    bit.  This section restates that computation as the rounding of a
    fraction [a / b * 2 ^ e] to the nearest integer mantissa, ties to even,
    and derives from it the size of products, quotients and converted
    integers. *)

Lemma digits2_pos_size p : digits2_pos p = Pos.size p.
Proof. induction p; simpl; congruence. Qed.

Lemma Zdigits2_log2 m : 0 < m -> Zdigits2 m = Z.log2 m + 1.
Proof.
  destruct m as [|p|p]; try lia. intros _. simpl.
  rewrite digits2_pos_size. destruct p; simpl; lia.
Qed.

Lemma Zdigits2_0 : Zdigits2 0 = 0.
Proof. reflexivity. Qed.

Lemma Zdigits2_nonneg m : 0 <= Zdigits2 m.
Proof. destruct m; simpl; lia. Qed.

Lemma Zdigits2_bounds m : 0 < m -> 2 ^ (Zdigits2 m - 1) <= m < 2 ^ Zdigits2 m.
Proof.
  intros Hm. rewrite Zdigits2_log2 by assumption.
  replace (Z.log2 m + 1 - 1) with (Z.log2 m) by lia.
  replace (Z.log2 m + 1) with (Z.succ (Z.log2 m)) by lia.
  apply Z.log2_spec; assumption.
Qed.

Lemma Zdigits2_unique m d : 0 < d -> 2 ^ (d - 1) <= m < 2 ^ d -> Zdigits2 m = d.
Proof.
  intros Hd H.
  assert (0 < m) by (pose proof (Z.pow_pos_nonneg 2 (d-1)); lia).
  rewrite Zdigits2_log2 by assumption.
  assert (Z.log2 m = d - 1); [|lia].
  apply Z.log2_unique; [lia|]. replace (Z.succ (d-1)) with d by lia. assumption.
Qed.

(** shr_1 on a non-negative mantissa *)
Lemma shr_1_nonneg m r s : 0 <= m ->
  shr_1 {| shr_m := m; shr_r := r; shr_s := s |} =
  {| shr_m := m / 2; shr_r := Z.odd m; shr_s := r || s |}.
Proof.
  intros Hm. destruct m as [|p|p]; try lia; [reflexivity|].
  destruct p as [p|p|].
  - assert (E : Z.pos p~1 / 2 = Z.pos p).
    { rewrite Pos2Z.inj_xI. symmetry. apply Z.div_unique with 1; lia. }
    rewrite E. reflexivity.
  - assert (E : Z.pos p~0 / 2 = Z.pos p).
    { rewrite Pos2Z.inj_xO. symmetry. apply Z.div_unique with 0; lia. }
    rewrite E. reflexivity.
  - reflexivity.
Qed.

Definition frac_rec (a b : Z) : shr_record :=
  {| shr_m := a / b;
     shr_r := b <=? 2 * (a mod b);
     shr_s := negb ((a mod b =? 0) || (2 * (a mod b) =? b)) |}.

Ltac zbool :=
  repeat match goal with
  | |- context [?x <=? ?y] => destruct (Z.leb_spec x y)
  | |- context [?x <? ?y] => destruct (Z.ltb_spec x y)
  | |- context [?x =? ?y] => destruct (Z.eqb_spec x y)
  end; simpl; try reflexivity; try lia.

Lemma shr_1_frac a b : 0 <= a -> 0 < b -> shr_1 (frac_rec a b) = frac_rec a (2 * b).
Proof.
  intros Ha Hb. unfold frac_rec.
  assert (Hq : 0 <= a / b) by (apply Z.div_pos; lia).
  rewrite shr_1_nonneg by assumption.
  pose proof (Z.mod_pos_bound a b Hb) as Hr.
  pose proof (Z.div_mod a b ltac:(lia)) as Hab.
  pose proof (Z.div_mod (a / b) 2 ltac:(lia)) as Hq2.
  pose proof (Z.mod_pos_bound (a / b) 2 ltac:(lia)) as Hr2.
  assert (Hdiv : a / (2 * b) = a / b / 2).
  { rewrite (Z.mul_comm 2 b). symmetry. apply Z.div_div; lia. }
  assert (Hmod : a mod (2 * b) = b * ((a / b) mod 2) + a mod b).
  { symmetry. apply Z.mod_unique with (a / b / 2); [nia|nia]. }
  rewrite Hdiv, Hmod, Zodd_mod.
  generalize dependent (a mod b). intros r Hr Hab Hmod.
  generalize dependent ((a / b) mod 2). intros t Hq2 Ht Hmod.
  assert (Ht' : t = 0 \/ t = 1) by lia.
  destruct Ht' as [-> | ->]; f_equal; zbool.
Qed.

Lemma iter_shr_1_frac a p : 0 <= a ->
  forall b, 0 < b -> iter_pos shr_1 p (frac_rec a b) = frac_rec a (b * 2 ^ Zpos p).
Proof.
  intros Ha. induction p as [p IH|p IH|]; intros b Hb; cbn [iter_pos].
  - rewrite shr_1_frac, IH, IH by (try apply Z.mul_pos_pos; try apply Z.pow_pos_nonneg; lia).
    f_equal. replace (Z.pos p~1) with (Z.pos p + Z.pos p + 1) by lia.
    rewrite !Z.pow_add_r by lia. change (2 ^ 1) with 2. ring.
  - rewrite IH, IH by (try apply Z.mul_pos_pos; try apply Z.pow_pos_nonneg; lia).
    f_equal. replace (Z.pos p~0) with (Z.pos p + Z.pos p) by lia.
    rewrite !Z.pow_add_r by lia. ring.
  - rewrite shr_1_frac by lia. f_equal. change (2 ^ 1) with 2. ring.
Qed.

Lemma shr_frac a b e n : 0 <= a -> 0 < b ->
  shr (frac_rec a b) e n = (frac_rec a (b * 2 ^ Z.max 0 n), e + Z.max 0 n).
Proof.
  intros Ha Hb. destruct n as [|p|p]; simpl shr.
  - rewrite Z.max_l by lia. simpl. rewrite Z.mul_1_r, Z.add_0_r. reflexivity.
  - rewrite Z.max_r by lia. rewrite iter_shr_1_frac by assumption. reflexivity.
  - rewrite Z.max_l by lia. simpl. rewrite Z.mul_1_r, Z.add_0_r. reflexivity.
Qed.

Lemma new_location_frac a b : 0 <= a -> 0 < b ->
  shr_record_of_loc (a / b) (new_location b (a mod b)) = frac_rec a b.
Proof.
  intros Ha Hb. pose proof (Z.mod_pos_bound a b Hb) as Hr.
  unfold frac_rec. generalize dependent (a mod b). intros r Hr.
  unfold new_location, new_location_even, new_location_odd.
  destruct (Z.even b) eqn:Eb.
  - destruct (Z.eqb_spec r 0) as [->|Hr0].
    + cbn [shr_record_of_loc]. f_equal; zbool.
    + destruct (Z.compare_spec (2 * r) b); cbn [shr_record_of_loc]; f_equal; zbool.
  - destruct (Z.eqb_spec r 0) as [->|Hr0].
    + cbn [shr_record_of_loc]. f_equal; zbool.
    + assert (Hodd : 2 * r <> b).
      { intros E. rewrite <- E, Z.even_mul in Eb. discriminate. }
      destruct (Z.compare_spec (2 * r + 1) b); cbn [shr_record_of_loc]; f_equal; zbool.
Qed.

Lemma exact_frac m : shr_record_of_loc m loc_Exact = frac_rec m 1.
Proof.
  unfold frac_rec. rewrite Z.div_1_r, Z.mod_1_r. reflexivity.
Qed.

(** Nearest integer to [a / b], ties to even. *)
Definition rne (a b : Z) : Z :=
  let q := a / b in
  let r := a mod b in
  match 2 * r ?= b with
  | Lt => q
  | Eq => if Z.even q then q else q + 1
  | Gt => q + 1
  end.

Lemma round_frac_rec a b : 0 < b ->
  round_nearest_even (shr_m (frac_rec a b)) (loc_of_shr_record (frac_rec a b)) = rne a b.
Proof.
  intros Hb. pose proof (Z.mod_pos_bound a b Hb) as Hr.
  unfold frac_rec, rne. cbn [shr_m loc_of_shr_record].
  generalize dependent (a mod b). intros r Hr.
  destruct (Z.compare_spec (2 * r) b);
  destruct (Z.leb_spec b (2 * r)); try lia;
  destruct (Z.eqb_spec r 0); try lia;
  destruct (Z.eqb_spec (2 * r) b); try lia; reflexivity.
Qed.

(** The rounding of [a / b * 2 ^ e] as [binary_round_aux] computes it. *)
Definition round_frac (s : bool) (a b e : Z) : spec_float :=
  let p1 := Z.max 0 (fexp prec emax (Zdigits2 (a / b) + e) - e) in
  let e1 := e + p1 in
  let N := rne a (b * 2 ^ p1) in
  let p2 := Z.max 0 (fexp prec emax (Zdigits2 N + e1) - e1) in
  match N / 2 ^ p2 with
  | Z0 => S754_zero s
  | Zpos m => if e1 + p2 <=? emax - prec then S754_finite s m (e1 + p2) else S754_infinity s
  | Zneg _ => S754_nan
  end.

Lemma rne_nonneg a b : 0 <= a -> 0 < b -> 0 <= rne a b.
Proof.
  intros Ha Hb. unfold rne.
  assert (0 <= a / b) by (apply Z.div_pos; lia).
  destruct (2 * (a mod b) ?= b); try destruct (Z.even (a / b)); lia.
Qed.

Lemma binary_round_aux_frac s a b e : 0 <= a -> 0 < b ->
  binary_round_aux prec emax s (a / b) e (new_location b (a mod b)) = round_frac s a b e.
Proof.
  intros Ha Hb. unfold binary_round_aux, shr_fexp.
  rewrite new_location_frac by assumption.
  rewrite shr_frac by assumption.
  set (p1 := Z.max 0 (fexp prec emax (Zdigits2 (a / b) + e) - e)).
  assert (Hb1 : 0 < b * 2 ^ p1) by (apply Z.mul_pos_pos; [lia|apply Z.pow_pos_nonneg; lia]).
  rewrite round_frac_rec by assumption.
  set (N := rne a (b * 2 ^ p1)).
  assert (HN : 0 <= N) by (apply rne_nonneg; assumption).
  rewrite exact_frac, shr_frac by lia.
  set (p2 := Z.max 0 (fexp prec emax (Zdigits2 N + (e + p1)) - (e + p1))).
  unfold round_frac. fold p1. fold N. fold p2.
  cbn [shr_m frac_rec]. rewrite Z.mul_1_l. reflexivity.
Qed.

Lemma binary_round_aux_exact s m e : 0 <= m ->
  binary_round_aux prec emax s m e loc_Exact = round_frac s m 1 e.
Proof.
  intros Hm. rewrite <- binary_round_aux_frac by lia.
  rewrite Z.div_1_r, Z.mod_1_r. reflexivity.
Qed.

Lemma pow2_pos n : 0 < 2 ^ n \/ n < 0.
Proof. destruct (Z.le_gt_cases 0 n); [left; apply Z.pow_pos_nonneg; lia | right; lia]. Qed.

Lemma Zdigits2_shiftr q p : 0 <= q -> 0 <= p ->
  Zdigits2 (q / 2 ^ p) = Z.max 0 (Zdigits2 q - p).
Proof.
  intros Hq Hp.
  assert (H2p : 0 < 2 ^ p) by (apply Z.pow_pos_nonneg; lia).
  destruct (Z.eq_dec q 0) as [->|Hq0].
  { rewrite Z.div_0_l by lia. simpl. lia. }
  pose proof (Zdigits2_bounds q ltac:(lia)) as [Hlo Hhi].
  pose proof (Zdigits2_nonneg q) as Hd.
  destruct (Z.le_gt_cases (Zdigits2 q) p) as [Hle|Hgt].
  - rewrite Z.max_l by lia.
    assert (q < 2 ^ p).
    { apply Z.lt_le_trans with (1 := Hhi). apply Z.pow_le_mono_r; lia. }
    rewrite Z.div_small by lia. reflexivity.
  - rewrite Z.max_r by lia. apply Zdigits2_unique; [lia|]. split.
    + apply Z.div_le_lower_bound; [lia|].
      rewrite <- Z.pow_add_r by lia.
      replace (p + (Zdigits2 q - p - 1)) with (Zdigits2 q - 1) by lia. assumption.
    + apply Z.div_lt_upper_bound; [lia|].
      rewrite <- Z.pow_add_r by lia.
      replace (p + (Zdigits2 q - p)) with (Zdigits2 q) by lia. assumption.
Qed.

Lemma Zdigits2_le_lt m k : 0 <= m -> 0 <= k -> (Zdigits2 m <= k <-> m < 2 ^ k).
Proof.
  intros Hm Hk. destruct (Z.eq_dec m 0) as [->|Hm0].
  { simpl. split; intros _; [apply Z.pow_pos_nonneg|]; lia. }
  pose proof (Zdigits2_bounds m ltac:(lia)) as [Hlo Hhi]. split; intros H.
  - apply Z.lt_le_trans with (1 := Hhi). apply Z.pow_le_mono_r; lia.
  - destruct (Z.le_gt_cases (Zdigits2 m) k) as [|Hgt]; [assumption|exfalso].
    assert (2 ^ k <= 2 ^ (Zdigits2 m - 1)) by (apply Z.pow_le_mono_r; lia). lia.
Qed.

Lemma rne_bounds a b : 0 < b -> a / b <= rne a b <= a / b + 1.
Proof.
  intros Hb. unfold rne.
  destruct (2 * (a mod b) ?= b); try destruct (Z.even (a / b)); lia.
Qed.

(** The float built from a rounded mantissa [N <= 2 ^ 53] at exponent [E]. *)
Definition build (s : bool) (N E : Z) : spec_float :=
  if N =? 0 then S754_zero s
  else if N <? 2 ^ 53 then
    if E <=? 971 then S754_finite s (Z.to_pos N) E else S754_infinity s
  else
    if E + 1 <=? 971 then S754_finite s (Z.to_pos (2 ^ 52)) (E + 1) else S754_infinity s.

Definition fine (a b e : Z) : Prop := e <= fexp prec emax (Zdigits2 (a / b) + e).

Definition rexp (a b e : Z) : Z := fexp prec emax (Zdigits2 (a / b) + e).
Definition rmant (a b e : Z) : Z := rne a (b * 2 ^ (rexp a b e - e)).

Lemma fexp_ge_emin x : -1074 <= fexp prec emax x.
Proof. unfold fexp, SpecFloat.emin, prec, emax. lia. Qed.

Lemma fexp_eq x : fexp prec emax x = Z.max (x - 53) (-1074).
Proof. reflexivity. Qed.

Lemma rmant_range a b e : 0 <= a -> 0 < b -> fine a b e ->
  a / b / 2 ^ (rexp a b e - e) <= rmant a b e <= a / b / 2 ^ (rexp a b e - e) + 1
  /\ a / b / 2 ^ (rexp a b e - e) < 2 ^ 53.
Proof.
  intros Ha Hb Hf. unfold fine in Hf. fold (rexp a b e) in Hf.
  assert (H2p : 0 < 2 ^ (rexp a b e - e)) by (apply Z.pow_pos_nonneg; lia).
  assert (Hq : 0 <= a / b) by (apply Z.div_pos; lia).
  split.
  - unfold rmant. rewrite Z.div_div by lia. apply rne_bounds. nia.
  - apply Zdigits2_le_lt; [apply Z.div_pos; lia|lia|].
    rewrite Zdigits2_shiftr by lia.
    unfold rexp in *. rewrite fexp_eq in *. lia.
Qed.

Lemma round_frac_build s a b e : 0 <= a -> 0 < b -> fine a b e ->
  round_frac s a b e = build s (rmant a b e) (rexp a b e).
Proof.
  intros Ha Hb Hf.
  destruct (rmant_range a b e Ha Hb Hf) as [[Hlo Hhi] Hq].
  unfold fine in Hf. fold (rexp a b e) in Hf.
  assert (Hq0 : 0 <= a / b / 2 ^ (rexp a b e - e)).
  { apply Z.div_pos; [apply Z.div_pos; lia|apply Z.pow_pos_nonneg; lia]. }
  unfold round_frac. fold (rexp a b e).
  rewrite Z.max_r by lia.
  replace (e + (rexp a b e - e)) with (rexp a b e) by lia.
  fold (rmant a b e).
  set (N := rmant a b e) in *. set (E := rexp a b e) in *.
  assert (HE : -1074 <= E) by apply fexp_ge_emin.
  unfold build.
  destruct (Z.eqb_spec N 0) as [HN0|HN0].
  { rewrite HN0. simpl Zdigits2. rewrite Z.div_0_l; [reflexivity|].
    pose proof (pow2_pos (Z.max 0 (fexp prec emax (0 + E) - E))). lia. }
  destruct (Z.ltb_spec N (2 ^ 53)) as [HN|HN].
  - assert (Hd : Zdigits2 N <= 53) by (apply Zdigits2_le_lt; lia).
    rewrite Z.max_l by (rewrite fexp_eq; lia).
    rewrite Z.div_1_r, Z.add_0_r.
    destruct N as [|p|p]; try lia. reflexivity.
  - assert (HN' : N = 2 ^ 53) by lia. rewrite HN'.
    change (Zdigits2 (2 ^ 53)) with 54.
    rewrite fexp_eq. rewrite Z.max_r by lia.
    replace (Z.max (54 + E - 53) (-1074) - E) with 1 by lia.
    reflexivity.
Qed.

Definition mag (m : positive) (e : Z) : Z := Zdigits2 (Zpos m) + e.

Lemma Zdigits2_succ_le q k : 0 <= q -> 0 <= k -> Zdigits2 q <= k -> Zdigits2 (q + 1) <= k + 1.
Proof.
  intros Hq Hk H. apply Zdigits2_le_lt; [lia|lia|].
  apply Zdigits2_le_lt in H; [|lia|lia].
  rewrite Z.pow_add_r by lia. change (2 ^ 1) with 2. lia.
Qed.

Lemma Zdigits2_mono p q : 0 <= p <= q -> Zdigits2 p <= Zdigits2 q.
Proof.
  intros H. apply Zdigits2_le_lt; [lia|apply Zdigits2_nonneg|].
  destruct (Z.eq_dec q 0) as [->|Hq0].
  - assert (p = 0) by lia. subst. simpl. lia.
  - pose proof (Zdigits2_bounds q ltac:(lia)). lia.
Qed.

Lemma round_frac_finite s a b e :
  0 <= a -> 0 < b -> fine a b e ->
  -1074 < Zdigits2 (a / b) + e <= 1023 ->
  exists m e', round_frac s a b e = S754_finite s m e'
    /\ Zdigits2 (a / b) + e <= mag m e' <= Zdigits2 (a / b) + e + 1.
Proof.
  intros Ha Hb Hf Hg.
  rewrite round_frac_build by assumption.
  destruct (rmant_range a b e Ha Hb Hf) as [[Hlo Hhi] Hq].
  unfold fine in Hf. fold (rexp a b e) in Hf.
  assert (HE : rexp a b e = Z.max (Zdigits2 (a / b) + e - 53) (-1074)) by reflexivity.
  set (N := rmant a b e) in *. set (E := rexp a b e) in *.
  set (d := Zdigits2 (a / b)) in *.
  assert (Hq0 : 0 <= a / b) by (apply Z.div_pos; lia).
  assert (Hdq : Zdigits2 (a / b / 2 ^ (E - e)) = d + e - E).
  { rewrite Zdigits2_shiftr by lia. fold d. lia. }
  set (q := a / b / 2 ^ (E - e)) in *.
  assert (Hq1 : 1 <= q).
  { destruct (Z.le_gt_cases 1 q); [assumption|].
    assert (q = 0) by (assert (0 <= q) by (apply Z.div_pos; [lia|apply Z.pow_pos_nonneg; lia]); lia).
    rewrite H0 in Hdq. simpl in Hdq. lia. }
  unfold build.
  destruct (Z.eqb_spec N 0); [lia|].
  destruct (Z.ltb_spec N (2 ^ 53)) as [HN|HN].
  - destruct (Z.leb_spec E 971); [|lia].
    exists (Z.to_pos N), E. split; [reflexivity|].
    unfold mag. rewrite Z2Pos.id by lia.
    assert (Zdigits2 q <= Zdigits2 N) by (apply Zdigits2_mono; lia).
    assert (Zdigits2 N <= Zdigits2 (q + 1)) by (apply Zdigits2_mono; lia).
    assert (Zdigits2 (q + 1) <= d + e - E + 1) by (apply Zdigits2_succ_le; lia).
    lia.
  - destruct (Z.leb_spec (E + 1) 971); [|lia].
    exists (Z.to_pos (2 ^ 52)), (E + 1). split; [reflexivity|].
    unfold mag. change (Zdigits2 (Z.pos (Z.to_pos (2 ^ 52)))) with 53.
    assert (Hq53 : q = 2 ^ 53 - 1) by lia.
    assert (Zdigits2 q = 53) by (rewrite Hq53; reflexivity).
    lia.
Qed.

Lemma round_frac_no_overflow s a b e :
  0 <= a -> 0 < b -> fine a b e ->
  Zdigits2 (a / b) + e <= 1023 ->
  round_frac s a b e = S754_zero s \/
  exists m e', round_frac s a b e = S754_finite s m e'
    /\ mag m e' <= Z.max (Zdigits2 (a / b) + e + 1) (-1073).
Proof.
  intros Ha Hb Hf Hg.
  destruct (Z.le_gt_cases (Zdigits2 (a / b) + e) (-1074)) as [Hsmall|Hbig].
  - rewrite round_frac_build by assumption.
    destruct (rmant_range a b e Ha Hb Hf) as [[Hlo Hhi] Hq].
    unfold fine in Hf. fold (rexp a b e) in Hf.
    assert (HE : rexp a b e = Z.max (Zdigits2 (a / b) + e - 53) (-1074)) by reflexivity.
    set (N := rmant a b e) in *. set (E := rexp a b e) in *.
    assert (Hq0 : 0 <= a / b) by (apply Z.div_pos; lia).
    assert (Hdq : Zdigits2 (a / b / 2 ^ (E - e)) = 0).
    { rewrite Zdigits2_shiftr by lia. lia. }
    assert (Hqq : a / b / 2 ^ (E - e) = 0).
    { destruct (a / b / 2 ^ (E - e)); simpl in Hdq; lia. }
    unfold build. destruct (Z.eqb_spec N 0); [left; reflexivity|right].
    assert (N = 1) by lia.
    replace (N <? 2 ^ 53) with true by (symmetry; apply Z.ltb_lt; lia).
    replace (E <=? 971) with true by (symmetry; apply Z.leb_le; lia).
    exists (Z.to_pos N), E. split; [reflexivity|]. rewrite H. unfold mag.
    change (Zdigits2 (Z.pos (Z.to_pos 1))) with 1. lia.
  - right. destruct (round_frac_finite s a b e Ha Hb Hf ltac:(lia)) as (m & e' & -> & Hm).
    exists m, e'. split; [reflexivity|lia].
Qed.

(** Valid finite floats *)
Lemma valid_finite s m e : valid_binary (S754_finite s m e) = true ->
  1 <= Zdigits2 (Zpos m) <= 53 /\ -1074 <= e <= 971 /\
  (Zdigits2 (Zpos m) = 53 \/ e = -1074).
Proof.
  unfold SpecFloat.valid_binary, bounded, canonical_mantissa. intros H.
  apply andb_true_iff in H. destruct H as [H1 H2].
  apply Z.eqb_eq in H1. apply Z.leb_le in H2.
  rewrite fexp_eq in H1. change (emax - prec) with 971 in H2.
  change (Z.pos (digits2_pos m)) with (Zdigits2 (Z.pos m)) in H1.
  pose proof (Zdigits2_bounds (Zpos m) ltac:(lia)).
  assert (1 <= Zdigits2 (Z.pos m)) by (simpl; lia).
  lia.
Qed.

Lemma valid_mag s m e : valid_binary (S754_finite s m e) = true ->
  -1073 <= mag m e <= 1024.
Proof. intros H. apply valid_finite in H. unfold mag. lia. Qed.

Lemma Zdigits2_mul x y : 0 < x -> 0 < y ->
  Zdigits2 x + Zdigits2 y - 1 <= Zdigits2 (x * y) <= Zdigits2 x + Zdigits2 y.
Proof.
  intros Hx Hy.
  pose proof (Zdigits2_bounds x Hx) as [Hx1 Hx2].
  pose proof (Zdigits2_bounds y Hy) as [Hy1 Hy2].
  assert (1 <= Zdigits2 x) by (destruct x; simpl; lia).
  assert (1 <= Zdigits2 y) by (destruct y; simpl; lia).
  split.
  - assert (Zdigits2 (x * y) <= Zdigits2 x + Zdigits2 y - 2 -> False); [|lia].
    intros Hc. apply Zdigits2_le_lt in Hc; [|nia|lia].
    assert (2 ^ (Zdigits2 x - 1) * 2 ^ (Zdigits2 y - 1) <= x * y) by nia.
    rewrite <- Z.pow_add_r in H1 by lia.
    replace (Zdigits2 x - 1 + (Zdigits2 y - 1)) with (Zdigits2 x + Zdigits2 y - 2) in H1 by lia.
    lia.
  - apply Zdigits2_le_lt; [nia|lia|].
    rewrite Z.pow_add_r by lia. nia.
Qed.

Lemma mul_fine mx ex my ey sx sy :
  valid_binary (S754_finite sx mx ex) = true ->
  valid_binary (S754_finite sy my ey) = true ->
  fine (Zpos mx * Zpos my) 1 (ex + ey).
Proof.
  intros Hx Hy. apply valid_finite in Hx, Hy. unfold fine.
  rewrite Z.div_1_r, fexp_eq.
  pose proof (Zdigits2_mul (Zpos mx) (Zpos my) ltac:(lia) ltac:(lia)). lia.
Qed.

Lemma SFmul_finite sx mx ex sy my ey :
  SFmul prec emax (S754_finite sx mx ex) (S754_finite sy my ey) =
  round_frac (xorb sx sy) (Zpos mx * Zpos my) 1 (ex + ey).
Proof.
  simpl. rewrite binary_round_aux_exact by lia. reflexivity.
Qed.

Lemma SFmul_mag sx mx ex sy my ey :
  valid_binary (S754_finite sx mx ex) = true ->
  valid_binary (S754_finite sy my ey) = true ->
  -1073 <= mag mx ex + mag my ey - 1 -> mag mx ex + mag my ey <= 1023 ->
  exists m e, SFmul prec emax (S754_finite sx mx ex) (S754_finite sy my ey)
              = S754_finite (xorb sx sy) m e
    /\ mag mx ex + mag my ey - 1 <= mag m e <= mag mx ex + mag my ey + 1.
Proof.
  intros Hx Hy Hlo Hhi. rewrite SFmul_finite.
  pose proof (mul_fine _ _ _ _ _ _ Hx Hy) as Hf.
  pose proof (Zdigits2_mul (Zpos mx) (Zpos my) ltac:(lia) ltac:(lia)) as Hd.
  unfold mag in *.
  destruct (round_frac_finite (xorb sx sy) (Zpos mx * Zpos my) 1 (ex + ey)) as (m & e & Hr & Hm);
    try lia; try assumption.
  { rewrite Z.div_1_r. lia. }
  rewrite Z.div_1_r in Hm. exists m, e. split; [assumption|]. unfold mag in Hm. lia.
Qed.

Definition div_exp (mx : positive) (ex : Z) (my : positive) (ey : Z) : Z :=
  Z.min (fexp prec emax (mag mx ex - mag my ey)) (ex - ey).

Definition div_num (mx : positive) (ex : Z) (my : positive) (ey : Z) : Z :=
  Zpos mx * 2 ^ (ex - ey - div_exp mx ex my ey).

Lemma SFdiv_finite sx mx ex sy my ey :
  SFdiv prec emax (S754_finite sx mx ex) (S754_finite sy my ey) =
  round_frac (xorb sx sy) (div_num mx ex my ey) (Zpos my) (div_exp mx ex my ey).
Proof.
  unfold SFdiv, SFdiv_core_binary.
  change (Z.min (fexp prec emax (Zdigits2 (Z.pos mx) + ex - (Zdigits2 (Z.pos my) + ey))) (ex - ey))
    with (div_exp mx ex my ey).
  assert (Hs : 0 <= ex - ey - div_exp mx ex my ey) by (unfold div_exp; lia).
  assert (Hm : match ex - ey - div_exp mx ex my ey with
               | 0 => Z.pos mx
               | Z.pos _ => Z.shiftl (Z.pos mx) (ex - ey - div_exp mx ex my ey)
               | Z.neg _ => 0
               end = div_num mx ex my ey).
  { unfold div_num. destruct (ex - ey - div_exp mx ex my ey) eqn:E; try lia.
    apply Z.shiftl_mul_pow2. lia. }
  rewrite Hm.
  assert (Hn : 0 <= div_num mx ex my ey).
  { unfold div_num. pose proof (Z.pow_pos_nonneg 2 (ex - ey - div_exp mx ex my ey)). nia. }
  rewrite <- binary_round_aux_frac by lia.
  unfold Z.div, Z.modulo.
  destruct (Z.div_eucl (div_num mx ex my ey) (Z.pos my)). reflexivity.
Qed.

Lemma div_digits mx ex my ey :
  let s := ex - ey - div_exp mx ex my ey in
  let q := div_num mx ex my ey / Zpos my in
  Z.max 0 (Zdigits2 (Zpos mx) + s - Zdigits2 (Zpos my)) <= Zdigits2 q
  <= Z.max 0 (Zdigits2 (Zpos mx) + s - Zdigits2 (Zpos my) + 1).
Proof.
  intros s q.
  assert (Hs : 0 <= s) by (unfold s, div_exp; lia).
  pose proof (Zdigits2_bounds (Zpos mx) ltac:(lia)) as [Hx1 Hx2].
  pose proof (Zdigits2_bounds (Zpos my) ltac:(lia)) as [Hy1 Hy2].
  set (dx := Zdigits2 (Zpos mx)) in *. set (dy := Zdigits2 (Zpos my)) in *.
  assert (1 <= dx) by (unfold dx; simpl; lia).
  assert (1 <= dy) by (unfold dy; simpl; lia).
  assert (H2s : 0 < 2 ^ s) by (apply Z.pow_pos_nonneg; lia).
  assert (Hq0 : 0 <= q).
  { unfold q, div_num. fold s. apply Z.div_pos; nia. }
  pose proof (Zdigits2_nonneg q) as Hdq.
  split.
  - destruct (Z.le_gt_cases (dx + s - dy) 0) as [Hle|Hgt]; [lia|].
    rewrite Z.max_r by lia.
    assert (Zdigits2 q <= dx + s - dy - 1 -> False); [|lia].
    intros Hc. apply Zdigits2_le_lt in Hc; [|lia|lia].
    (* q + 1 <= 2^(dx+s-dy-1), so n < (q+1) * my <= 2^(dx+s-dy-1) * 2^dy *)
    assert (Hn : div_num mx ex my ey < (q + 1) * Zpos my).
    { unfold q. pose proof (Z.div_mod (div_num mx ex my ey) (Zpos my) ltac:(lia)).
      pose proof (Z.mod_pos_bound (div_num mx ex my ey) (Zpos my) ltac:(lia)). nia. }
    assert (Hlow : 2 ^ (dx - 1) * 2 ^ s <= div_num mx ex my ey).
    { unfold div_num. fold s. nia. }
    rewrite <- Z.pow_add_r in Hlow by lia.
    assert (Hup : (q + 1) * Zpos my < 2 ^ (dx + s - dy - 1) * 2 ^ dy).
    { assert (0 < 2 ^ (dx + s - dy - 1)) by (apply Z.pow_pos_nonneg; lia). nia. }
    rewrite <- Z.pow_add_r in Hup by lia.
    replace (dx + s - dy - 1 + dy) with (dx - 1 + s) in Hup by lia. lia.
  - apply Zdigits2_le_lt; [lia|lia|].
    set (k := Z.max 0 (dx + s - dy + 1)).
    assert (Hk : 0 <= k) by lia.
    apply Z.div_lt_upper_bound; [lia|].
    assert (Hnum : div_num mx ex my ey < 2 ^ dx * 2 ^ s).
    { unfold div_num. fold s. nia. }
    rewrite <- Z.pow_add_r in Hnum by lia.
    assert (2 ^ (dx + s) <= 2 ^ (dy - 1) * 2 ^ k).
    { rewrite <- Z.pow_add_r by lia. apply Z.pow_le_mono_r; lia. }
    assert (0 < 2 ^ k) by (apply Z.pow_pos_nonneg; lia).
    nia.
Qed.

Lemma div_fine mx ex my ey : fine (div_num mx ex my ey) (Zpos my) (div_exp mx ex my ey).
Proof.
  pose proof (div_digits mx ex my ey) as Hd. cbv zeta in Hd.
  unfold fine. rewrite fexp_eq.
  assert (He : div_exp mx ex my ey <= Z.max (mag mx ex - mag my ey - 53) (-1074)).
  { unfold div_exp. rewrite fexp_eq. lia. }
  unfold mag in *. lia.
Qed.

Lemma SFdiv_mag sx mx ex sy my ey :
  -1074 < mag mx ex - mag my ey -> mag mx ex - mag my ey + 1 <= 1023 ->
  exists m e, SFdiv prec emax (S754_finite sx mx ex) (S754_finite sy my ey)
              = S754_finite (xorb sx sy) m e
    /\ mag mx ex - mag my ey <= mag m e <= mag mx ex - mag my ey + 2.
Proof.
  intros Hlo Hhi. rewrite SFdiv_finite.
  pose proof (div_fine mx ex my ey) as Hf.
  pose proof (div_digits mx ex my ey) as Hd. cbv zeta in Hd.
  assert (He : div_exp mx ex my ey <= Z.max (mag mx ex - mag my ey - 53) (-1074)).
  { unfold div_exp. rewrite fexp_eq. lia. }
  assert (Hn : 0 <= div_num mx ex my ey).
  { unfold div_num. pose proof (Z.pow_pos_nonneg 2 (ex - ey - div_exp mx ex my ey)).
    assert (0 <= ex - ey - div_exp mx ex my ey) by (unfold div_exp; lia). nia. }
  unfold mag in *.
  destruct (round_frac_finite (xorb sx sy) (div_num mx ex my ey) (Zpos my) (div_exp mx ex my ey))
    as (m & e & Hr & Hm); try lia; try assumption.
  exists m, e. split; [assumption|]. unfold mag in Hm. lia.
Qed.

Lemma SFdiv_no_overflow sx mx ex sy my ey :
  mag mx ex - mag my ey + 1 <= 1023 ->
  SFdiv prec emax (S754_finite sx mx ex) (S754_finite sy my ey) = S754_zero (xorb sx sy) \/
  exists m e, SFdiv prec emax (S754_finite sx mx ex) (S754_finite sy my ey)
              = S754_finite (xorb sx sy) m e.
Proof.
  intros Hhi. rewrite SFdiv_finite.
  pose proof (div_fine mx ex my ey) as Hf.
  pose proof (div_digits mx ex my ey) as Hd. cbv zeta in Hd.
  assert (He : div_exp mx ex my ey <= Z.max (mag mx ex - mag my ey - 53) (-1074)).
  { unfold div_exp. rewrite fexp_eq. lia. }
  assert (Hn : 0 <= div_num mx ex my ey).
  { unfold div_num. pose proof (Z.pow_pos_nonneg 2 (ex - ey - div_exp mx ex my ey)).
    assert (0 <= ex - ey - div_exp mx ex my ey) by (unfold div_exp; lia). nia. }
  unfold mag in *.
  destruct (round_frac_no_overflow (xorb sx sy) (div_num mx ex my ey) (Zpos my) (div_exp mx ex my ey))
    as [Hz | (m & e & Hr & Hm)]; try lia; try assumption.
  - left. assumption.
  - right. exists m, e. assumption.
Qed.

Lemma Zdigits2_mul_pow2 m k : 0 < m -> 0 <= k -> Zdigits2 (m * 2 ^ k) = Zdigits2 m + k.
Proof.
  intros Hm Hk. pose proof (Zdigits2_bounds m Hm) as [H1 H2].
  assert (1 <= Zdigits2 m) by (destruct m; simpl; lia).
  assert (0 < 2 ^ k) by (apply Z.pow_pos_nonneg; lia).
  apply Zdigits2_unique; [lia|]. split.
  - replace (Zdigits2 m + k - 1) with (Zdigits2 m - 1 + k) by lia.
    rewrite Z.pow_add_r by lia. nia.
  - rewrite Z.pow_add_r by lia. nia.
Qed.

Lemma shl_align_spec mx ex ex' :
  let k := Z.max 0 (ex - ex') in
  shl_align mx ex ex' = (Z.to_pos (Zpos mx * 2 ^ k), ex - k).
Proof.
  intros k. unfold k, shl_align. destruct (ex' - ex) as [|p|p] eqn:E.
  - rewrite Z.max_l by lia. rewrite Z.pow_0_r, Z.mul_1_r, Z.sub_0_r. reflexivity.
  - rewrite Z.max_l by lia. rewrite Z.pow_0_r, Z.mul_1_r, Z.sub_0_r. reflexivity.
  - rewrite Z.max_r by lia. replace (ex - ex') with (Zpos p) by lia.
    f_equal; [|lia].
    change (Pos.iter xO mx p) with (shift_pos p mx).
    apply Pos2Z.inj. rewrite shift_pos_correct.
    change (Zpower_pos 2 p) with (2 ^ Zpos p).
    rewrite Z2Pos.id; [ring|]. pose proof (Z.pow_pos_nonneg 2 (Zpos p)). nia.
Qed.

Lemma binary_round_frac s m e :
  let k := Z.max 0 (e - fexp prec emax (Zdigits2 (Zpos m) + e)) in
  binary_round prec emax s m e = round_frac s (Zpos m * 2 ^ k) 1 (e - k)
  /\ fine (Zpos m * 2 ^ k) 1 (e - k)
  /\ Zdigits2 (Zpos m * 2 ^ k / 1) + (e - k) = mag m e.
Proof.
  intros k. unfold binary_round.
  change (Z.pos (digits2_pos m)) with (Zdigits2 (Zpos m)).
  rewrite shl_align_spec. cbv zeta. fold k.
  assert (Hk : 0 <= k) by (unfold k; lia).
  assert (H2 : 0 < Zpos m * 2 ^ k) by (pose proof (Z.pow_pos_nonneg 2 k); nia).
  rewrite Z2Pos.id by assumption.
  rewrite binary_round_aux_exact by lia.
  assert (Hd : Zdigits2 (Zpos m * 2 ^ k / 1) + (e - k) = mag m e).
  { rewrite Z.div_1_r, Zdigits2_mul_pow2 by lia. unfold mag. lia. }
  repeat split; try assumption.
  unfold fine. rewrite Hd. unfold mag, k. lia.
Qed.

Lemma round_frac_valid s a b e : 0 <= a -> 0 < b -> fine a b e ->
  valid_binary (round_frac s a b e) = true.
Proof.
  intros Ha Hb Hf.
  rewrite round_frac_build by assumption.
  destruct (rmant_range a b e Ha Hb Hf) as [[Hlo Hhi] Hq].
  unfold fine in Hf. fold (rexp a b e) in Hf.
  assert (HE : rexp a b e = Z.max (Zdigits2 (a / b) + e - 53) (-1074)) by reflexivity.
  set (N := rmant a b e) in *. set (E := rexp a b e) in *.
  set (d := Zdigits2 (a / b)) in *.
  assert (Hq0 : 0 <= a / b) by (apply Z.div_pos; lia).
  assert (Hdq : Zdigits2 (a / b / 2 ^ (E - e)) = Z.max 0 (d + e - E)).
  { rewrite Zdigits2_shiftr by lia. fold d. lia. }
  set (q := a / b / 2 ^ (E - e)) in *.
  assert (Hq1 : 0 <= q) by (apply Z.div_pos; [lia|apply Z.pow_pos_nonneg; lia]).
  unfold build.
  destruct (Z.eqb_spec N 0); [reflexivity|].
  destruct (Z.ltb_spec N (2 ^ 53)) as [HN|HN].
  - destruct (Z.leb_spec E 971); [|reflexivity].
    unfold SpecFloat.valid_binary, bounded, canonical_mantissa.
    change (Z.pos (digits2_pos (Z.to_pos N))) with (Zdigits2 (Zpos (Z.to_pos N))).
    rewrite Z2Pos.id by lia.
    apply andb_true_iff. split; [apply Z.eqb_eq|apply Z.leb_le; assumption].
    rewrite fexp_eq.
    assert (Zdigits2 N <= 53) by (apply Zdigits2_le_lt; lia).
    assert (Zdigits2 q <= Zdigits2 N) by (apply Zdigits2_mono; lia).
    lia.
  - destruct (Z.leb_spec (E + 1) 971); [|reflexivity].
    unfold SpecFloat.valid_binary, bounded, canonical_mantissa.
    change (Z.pos (digits2_pos (Z.to_pos (2 ^ 52)))) with 53.
    apply andb_true_iff. split; [apply Z.eqb_eq|apply Z.leb_le; assumption].
    rewrite fexp_eq. lia.
Qed.

Lemma round_frac_lower s a b e :
  0 <= a -> 0 < b -> fine a b e -> -1074 < Zdigits2 (a / b) + e ->
  round_frac s a b e = S754_infinity s \/
  exists m e', round_frac s a b e = S754_finite s m e'
    /\ Zdigits2 (a / b) + e <= mag m e'.
Proof.
  intros Ha Hb Hf Hg.
  rewrite round_frac_build by assumption.
  destruct (rmant_range a b e Ha Hb Hf) as [[Hlo Hhi] Hq].
  assert (HE : rexp a b e = Z.max (Zdigits2 (a / b) + e - 53) (-1074)) by reflexivity.
  unfold fine in Hf. fold (rexp a b e) in Hf.
  set (N := rmant a b e) in *. set (E := rexp a b e) in *.
  assert (Hq0 : 0 <= a / b) by (apply Z.div_pos; lia).
  assert (Hdq : Zdigits2 (a / b / 2 ^ (E - e)) = Zdigits2 (a / b) + e - E).
  { rewrite Zdigits2_shiftr by lia. lia. }
  set (q := a / b / 2 ^ (E - e)) in *.
  assert (Hq1 : 1 <= q).
  { assert (0 <= q) by (apply Z.div_pos; [lia|apply Z.pow_pos_nonneg; lia]).
    destruct (Z.eq_dec q 0) as [Eq|Eq]; [|lia].
    rewrite Eq in Hdq. simpl in Hdq. lia. }
  unfold build.
  destruct (Z.eqb_spec N 0); [lia|].
  destruct (Z.ltb_spec N (2 ^ 53)) as [HN|HN].
  - destruct (Z.leb_spec E 971); [right|left; reflexivity].
    exists (Z.to_pos N), E. split; [reflexivity|].
    unfold mag. rewrite Z2Pos.id by lia.
    assert (Zdigits2 q <= Zdigits2 N) by (apply Zdigits2_mono; lia). lia.
  - destruct (Z.leb_spec (E + 1) 971); [right|left; reflexivity].
    exists (Z.to_pos (2 ^ 52)), (E + 1). split; [reflexivity|].
    unfold mag. change (Zdigits2 (Z.pos (Z.to_pos (2 ^ 52)))) with 53.
    assert (Zdigits2 q <= 53) by (apply Zdigits2_le_lt; lia). lia.
Qed.

(** ** Primitive floats through their specification *)

Definition finite_mag (s : bool) (lo hi : Z) (x : float) : Prop :=
  exists m e, Prim2SF x = S754_finite s m e /\ lo <= mag m e <= hi.

Definition finite_or_zero (s : bool) (x : float) : Prop :=
  Prim2SF x = S754_zero s \/ exists m e, Prim2SF x = S754_finite s m e.

Lemma finite_mag_weaken s lo hi lo' hi' x :
  finite_mag s lo hi x -> lo' <= lo -> hi <= hi' -> finite_mag s lo' hi' x.
Proof. intros (m & e & H & Hm) Hlo Hhi. exists m, e. split; [assumption|lia]. Qed.

Lemma finite_mag_finite_or_zero s lo hi x : finite_mag s lo hi x -> finite_or_zero s x.
Proof. intros (m & e & H & _). right. exists m, e. assumption. Qed.

Lemma prim_valid_finite x s m e : Prim2SF x = S754_finite s m e ->
  valid_binary (S754_finite s m e) = true.
Proof. intros H. rewrite <- H. apply Prim2SF_valid. Qed.

Lemma prim_mul_mag sx lx hx sy ly hy x y :
  finite_mag sx lx hx x -> finite_mag sy ly hy y ->
  -1073 <= lx + ly - 1 -> hx + hy <= 1023 ->
  finite_mag (xorb sx sy) (lx + ly - 1) (hx + hy + 1) (x * y)%float.
Proof.
  intros (mx & ex & Hx & Hmx) (my & ey & Hy & Hmy) Hlo Hhi.
  pose proof (prim_valid_finite _ _ _ _ Hx) as Vx.
  pose proof (prim_valid_finite _ _ _ _ Hy) as Vy.
  destruct (SFmul_mag sx mx ex sy my ey Vx Vy) as (m & e & Hr & Hm); try lia.
  exists m, e. split; [|lia].
  rewrite mul_spec, Hx, Hy. exact Hr.
Qed.

Lemma prim_div_mag sx lx hx sy ly hy x y :
  finite_mag sx lx hx x -> finite_mag sy ly hy y ->
  -1074 < lx - hy -> hx - ly + 1 <= 1023 ->
  finite_mag (xorb sx sy) (lx - hy) (hx - ly + 2) (x / y)%float.
Proof.
  intros (mx & ex & Hx & Hmx) (my & ey & Hy & Hmy) Hlo Hhi.
  destruct (SFdiv_mag sx mx ex sy my ey) as (m & e & Hr & Hm); try lia.
  exists m, e. split; [|lia].
  rewrite div_spec, Hx, Hy. exact Hr.
Qed.

Lemma prim_div_finite_or_zero sx lx hx sy ly hy x y :
  finite_mag sx lx hx x -> finite_mag sy ly hy y ->
  hx - ly + 1 <= 1023 ->
  finite_or_zero (xorb sx sy) (x / y)%float.
Proof.
  intros (mx & ex & Hx & Hmx) (my & ey & Hy & Hmy) Hhi.
  unfold finite_or_zero. rewrite div_spec, Hx, Hy.
  apply SFdiv_no_overflow. lia.
Qed.

Lemma prim_opp_mag s lo hi x :
  finite_mag s lo hi x -> finite_mag (negb s) lo hi (- x)%float.
Proof.
  intros (m & e & Hx & Hm). exists m, e. split; [|assumption].
  rewrite opp_spec, Hx. reflexivity.
Qed.

Lemma finite_mag_nonzero s lo hi x : finite_mag s lo hi x -> (x =? 0)%float = false.
Proof.
  intros (m & e & Hx & _). rewrite eqb_spec, Hx.
  change (Prim2SF 0) with (S754_zero false). destruct s; reflexivity.
Qed.

(** [float_of_int] on a positive integer *)
Lemma binary_normalize_pos z : 0 < z ->
  valid_binary (binary_normalize prec emax z 0 false) = true /\
  (binary_normalize prec emax z 0 false = S754_infinity false \/
   exists m e, binary_normalize prec emax z 0 false = S754_finite false m e
     /\ Zdigits2 z <= mag m e).
Proof.
  intros Hz. destruct z as [|p|p]; try lia. unfold binary_normalize.
  destruct (binary_round_frac false p 0) as (Hr & Hf & Hd). cbv zeta in *.
  set (k := Z.max 0 (0 - fexp prec emax (Zdigits2 (Z.pos p) + 0))) in *.
  assert (Hk : 0 <= k) by (unfold k; lia).
  assert (Hn : 0 <= Zpos p * 2 ^ k) by (pose proof (Z.pow_pos_nonneg 2 k); nia).
  rewrite Hr. split.
  - apply round_frac_valid; [assumption|lia|assumption].
  - destruct (round_frac_lower false (Zpos p * 2 ^ k) 1 (0 - k)) as [Hi|(m & e & Hm & Hg)];
      try assumption; try lia.
    + rewrite Hd. unfold mag.
      assert (1 <= Zdigits2 (Zpos p)) by (cbn [Zdigits2]; lia). lia.
    + left. assumption.
    + right. exists m, e. split; [assumption|]. rewrite Hd in Hg. unfold mag in *. lia.
Qed.

Lemma float_of_int_pos z : 0 < z ->
  float_of_int z = Raise OverflowError \/
  exists f, float_of_int z = Return f /\ finite_mag false (Zdigits2 z) 1024 f.
Proof.
  intros Hz. destruct (binary_normalize_pos z Hz) as [Hv [Hi|(m & e & Hm & Hg)]];
    unfold float_of_int.
  - left. rewrite Hi. reflexivity.
  - right. rewrite Hm. eexists. split; [reflexivity|].
    exists m, e. rewrite Hm in Hv. split.
    + apply Prim2SF_SF2Prim. assumption.
    + pose proof (valid_mag _ _ _ Hv). lia.
Qed.

Lemma float_of_int_small z : 0 < z -> z < 2 ^ 1023 ->
  exists f, float_of_int z = Return f /\ finite_mag false (Zdigits2 z) (Zdigits2 z + 1) f.
Proof.
  intros Hz Hlt. destruct z as [|p|p]; try lia.
  unfold float_of_int, binary_normalize.
  destruct (binary_round_frac false p 0) as (Hr & Hf & Hd). cbv zeta in *.
  set (k := Z.max 0 (0 - fexp prec emax (Zdigits2 (Z.pos p) + 0))) in *.
  assert (Hk : 0 <= k) by (unfold k; lia).
  assert (Hn : 0 <= Zpos p * 2 ^ k) by (pose proof (Z.pow_pos_nonneg 2 k); nia).
  assert (Hdz : 1 <= Zdigits2 (Zpos p) <= 1023).
  { split; [simpl; lia|]. apply Zdigits2_le_lt; lia. }
  destruct (round_frac_finite false (Zpos p * 2 ^ k) 1 (0 - k)) as (m & e & Hm & Hg);
    try assumption; try lia.
  { rewrite Hd. unfold mag. lia. }
  rewrite Hr, Hm. eexists. split; [reflexivity|].
  exists m, e. split.
  - apply Prim2SF_SF2Prim. rewrite <- Hm. apply round_frac_valid; [assumption|lia|assumption].
  - rewrite Hd in Hg. unfold mag in *. lia.
Qed.

(** ** The atoms that [__init__] builds *)

Definition value_of (r : result float) : float :=
  match r with Return a => a | Raise _ => nan end.

Definition a0_value : float :=
  Eval vm_compute in value_of (BohrAtom.bohr_radius _epsilon0 _hbar _m_e _e).

Definition atom (Z0 : int) : BohrAtom.t :=
  BohrAtom.mk Z0 _h _hbar _e _m_e _epsilon0 _c a0_value.

(** [m_e * e**4] and [8 * eps0**2 * h**2], which do not depend on [Z] or [n]. *)
Definition E_num : float :=
  Eval vm_compute in
    value_of (e4 <- float_pow _e 4 ;; Return (float_mul _m_e e4)).

Definition E_den : float :=
  Eval vm_compute in
    value_of (eps2 <- float_pow _epsilon0 2 ;;
              d1 <- int_mul_float 8 eps2 ;;
              h2 <- float_pow _h 2 ;;
              Return (float_mul d1 h2)).

Lemma bohr_radius_value :
  BohrAtom.bohr_radius _epsilon0 _hbar _m_e _e = Return a0_value.
Proof. vm_compute. reflexivity. Qed.

Lemma init_atom Z0 : 1 <= Z0 -> BohrAtom.__init__ Z0 = Return (atom Z0).
Proof.
  intros HZ. unfold BohrAtom.__init__.
  rewrite (proj2 (Z.ltb_ge Z0 1)) by assumption.
  rewrite bohr_radius_value. reflexivity.
Qed.

Lemma E_num_value :
  (e4 <- float_pow _e 4 ;; Return (float_mul _m_e e4)) = Return E_num.
Proof. vm_compute. reflexivity. Qed.

Lemma E_den_value :
  (eps2 <- float_pow _epsilon0 2 ;;
   d1 <- int_mul_float 8 eps2 ;;
   h2 <- float_pow _h 2 ;;
   Return (float_mul d1 h2)) = Return E_den.
Proof. vm_compute. reflexivity. Qed.

(** The energy of a built atom, with the constant parts evaluated. *)
Definition energy_expr (Z0 n : int) : result float :=
  fz <- float_of_int (Z0 ^ 2) ;;
  fn <- float_of_int (n ^ 2) ;;
  float_truediv (float_neg (float_mul E_num fz)) (float_mul E_den fn).

Lemma energy_joule_atom Z0 n : 1 <= n ->
  BohrAtom.energy_joule (atom Z0) n = energy_expr Z0 n.
Proof.
  intros Hn. unfold BohrAtom.energy_joule, energy_expr.
  rewrite (proj2 (Z.ltb_ge n 1)) by assumption.
  cbn [atom BohrAtom._e BohrAtom._m_e BohrAtom.Z BohrAtom._epsilon0 BohrAtom._h].
  pose proof E_num_value as Hnum. pose proof E_den_value as Hden.
  destruct (float_pow _e 4) as [e4|]; [|discriminate]. cbn [bind] in Hnum |- *.
  injection Hnum as Hnum. rewrite Hnum.
  unfold float_mul_int at 1. destruct (float_of_int (Z0 ^ 2)) as [fz|ex]; cbn [bind]; [|reflexivity].
  destruct (float_pow _epsilon0 2) as [eps2|]; [|discriminate]. cbn [bind] in Hden |- *.
  destruct (int_mul_float 8 eps2) as [d1|]; [|discriminate]. cbn [bind] in Hden |- *.
  destruct (float_pow _h 2) as [h2|]; [|discriminate]. cbn [bind] in Hden |- *.
  injection Hden as Hden. rewrite Hden.
  unfold float_mul_int. destruct (float_of_int (n ^ 2)); reflexivity.
Qed.

Lemma E_num_mag : finite_mag false (-349) (-349) E_num.
Proof. eexists _, _. split; [vm_compute; reflexivity|]. vm_compute. split; discriminate. Qed.

Lemma E_den_mag : finite_mag false (-290) (-290) E_den.
Proof. eexists _, _. split; [vm_compute; reflexivity|]. vm_compute. split; discriminate. Qed.

Lemma pow2_digits z : 1 <= z -> 1 <= Zdigits2 (z ^ 2).
Proof. intros H. assert (0 < z ^ 2) by nia. destruct (z ^ 2); simpl; lia. Qed.

(** Numerator and denominator of the energy are finite and not zero. *)
Lemma energy_num_mag fz lo : 1 <= lo -> finite_mag false lo 1024 fz ->
  finite_mag true (lo - 350) 676 (float_neg (float_mul E_num fz)).
Proof.
  intros Hlo Hz. unfold float_neg, float_mul.
  pose proof (prim_mul_mag _ _ _ _ _ _ _ _ E_num_mag Hz ltac:(lia) ltac:(lia)) as H.
  apply prim_opp_mag in H. eapply finite_mag_weaken; [exact H|lia|lia].
Qed.

Lemma energy_den_mag fn lo hi : 1 <= lo -> hi <= 1024 -> finite_mag false lo hi fn ->
  finite_mag false (lo - 291) (hi - 289) (float_mul E_den fn).
Proof.
  intros Hlo Hhi Hn. unfold float_mul.
  pose proof (prim_mul_mag _ _ _ _ _ _ _ _ E_den_mag Hn ltac:(lia) ltac:(lia)) as H.
  eapply finite_mag_weaken; [exact H|lia|lia].
Qed.

Lemma energy_expr_returns Z0 n fz fn :
  1 <= Z0 -> 1 <= n ->
  float_of_int (Z0 ^ 2) = Return fz -> float_of_int (n ^ 2) = Return fn ->
  energy_expr Z0 n = Return (- (E_num * fz) / (E_den * fn))%float
  /\ finite_or_zero true (- (E_num * fz) / (E_den * fn))%float.
Proof.
  intros HZ Hn Hfz Hfn. unfold energy_expr. rewrite Hfz, Hfn. cbn [bind].
  destruct (float_of_int_pos (Z0 ^ 2) ltac:(nia)) as [Hr|(fz' & Hr & Hmz)];
    rewrite Hfz in Hr; [discriminate|injection Hr as <-].
  destruct (float_of_int_pos (n ^ 2) ltac:(nia)) as [Hr|(fn' & Hr & Hmn)];
    rewrite Hfn in Hr; [discriminate|injection Hr as <-].
  pose proof (pow2_digits Z0 HZ) as HdZ. pose proof (pow2_digits n Hn) as Hdn.
  apply finite_mag_weaken with (lo' := 1) (hi' := 1024) in Hmz; [|lia|lia].
  apply finite_mag_weaken with (lo' := 1) (hi' := 1024) in Hmn; [|lia|lia].
  pose proof (energy_num_mag fz 1 ltac:(lia) Hmz) as HA.
  pose proof (energy_den_mag fn 1 1024 ltac:(lia) ltac:(lia) Hmn) as HB.
  unfold float_truediv. rewrite (finite_mag_nonzero _ _ _ _ HB).
  split; [reflexivity|].
  pose proof (prim_div_finite_or_zero _ _ _ _ _ _ _ _ HA HB ltac:(lia)) as H.
  exact H.
Qed.

(** ** Order and subtraction *)

(** The value of a finite float, in units of [2 ^ -1074]. *)
Definition ival (x : spec_float) : Z :=
  match x with
  | S754_finite s m e => cond_Zopp s (Zpos m * 2 ^ (e + 1074))
  | _ => 0
  end.

Definition is_finite_or_zero (x : spec_float) : bool :=
  match x with
  | S754_zero _ | S754_finite _ _ _ => true
  | _ => false
  end.

Lemma finite_or_zero_is s x : finite_or_zero s x -> is_finite_or_zero (Prim2SF x) = true.
Proof. intros [H|(m & e & H)]; rewrite H; reflexivity. Qed.

Lemma ival_pos_finite m e : -1074 <= e -> 0 < Zpos m * 2 ^ (e + 1074).
Proof. intros He. pose proof (Z.pow_pos_nonneg 2 (e + 1074)). nia. Qed.

Lemma valid_lt_exp s1 m1 e1 s2 m2 e2 :
  valid_binary (S754_finite s1 m1 e1) = true ->
  valid_binary (S754_finite s2 m2 e2) = true ->
  e1 < e2 -> Zpos m1 * 2 ^ (e1 + 1074) < Zpos m2 * 2 ^ (e2 + 1074).
Proof.
  intros V1 V2 Hlt. apply valid_finite in V1, V2.
  destruct V1 as (Hd1 & He1 & _). destruct V2 as (Hd2 & He2 & Hn2).
  assert (Hm1 : Zpos m1 < 2 ^ 53) by (apply Zdigits2_le_lt; lia).
  assert (Hm2 : 2 ^ 52 <= Zpos m2).
  { pose proof (Zdigits2_bounds (Zpos m2) ltac:(lia)) as [H _].
    replace (Zdigits2 (Zpos m2)) with 53 in H by lia. exact H. }
  replace (e2 + 1074) with ((e2 - e1 - 1) + 1 + (e1 + 1074)) by lia.
  rewrite (Z.pow_add_r 2 (e2 - e1 - 1 + 1) (e1 + 1074)), (Z.pow_add_r 2 (e2 - e1 - 1) 1) by lia.
  change (2 ^ 1) with 2.
  assert (0 < 2 ^ (e1 + 1074)) by (apply Z.pow_pos_nonneg; lia).
  assert (0 < 2 ^ (e2 - e1 - 1)) by (apply Z.pow_pos_nonneg; lia).
  change (2 ^ 53) with (2 * 2 ^ 52) in Hm1.
  set (c := 2 ^ 52) in *. set (P1 := 2 ^ (e1 + 1074)) in *. set (P2 := 2 ^ (e2 - e1 - 1)) in *.
  assert (Zpos m1 * P1 < 2 * c * P1) by nia.
  assert (2 * c * P1 <= 2 * Zpos m2 * P1) by nia.
  assert (2 * Zpos m2 * P1 <= Zpos m2 * (P2 * 2 * P1)) by nia.
  lia.
Qed.

Lemma SFcompare_ival x y :
  valid_binary x = true -> valid_binary y = true ->
  is_finite_or_zero x = true -> is_finite_or_zero y = true ->
  SFcompare x y = Some (ival x ?= ival y).
Proof.
  intros Vx Vy Fx Fy.
  destruct x as [sx| | |sx mx ex]; try discriminate;
  destruct y as [sy| | |sy my ey]; try discriminate.
  - reflexivity.
  - pose proof (valid_finite _ _ _ Vy) as (_ & He & _).
    pose proof (ival_pos_finite my ey ltac:(lia)).
    cbn [SFcompare ival]. f_equal. symmetry.
    destruct sy; cbn [cond_Zopp]; [apply Z.compare_gt_iff|apply Z.compare_lt_iff]; lia.
  - pose proof (valid_finite _ _ _ Vx) as (_ & He & _).
    pose proof (ival_pos_finite mx ex ltac:(lia)).
    cbn [SFcompare ival]. f_equal. symmetry.
    destruct sx; cbn [cond_Zopp]; [apply Z.compare_lt_iff|apply Z.compare_gt_iff]; lia.
  - pose proof (valid_finite _ _ _ Vx) as (_ & Hex & _).
    pose proof (valid_finite _ _ _ Vy) as (_ & Hey & _).
    pose proof (ival_pos_finite mx ex ltac:(lia)) as Px.
    pose proof (ival_pos_finite my ey ltac:(lia)) as Py.
    cbn [SFcompare ival]. f_equal. symmetry.
    assert (Heq : ex = ey -> (Zpos mx * 2 ^ (ex + 1074) ?= Zpos my * 2 ^ (ey + 1074)) = (mx ?= my)%positive).
    { intros ->. rewrite Pos2Z.inj_compare.
      assert (0 < 2 ^ (ey + 1074)) by (apply Z.pow_pos_nonneg; lia).
      destruct (Z.compare_spec (Zpos mx) (Zpos my));
        [apply Z.compare_eq_iff|apply Z.compare_lt_iff|apply Z.compare_gt_iff]; nia. }
    destruct sx, sy; cbn [cond_Zopp].
    + destruct (Z.compare_spec ex ey) as [E|E|E].
      * rewrite Z.compare_opp, Z.compare_antisym, (Heq E). reflexivity.
      * pose proof (valid_lt_exp _ _ _ _ _ _ Vx Vy E). apply Z.compare_gt_iff. lia.
      * pose proof (valid_lt_exp _ _ _ _ _ _ Vy Vx E). apply Z.compare_lt_iff. lia.
    + apply Z.compare_lt_iff. lia.
    + apply Z.compare_gt_iff. lia.
    + destruct (Z.compare_spec ex ey) as [E|E|E].
      * rewrite (Heq E). reflexivity.
      * pose proof (valid_lt_exp _ _ _ _ _ _ Vx Vy E). apply Z.compare_lt_iff. lia.
      * pose proof (valid_lt_exp _ _ _ _ _ _ Vy Vx E). apply Z.compare_gt_iff. lia.
Qed.

Lemma round_frac_cases s a b e : 0 <= a -> 0 < b ->
  round_frac s a b e = S754_zero s \/ round_frac s a b e = S754_infinity s \/
  exists m e', round_frac s a b e = S754_finite s m e'.
Proof.
  intros Ha Hb. unfold round_frac.
  set (p1 := Z.max 0 (fexp prec emax (Zdigits2 (a / b) + e) - e)).
  set (N := rne a (b * 2 ^ p1)).
  set (p2 := Z.max 0 (fexp prec emax (Zdigits2 N + (e + p1)) - (e + p1))).
  assert (HN : 0 <= N).
  { apply rne_nonneg; [assumption|]. apply Z.mul_pos_pos; [lia|apply Z.pow_pos_nonneg; lia]. }
  assert (Hq : 0 <= N / 2 ^ p2) by (apply Z.div_pos; [lia|apply Z.pow_pos_nonneg; lia]).
  destruct (N / 2 ^ p2) as [|q|q]; [left; reflexivity| |lia].
  right. destruct (e + p1 + p2 <=? emax - prec); [right; eauto|left; reflexivity].
Qed.

(** Sign of a float: [0] for a zero, [1] and [-1] for the other numbers. *)
Definition sf_sgn (x : spec_float) : Z :=
  match x with
  | S754_zero _ => 0
  | S754_infinity s | S754_finite s _ _ => if s then -1 else 1
  | S754_nan => 2
  end.

Lemma binary_round_sgn s m e : -1074 <= e ->
  sf_sgn (binary_round prec emax s m e) = if s then -1 else 1.
Proof.
  intros He. destruct (binary_round_frac s m e) as (Hr & Hf & Hd). cbv zeta in *.
  set (k := Z.max 0 (e - fexp prec emax (Zdigits2 (Z.pos m) + e))) in *.
  assert (Hk : 0 <= k) by (unfold k; lia).
  assert (Hn : 0 <= Zpos m * 2 ^ k) by (pose proof (Z.pow_pos_nonneg 2 k); nia).
  rewrite Hr.
  destruct (round_frac_lower s (Zpos m * 2 ^ k) 1 (e - k)) as [Hi|(m' & e' & Hm & _)];
    try assumption; try lia.
  - rewrite Hd. unfold mag.
    assert (1 <= Zdigits2 (Zpos m)) by (cbn [Zdigits2]; lia). lia.
  - rewrite Hi. reflexivity.
  - rewrite Hm. reflexivity.
Qed.

Lemma binary_normalize_sgn D e : -1074 <= e ->
  sf_sgn (binary_normalize prec emax D e false) = Z.sgn D.
Proof.
  intros He. destruct D as [|p|p]; cbn [binary_normalize Z.sgn].
  - reflexivity.
  - apply (binary_round_sgn false); assumption.
  - apply (binary_round_sgn true); assumption.
Qed.

Lemma shl_align_fst mx ex ez : ez <= ex ->
  Zpos (fst (shl_align mx ex ez)) = Zpos mx * 2 ^ (ex - ez).
Proof.
  intros Hle. rewrite shl_align_spec. cbv zeta. cbn [fst].
  rewrite Z.max_r by lia. apply Z2Pos.id.
  pose proof (Z.pow_pos_nonneg 2 (ex - ez)). nia.
Qed.

Lemma cond_Zopp_mul s a b : cond_Zopp s a * b = cond_Zopp s (a * b).
Proof. destruct s; simpl; lia. Qed.

Lemma aligned_ival s m e ez : -1074 <= ez -> ez <= e ->
  cond_Zopp s (Zpos (fst (shl_align m e ez))) * 2 ^ (ez + 1074) = ival (S754_finite s m e).
Proof.
  intros H1 H2. rewrite shl_align_fst by assumption. cbn [ival].
  rewrite cond_Zopp_mul. f_equal. rewrite <- Z.mul_assoc, <- Z.pow_add_r by lia.
  do 2 f_equal. lia.
Qed.

Lemma SFsub_sgn x y :
  valid_binary x = true -> valid_binary y = true ->
  is_finite_or_zero x = true -> is_finite_or_zero y = true ->
  sf_sgn (SF64sub x y) = Z.sgn (ival x - ival y).
Proof.
  intros Vx Vy Fx Fy.
  destruct x as [sx| | |sx mx ex]; try discriminate;
  destruct y as [sy| | |sy my ey]; try discriminate.
  - destruct sx, sy; reflexivity.
  - pose proof (valid_finite _ _ _ Vy) as (_ & He & _).
    pose proof (ival_pos_finite my ey ltac:(lia)).
    cbn [SF64sub SFsub sf_sgn ival].
    destruct sy; cbn [negb cond_Zopp]; symmetry;
      [apply Z.sgn_pos|apply Z.sgn_neg]; lia.
  - pose proof (valid_finite _ _ _ Vx) as (_ & He & _).
    pose proof (ival_pos_finite mx ex ltac:(lia)).
    cbn [SF64sub SFsub sf_sgn ival].
    destruct sx; cbn [negb cond_Zopp]; symmetry;
      [apply Z.sgn_neg|apply Z.sgn_pos]; lia.
  - pose proof (valid_finite _ _ _ Vx) as (_ & Hex & _).
    pose proof (valid_finite _ _ _ Vy) as (_ & Hey & _).
    unfold SF64sub, SFsub.
    rewrite binary_normalize_sgn by lia.
    set (ez := Z.min ex ey).
    rewrite <- (aligned_ival sx mx ex ez), <- (aligned_ival sy my ey ez) by lia.
    rewrite <- Z.mul_sub_distr_r.
    rewrite Z.sgn_mul.
    rewrite (Z.sgn_pos (2 ^ (ez + 1074))) by (apply Z.pow_pos_nonneg; lia).
    lia.
Qed.

Lemma prim_sub_sgn x y sx sy :
  finite_or_zero sx x -> finite_or_zero sy y ->
  sf_sgn (Prim2SF (x - y)%float) = Z.sgn (ival (Prim2SF x) - ival (Prim2SF y)).
Proof.
  intros Hx Hy. rewrite sub_spec.
  apply SFsub_sgn; try apply Prim2SF_valid; eapply finite_or_zero_is; eassumption.
Qed.

Lemma prim_ltb_ival x y sx sy :
  finite_or_zero sx x -> finite_or_zero sy y ->
  (x <? y)%float = (ival (Prim2SF x) <? ival (Prim2SF y)).
Proof.
  intros Hx Hy. rewrite ltb_spec. unfold SFltb.
  rewrite SFcompare_ival; try apply Prim2SF_valid; try (eapply finite_or_zero_is; eassumption).
  unfold Z.ltb. destruct (ival (Prim2SF x) ?= ival (Prim2SF y)); reflexivity.
Qed.

Lemma prim_eqb_ival x y sx sy :
  finite_or_zero sx x -> finite_or_zero sy y ->
  (x =? y)%float = (ival (Prim2SF x) =? ival (Prim2SF y)).
Proof.
  intros Hx Hy. rewrite eqb_spec. unfold SFeqb.
  rewrite SFcompare_ival; try apply Prim2SF_valid; try (eapply finite_or_zero_is; eassumption).
  destruct (Z.compare_spec (ival (Prim2SF x)) (ival (Prim2SF y))) as [E|E|E];
    symmetry; [apply Z.eqb_eq|apply Z.eqb_neq|apply Z.eqb_neq]; lia.
Qed.

Lemma sf_sgn_sub_range x y sx sy :
  finite_or_zero sx x -> finite_or_zero sy y ->
  -1 <= sf_sgn (Prim2SF (x - y)%float) <= 1.
Proof.
  intros Hx Hy. rewrite (prim_sub_sgn x y sx sy Hx Hy).
  destruct (ival (Prim2SF x) - ival (Prim2SF y)); simpl; lia.
Qed.

(** [x - y] is positive exactly when [y < x], and zero exactly when [x == y]. *)
Lemma prim_sub_pos x y sx sy :
  finite_or_zero sx x -> finite_or_zero sy y ->
  (0 <? x - y)%float = (y <? x)%float.
Proof.
  intros Hx Hy.
  rewrite (prim_ltb_ival y x sy sx Hy Hx).
  pose proof (prim_sub_sgn x y sx sy Hx Hy) as Hs.
  rewrite ltb_spec. change (Prim2SF 0) with (S754_zero false).
  destruct (Prim2SF (x - y)%float) as [s|s| |s m e]; cbn [sf_sgn] in Hs.
  - cbn. symmetry. apply Z.ltb_ge. destruct (ival (Prim2SF x) - ival (Prim2SF y)) eqn:E; simpl in Hs; lia.
  - destruct s; cbn; symmetry; [apply Z.ltb_ge|apply Z.ltb_lt];
      destruct (ival (Prim2SF x) - ival (Prim2SF y)) eqn:E; simpl in Hs; lia.
  - destruct (ival (Prim2SF x) - ival (Prim2SF y)); simpl in Hs; lia.
  - destruct s; cbn; symmetry; [apply Z.ltb_ge|apply Z.ltb_lt];
      destruct (ival (Prim2SF x) - ival (Prim2SF y)) eqn:E; simpl in Hs; lia.
Qed.

Lemma prim_sub_self s x : finite_or_zero s x -> (x - x)%float = 0%float.
Proof.
  intros Hx. apply Prim2SF_inj. rewrite sub_spec.
  change (Prim2SF 0) with (S754_zero false).
  destruct Hx as [H|(m & e & H)]; rewrite H.
  - destruct s; reflexivity.
  - unfold SF64sub, SFsub. rewrite Z.sub_diag. reflexivity.
Qed.

(** A float that is not NaN and whose sign bit is clear. *)
Definition sf_nonneg (x : spec_float) : Prop :=
  x = S754_zero false \/ x = S754_infinity false \/ exists m e, x = S754_finite false m e.

Lemma sf_nonneg_leb x : sf_nonneg (Prim2SF x) -> (0 <=? x)%float = true.
Proof.
  intros H. rewrite leb_spec. change (Prim2SF 0) with (S754_zero false).
  destruct H as [H|[H|(m & e & H)]]; rewrite H; reflexivity.
Qed.

Lemma sf_nonneg_abs_sub x y sx sy :
  finite_or_zero sx x -> finite_or_zero sy y ->
  sf_nonneg (Prim2SF (abs (x - y))).
Proof.
  intros Hx Hy. pose proof (sf_sgn_sub_range x y sx sy Hx Hy) as Hs.
  rewrite abs_spec. unfold sf_nonneg.
  destruct (Prim2SF (x - y)%float) as [s|s| |s m e]; cbn [sf_sgn SFabs] in *; eauto; lia.
Qed.

Lemma SFdiv_cases sx mx ex sy my ey :
  let r := SFdiv prec emax (S754_finite sx mx ex) (S754_finite sy my ey) in
  r = S754_zero (xorb sx sy) \/ r = S754_infinity (xorb sx sy) \/
  exists m e, r = S754_finite (xorb sx sy) m e.
Proof.
  intros r. unfold r. rewrite SFdiv_finite. apply round_frac_cases; [|lia].
  unfold div_num. assert (0 <= ex - ey - div_exp mx ex my ey) by (unfold div_exp; lia).
  pose proof (Z.pow_pos_nonneg 2 (ex - ey - div_exp mx ex my ey)). nia.
Qed.

Lemma sf_nonneg_div x y lo hi :
  sf_nonneg (Prim2SF x) -> finite_mag false lo hi y ->
  sf_nonneg (Prim2SF (x / y)%float).
Proof.
  intros Hx (my & ey & Hy & _). rewrite div_spec, Hy. unfold sf_nonneg.
  destruct Hx as [H|[H|(m & e & H)]]; rewrite H.
  - left. reflexivity.
  - right. left. reflexivity.
  - apply (SFdiv_cases false m e false my ey).
Qed.

Lemma SFdiv_lower sx mx ex sy my ey :
  -1074 < mag mx ex - mag my ey ->
  sf_sgn (SFdiv prec emax (S754_finite sx mx ex) (S754_finite sy my ey))
  = if xorb sx sy then -1 else 1.
Proof.
  intros Hlo. rewrite SFdiv_finite.
  pose proof (div_fine mx ex my ey) as Hf.
  pose proof (div_digits mx ex my ey) as Hd. cbv zeta in Hd.
  assert (He : div_exp mx ex my ey <= Z.max (mag mx ex - mag my ey - 53) (-1074)).
  { unfold div_exp. rewrite fexp_eq. lia. }
  assert (Hn : 0 <= div_num mx ex my ey).
  { unfold div_num. pose proof (Z.pow_pos_nonneg 2 (ex - ey - div_exp mx ex my ey)).
    assert (0 <= ex - ey - div_exp mx ex my ey) by (unfold div_exp; lia). nia. }
  unfold mag in *.
  destruct (round_frac_lower (xorb sx sy) (div_num mx ex my ey) (Zpos my) (div_exp mx ex my ey))
    as [Hz | (m & e & Hr & Hm)]; try lia; try assumption.
  - rewrite Hz. reflexivity.
  - rewrite Hr. reflexivity.
Qed.

(** [abs (x - y) / h] compares equal to zero exactly when [x == y], for a
    positive divisor that is not tiny. *)
Lemma abs_sub_div_zero x y sx sy h lo hi :
  finite_or_zero sx x -> finite_or_zero sy y ->
  finite_mag false lo hi h -> hi <= 0 ->
  (abs (x - y) / h =? 0)%float = (x =? y)%float.
Proof.
  intros Hx Hy (mh & eh & Hh & Hmh) Hhi.
  rewrite (prim_eqb_ival x y sx sy Hx Hy).
  pose proof (prim_sub_sgn x y sx sy Hx Hy) as Hs.
  pose proof (Prim2SF_valid (x - y)%float) as Hv.
  rewrite eqb_spec, div_spec, abs_spec, Hh. change (Prim2SF 0) with (S754_zero false).
  destruct (Prim2SF (x - y)%float) as [s|s| |s m e]; cbn [sf_sgn SFabs] in *.
  - cbn. symmetry. apply Z.eqb_eq.
    destruct (ival (Prim2SF x) - ival (Prim2SF y)) eqn:E; simpl in Hs; lia.
  - cbn. symmetry. apply Z.eqb_neq. intros E. rewrite E, Z.sub_diag in Hs.
    destruct s; discriminate.
  - destruct (ival (Prim2SF x) - ival (Prim2SF y)); simpl in Hs; lia.
  - pose proof (valid_mag _ _ _ Hv) as Hm.
    pose proof (SFdiv_lower false m e false mh eh ltac:(lia)) as Hd.
    change (SF64div (S754_finite false m e) (S754_finite false mh eh))
      with (SFdiv prec emax (S754_finite false m e) (S754_finite false mh eh)).
    destruct (SFdiv prec emax (S754_finite false m e) (S754_finite false mh eh)) as [s'|s'| |s' m' e'];
      cbn [sf_sgn xorb] in Hd; try discriminate.
    + destruct s'; cbn; symmetry; apply Z.eqb_neq; intros E; rewrite E, Z.sub_diag in Hs;
        destruct s; discriminate.
    + destruct s'; cbn; symmetry; apply Z.eqb_neq; intros E; rewrite E, Z.sub_diag in Hs;
        destruct s; discriminate.
Qed.

(** ** Built atoms and their energies *)

Lemma init_inv Z0 self : BohrAtom.__init__ Z0 = Return self -> 1 <= Z0 /\ self = atom Z0.
Proof.
  intros H. destruct (Z.lt_ge_cases Z0 1) as [Hlt|Hge].
  - unfold BohrAtom.__init__ in H. rewrite (proj2 (Z.ltb_lt Z0 1)) in H by assumption.
    discriminate.
  - rewrite init_atom in H by assumption. injection H as <-. split; [assumption|reflexivity].
Qed.

Lemma float_range_true z : float_range z = true -> exists f, float_of_int z = Return f.
Proof.
  unfold float_range. destruct (float_of_int z) as [f|]; [eauto|discriminate].
Qed.

Lemma float_range_false z : 0 < z -> float_range z = false -> float_of_int z = Raise OverflowError.
Proof.
  intros Hz. unfold float_range.
  destruct (float_of_int_pos z Hz) as [H|(f & H & _)]; rewrite H; [reflexivity|discriminate].
Qed.

Lemma energy_joule_low self n : n < 1 ->
  BohrAtom.energy_joule self n = Raise (ValueError BohrAtom.msg_n).
Proof.
  intros H. unfold BohrAtom.energy_joule.
  rewrite (proj2 (Z.ltb_lt n 1)) by assumption. reflexivity.
Qed.

(** For a level [n >= 1] the energy is returned when [Z ** 2] and [n ** 2]
    have a float, and is an [OverflowError] otherwise. *)
Lemma energy_joule_cases Z0 n : 1 <= Z0 -> 1 <= n ->
  (float_range (Z0 ^ 2) && float_range (n ^ 2) = true /\
   exists E, BohrAtom.energy_joule (atom Z0) n = Return E /\ finite_or_zero true E) \/
  (float_range (Z0 ^ 2) && float_range (n ^ 2) = false /\
   BohrAtom.energy_joule (atom Z0) n = Raise OverflowError).
Proof.
  intros HZ Hn. rewrite energy_joule_atom by assumption.
  destruct (float_range (Z0 ^ 2)) eqn:RZ.
  - destruct (float_range (n ^ 2)) eqn:Rn.
    + left. split; [reflexivity|].
      destruct (float_range_true _ RZ) as (fz & Hfz).
      destruct (float_range_true _ Rn) as (fn & Hfn).
      destruct (energy_expr_returns Z0 n fz fn HZ Hn Hfz Hfn) as [H1 H2].
      eexists. split; eassumption.
    + right. split; [reflexivity|]. unfold energy_expr.
      destruct (float_range_true _ RZ) as (fz & ->). cbn [bind].
      rewrite (float_range_false (n ^ 2)) by (assumption || nia). reflexivity.
  - right. split; [reflexivity|]. unfold energy_expr.
    rewrite (float_range_false (Z0 ^ 2)) by (assumption || nia). reflexivity.
Qed.

Lemma energy_joule_returned Z0 n E : 1 <= Z0 ->
  BohrAtom.energy_joule (atom Z0) n = Return E -> 1 <= n /\ finite_or_zero true E.
Proof.
  intros HZ H. destruct (Z.lt_ge_cases n 1) as [Hlt|Hge].
  - rewrite energy_joule_low in H by assumption. discriminate.
  - split; [assumption|].
    destruct (energy_joule_cases Z0 n HZ Hge) as [(_ & E' & HE & HF)|(_ & HE)];
      rewrite HE in H; [injection H as <-; assumption|discriminate].
Qed.

Lemma h_mag : finite_mag false (-110) (-110) _h.
Proof. eexists _, _. split; [vm_compute; reflexivity|]. vm_compute. split; discriminate. Qed.

Lemma e_mag : finite_mag false (-62) (-62) _e.
Proof. eexists _, _. split; [vm_compute; reflexivity|]. vm_compute. split; discriminate. Qed.

Lemma finite_or_zero_leb x : finite_or_zero true x -> (x <=? 0)%float = true.
Proof.
  intros [H|(m & e & H)]; rewrite leb_spec, H; reflexivity.
Qed.

(** The frequency and the wavelength between two levels whose energies are
    returned. *)
Lemma frequency_value Z0 n_i n_f E_i E_f :
  BohrAtom.energy_joule (atom Z0) n_i = Return E_i ->
  BohrAtom.energy_joule (atom Z0) n_f = Return E_f ->
  BohrAtom.frequency (atom Z0) n_i n_f = Return (abs (E_f - E_i) / _h)%float.
Proof.
  intros Hi Hf. unfold BohrAtom.frequency, BohrAtom.transition_energy_joule.
  rewrite Hi, Hf. cbn [bind atom BohrAtom._h]. unfold float_truediv.
  rewrite (finite_mag_nonzero _ _ _ _ h_mag). reflexivity.
Qed.

Lemma wavelength_value Z0 n_i n_f E_i E_f : 1 <= Z0 ->
  BohrAtom.energy_joule (atom Z0) n_i = Return E_i ->
  BohrAtom.energy_joule (atom Z0) n_f = Return E_f ->
  BohrAtom.wavelength (atom Z0) n_i n_f =
    if (E_f =? E_i)%float then Raise ZeroDivisionError
    else Return (_c / (abs (E_f - E_i) / _h))%float.
Proof.
  intros HZ Hi Hf. unfold BohrAtom.wavelength.
  rewrite (frequency_value Z0 n_i n_f E_i E_f Hi Hf). cbn [bind atom BohrAtom._c].
  destruct (energy_joule_returned _ _ _ HZ Hi) as [_ Fi].
  destruct (energy_joule_returned _ _ _ HZ Hf) as [_ Ff].
  unfold float_truediv, float_abs, float_sub.
  rewrite (abs_sub_div_zero E_f E_i true true _h (-110) (-110) Ff Fi h_mag ltac:(lia)).
  reflexivity.
Qed.

(** Exact value of a float as a rational number. *)
Definition F2Q (x : float) : Q :=
  match Prim2SF x with
  | S754_finite s m e => (inject_Z (cond_Zopp s (Zpos m)) * Qpower 2 e)%Q
  | _ => 0%Q
  end.

Lemma pow2_small n : 1 <= n <= 10 ^ 150 -> 0 < n ^ 2 < 2 ^ 1000.
Proof.
  intros [H1 H2]. split; [nia|].
  apply Z.le_lt_trans with ((10 ^ 150) ^ 2).
  - apply Z.pow_le_mono_l. lia.
  - reflexivity.
Qed.

Lemma float_of_int_square n : 1 <= n <= 10 ^ 150 ->
  exists f, float_of_int (n ^ 2) = Return f /\ finite_mag false 1 1001 f.
Proof.
  intros Hn. destruct (pow2_small n Hn) as [H0 H1].
  destruct (float_of_int_small (n ^ 2) H0) as (f & Hf & Hm).
  { apply Z.lt_trans with (1 := H1). reflexivity. }
  exists f. split; [assumption|].
  assert (Zdigits2 (n ^ 2) <= 1000) by (apply Zdigits2_le_lt; lia).
  pose proof (pow2_digits n ltac:(lia)).
  eapply finite_mag_weaken; [exact Hm|lia|lia].
Qed.

Lemma finite_mag_ltb_zero lo hi x : finite_mag true lo hi x -> (x <? 0)%float = true.
Proof. intros (m & e & H & _). rewrite ltb_spec, H. reflexivity. Qed.

(** Case-insensitive comparison of the unit with [j] and [ev]. *)
Lemma lower_ascii_j c : lower_ascii c = "j"%char -> c = "j"%char \/ c = "J"%char.
Proof.
  destruct c as [[] [] [] [] [] [] [] []]; vm_compute; intros H;
    try discriminate H; auto.
Qed.

Lemma lower_ascii_e c : lower_ascii c = "e"%char -> c = "e"%char \/ c = "E"%char.
Proof.
  destruct c as [[] [] [] [] [] [] [] []]; vm_compute; intros H;
    try discriminate H; auto.
Qed.

Lemma lower_ascii_v c : lower_ascii c = "v"%char -> c = "v"%char \/ c = "V"%char.
Proof.
  destruct c as [[] [] [] [] [] [] [] []]; vm_compute; intros H;
    try discriminate H; auto.
Qed.

Lemma lower_j unit :
  String.eqb (lower unit) "j" = true <-> unit = "j"%string \/ unit = "J"%string.
Proof.
  rewrite String.eqb_eq. split.
  - destruct unit as [|c [|c' u]]; cbn [lower]; intros H; try discriminate H.
    injection H as H. destruct (lower_ascii_j c H) as [-> | ->]; auto.
  - intros [-> | ->]; reflexivity.
Qed.

Lemma lower_ev unit :
  String.eqb (lower unit) "ev" = true <->
  unit = "ev"%string \/ unit = "eV"%string \/ unit = "Ev"%string \/ unit = "EV"%string.
Proof.
  rewrite String.eqb_eq. split.
  - destruct unit as [|c [|c' [|c'' u]]]; cbn [lower]; intros H; try discriminate H.
    injection H as H1 H2.
    destruct (lower_ascii_e c H1) as [-> | ->];
      destruct (lower_ascii_v c' H2) as [-> | ->]; auto.
  - intros [-> | [-> | [-> | ->]]]; reflexivity.
Qed.

Lemma radius_low self n : n < 1 ->
  BohrAtom.radius self n = Raise (ValueError BohrAtom.msg_n).
Proof.
  intros H. unfold BohrAtom.radius.
  rewrite (proj2 (Z.ltb_lt n 1)) by assumption. reflexivity.
Qed.

Lemma float_of_int_nonzero z f : 0 < z -> float_of_int z = Return f -> (f =? 0)%float = false.
Proof.
  intros Hz H. destruct (float_of_int_pos z Hz) as [Hr|(f' & Hr & Hm)];
    rewrite H in Hr; [discriminate|injection Hr as <-].
  eapply finite_mag_nonzero. exact Hm.
Qed.

(** Subtraction is antisymmetric up to the sign. *)
Lemma SFabs_binary_round s s' m e :
  SFabs (binary_round prec emax s m e) = SFabs (binary_round prec emax s' m e).
Proof.
  unfold binary_round. destruct (shl_align m e _) as [mz ez].
  unfold binary_round_aux.
  destruct (shr_fexp prec emax (Z.pos mz) ez loc_Exact) as [mrs e1].
  destruct (shr_fexp prec emax _ e1 loc_Exact) as [mrs' e2].
  destruct (shr_m mrs'); try reflexivity.
  destruct (e2 <=? emax - prec); reflexivity.
Qed.

Lemma SFabs_binary_normalize_opp D e :
  SFabs (binary_normalize prec emax (- D) e false) = SFabs (binary_normalize prec emax D e false).
Proof.
  destruct D; cbn [Z.opp binary_normalize]; try reflexivity; apply SFabs_binary_round.
Qed.

Lemma SFabs_sub_comm x y : SFabs (SF64sub x y) = SFabs (SF64sub y x).
Proof.
  destruct x as [sx|sx| |sx mx ex], y as [sy|sy| |sy my ey];
    try (destruct sx, sy; reflexivity); try (destruct sx; reflexivity);
    try (destruct sy; reflexivity); try reflexivity.
  unfold SF64sub, SFsub. rewrite (Z.min_comm ey ex).
  rewrite <- SFabs_binary_normalize_opp. f_equal. f_equal. lia.
Qed.

Lemma prim_abs_sub_comm x y : abs (x - y) = abs (y - x).
Proof.
  apply Prim2SF_inj. rewrite !abs_spec, !sub_spec. apply SFabs_sub_comm.
Qed.

(** The signed transition energy of a built atom. *)
Lemma transition_energy_joule_cases Z0 n_i n_f : 1 <= Z0 -> 1 <= n_i -> 1 <= n_f ->
  (float_range (Z0 ^ 2) && float_range (n_i ^ 2) && float_range (n_f ^ 2) = true /\
   exists E_i E_f,
     BohrAtom.energy_joule (atom Z0) n_i = Return E_i /\ finite_or_zero true E_i /\
     BohrAtom.energy_joule (atom Z0) n_f = Return E_f /\ finite_or_zero true E_f /\
     BohrAtom.transition_energy_joule (atom Z0) n_i n_f = Return (E_f - E_i)%float) \/
  (float_range (Z0 ^ 2) && float_range (n_i ^ 2) && float_range (n_f ^ 2) = false /\
   BohrAtom.transition_energy_joule (atom Z0) n_i n_f = Raise OverflowError).
Proof.
  intros HZ Hi Hf. unfold BohrAtom.transition_energy_joule.
  destruct (energy_joule_cases Z0 n_i HZ Hi) as [(Ri & E_i & HEi & HFi)|(Ri & HEi)];
  destruct (energy_joule_cases Z0 n_f HZ Hf) as [(Rf & E_f & HEf & HFf)|(Rf & HEf)];
    rewrite HEi; cbn [bind]; try rewrite HEf; cbn [bind].
  - left. apply andb_true_iff in Ri, Rf. destruct Ri as [-> ->]. destruct Rf as [_ ->].
    split; [reflexivity|]. exists E_i, E_f. repeat split; assumption.
  - right. split; [|reflexivity]. apply andb_true_iff in Ri. destruct Ri as [RZ ->].
    rewrite RZ in *. cbn [andb] in *. assumption.
  - right. split; [|reflexivity].
    destruct (float_range (Z0 ^ 2)); cbn [andb] in *; [rewrite Ri; reflexivity|reflexivity].
  - right. split; [|reflexivity].
    destruct (float_range (Z0 ^ 2)); cbn [andb] in *; [rewrite Ri; reflexivity|reflexivity].
Qed.

Lemma float_range_swap a b c : a && b && c = a && c && b.
Proof. destruct a, b, c; reflexivity. Qed.

(** ** Rounding to nearest is monotone *)

Lemma rne_error a b : 0 < b ->
  let N := rne a b in
  - b <= 2 * (N * b - a) <= b
  /\ (2 * (N * b - a) = b -> Z.even N = true)
  /\ (2 * (N * b - a) = - b -> Z.even N = true).
Proof.
  intros Hb. cbv zeta. unfold rne.
  pose proof (Z.div_mod a b ltac:(lia)) as Hab.
  pose proof (Z.mod_pos_bound a b Hb) as Hr.
  set (q := a / b) in *. set (r := a mod b) in *.
  destruct (Z.compare_spec (2 * r) b) as [E|E|E].
  - destruct (Z.even q) eqn:Ev.
    + repeat split; intros; try assumption; nia.
    + repeat split; intros; try nia; rewrite Z.even_add, Ev; reflexivity.
  - repeat split; intros; nia.
  - repeat split; intros; nia.
Qed.

Lemma rne_mono a1 b1 a2 b2 : 0 < b1 -> 0 < b2 ->
  a1 * b2 <= a2 * b1 -> rne a1 b1 <= rne a2 b2.
Proof.
  intros Hb1 Hb2 Hle.
  destruct (rne_error a1 b1 Hb1) as (H1 & E1u & E1d).
  destruct (rne_error a2 b2 Hb2) as (H2 & E2u & E2d).
  cbv zeta in *.
  set (N1 := rne a1 b1) in *. set (N2 := rne a2 b2) in *.
  destruct (Z.le_gt_cases N1 N2) as [|Hgt]; [assumption|exfalso].
  (* N1 >= N2 + 1 *)
  assert (Hk : 2 * N1 * b1 * b2 >= 2 * N2 * b1 * b2 + 2 * b1 * b2) by nia.
  assert (Hu : 2 * N1 * b1 * b2 <= 2 * a1 * b2 + b1 * b2) by nia.
  assert (Hd : 2 * N2 * b1 * b2 >= 2 * a2 * b1 - b1 * b2) by nia.
  assert (Heq1 : 2 * (N1 * b1 - a1) = b1) by nia.
  assert (Heq2 : 2 * (N2 * b2 - a2) = - b2) by nia.
  assert (HN : N1 = N2 + 1) by nia.
  apply E1u in Heq1. apply E2d in Heq2.
  rewrite HN, Z.even_add, Heq2 in Heq1. discriminate.
Qed.

Lemma SFleb_finite_pos m1 e1 m2 e2 :
  e1 < e2 \/ (e1 = e2 /\ (m1 <= m2)%positive) ->
  SFleb (S754_finite false m1 e1) (S754_finite false m2 e2) = true.
Proof.
  intros H. unfold SFleb, SFcompare.
  destruct (Z.compare_spec e1 e2) as [E|E|E]; try reflexivity; try lia.
  destruct H as [H|[_ H]]; [lia|].
  change (Pos.compare_cont Eq m1 m2) with (m1 ?= m2)%positive.
  destruct (Pos.compare_spec m1 m2); try reflexivity. lia.
Qed.

Lemma build_le N1 E1 N2 E2 :
  0 <= N1 <= 2 ^ 53 -> 0 <= N2 <= 2 ^ 53 ->
  (E1 = E2 /\ N1 <= N2) \/ (E1 < E2 /\ 2 ^ 52 <= N2) ->
  SFleb (build false N1 E1) (build false N2 E2) = true.
Proof.
  intros H1 H2 H. unfold build.
  assert (P52 : Z.to_pos (2 ^ 52) = 4503599627370496%positive) by reflexivity.
  assert (V52 : 2 ^ 52 = 4503599627370496) by reflexivity.
  assert (V53 : 2 ^ 53 = 9007199254740992) by reflexivity.
  rewrite V52, V53 in *.
  destruct (Z.eqb_spec N1 0) as [Z1|Z1].
  - destruct (Z.eqb_spec N2 0); [reflexivity|].
    destruct (Z.ltb_spec N2 9007199254740992);
      [destruct (Z.leb_spec E2 971)|destruct (Z.leb_spec (E2 + 1) 971)]; reflexivity.
  - destruct (Z.eqb_spec N2 0) as [Z2|Z2]; [lia|].
    destruct (Z.ltb_spec N1 9007199254740992) as [L1|L1];
    destruct (Z.ltb_spec N2 9007199254740992) as [L2|L2].
    + destruct (Z.leb_spec E1 971); destruct (Z.leb_spec E2 971); try reflexivity; try lia.
      apply SFleb_finite_pos. destruct H as [[-> H]|[H _]]; [right|left; assumption].
      split; [reflexivity|]. lia.
    + destruct (Z.leb_spec E1 971); destruct (Z.leb_spec (E2 + 1) 971); try reflexivity; try lia.
      apply SFleb_finite_pos. left. lia.
    + destruct (Z.leb_spec (E1 + 1) 971); destruct (Z.leb_spec E2 971); try reflexivity; try lia.
      apply SFleb_finite_pos. destruct H as [[-> H]|[H H']]; [lia|].
      destruct (Z.eq_dec (E1 + 1) E2) as [<-|]; [right|left; lia].
      split; [reflexivity|]. rewrite P52.
      lia.
    + destruct (Z.leb_spec (E1 + 1) 971); destruct (Z.leb_spec (E2 + 1) 971); try reflexivity; try lia.
      apply SFleb_finite_pos. destruct H as [[-> H]|[H _]]; [right|left; lia].
      split; [reflexivity|]. lia.
Qed.

(** [a1 / b1 * 2 ^ e1 <= a2 / b2 * 2 ^ e2], stated over the integers. *)
Definition vle (a1 b1 e1 a2 b2 e2 : Z) : Prop :=
  a1 * b2 * 2 ^ (e1 - Z.min e1 e2) <= a2 * b1 * 2 ^ (e2 - Z.min e1 e2).

Lemma vle_mag a1 b1 e1 a2 b2 e2 :
  0 <= a1 -> 0 < b1 -> 0 <= a2 -> 0 < b2 ->
  vle a1 b1 e1 a2 b2 e2 -> 1 <= a1 / b1 ->
  Zdigits2 (a1 / b1) + e1 <= Zdigits2 (a2 / b2) + e2.
Proof.
  intros Ha1 Hb1 Ha2 Hb2 Hle Hq1. unfold vle in Hle.
  set (c := Z.min e1 e2) in *.
  set (x1 := e1 - c) in *. set (x2 := e2 - c) in *.
  assert (Hx1 : 0 <= x1) by (unfold x1, c; lia).
  assert (Hx2 : 0 <= x2) by (unfold x2, c; lia).
  pose proof (Zdigits2_bounds (a1 / b1) ltac:(lia)) as [Hlo _].
  assert (Hq2 : 0 <= a2 / b2) by (apply Z.div_pos; lia).
  assert (Hhi : a2 / b2 + 1 <= 2 ^ Zdigits2 (a2 / b2)).
  { destruct (Z.eq_dec (a2 / b2) 0) as [->|Hn]; [simpl; lia|].
    pose proof (Zdigits2_bounds (a2 / b2) ltac:(lia)). lia. }
  set (d1 := Zdigits2 (a1 / b1)) in *. set (d2 := Zdigits2 (a2 / b2)) in *.
  assert (Hd1 : 1 <= d1).
  { unfold d1. destruct (a1 / b1); simpl; lia. }
  assert (Hd2 : 0 <= d2) by apply Zdigits2_nonneg.
  pose proof (Z.div_mod a1 b1 ltac:(lia)) as E1.
  pose proof (Z.mod_pos_bound a1 b1 Hb1) as R1.
  pose proof (Z.div_mod a2 b2 ltac:(lia)) as E2.
  pose proof (Z.mod_pos_bound a2 b2 Hb2) as R2.
  assert (L1 : 2 ^ (d1 - 1) * b1 <= a1) by nia.
  assert (L2 : a2 < 2 ^ d2 * b2) by nia.
  assert (P1 : 0 < 2 ^ x1) by (apply Z.pow_pos_nonneg; lia).
  assert (P2 : 0 < 2 ^ x2) by (apply Z.pow_pos_nonneg; lia).
  assert (Hchain : 2 ^ (d1 - 1) * 2 ^ x1 * (b1 * b2) < 2 ^ d2 * 2 ^ x2 * (b1 * b2)).
  { apply Z.le_lt_trans with (a1 * b2 * 2 ^ x1); [nia|].
    apply Z.le_lt_trans with (a2 * b1 * 2 ^ x2); [assumption|]. nia. }
  assert (Hpow : 2 ^ (d1 - 1 + x1) < 2 ^ (d2 + x2)).
  { rewrite !Z.pow_add_r by lia. nia. }
  apply Z.pow_lt_mono_r_iff in Hpow; [|lia|lia].
  unfold x1, x2 in Hpow. lia.
Qed.

Lemma vle_scale a1 b1 e1 a2 b2 e2 E :
  0 <= a1 -> 0 < b1 -> 0 <= a2 -> 0 < b2 ->
  vle a1 b1 e1 a2 b2 e2 -> e1 <= E -> e2 <= E ->
  a1 * (b2 * 2 ^ (E - e2)) <= a2 * (b1 * 2 ^ (E - e1)).
Proof.
  intros Ha1 Hb1 Ha2 Hb2 Hle H1 H2. unfold vle in Hle.
  destruct (Z.le_gt_cases e1 e2) as [Hc|Hc].
  - rewrite Z.min_l in Hle by lia. rewrite Z.sub_diag, Z.pow_0_r in Hle.
    replace (E - e1) with ((e2 - e1) + (E - e2)) by lia.
    rewrite Z.pow_add_r by lia.
    assert (0 < 2 ^ (E - e2)) by (apply Z.pow_pos_nonneg; lia). nia.
  - rewrite Z.min_r in Hle by lia. rewrite Z.sub_diag, Z.pow_0_r in Hle.
    replace (E - e2) with ((e1 - e2) + (E - e1)) by lia.
    rewrite Z.pow_add_r by lia.
    assert (0 < 2 ^ (E - e1)) by (apply Z.pow_pos_nonneg; lia). nia.
Qed.

(** Rounding preserves the order of the rounded values. *)
Lemma round_frac_mono a1 b1 e1 a2 b2 e2 :
  0 <= a1 -> 0 < b1 -> fine a1 b1 e1 ->
  0 <= a2 -> 0 < b2 -> fine a2 b2 e2 ->
  vle a1 b1 e1 a2 b2 e2 ->
  SFleb (round_frac false a1 b1 e1) (round_frac false a2 b2 e2) = true.
Proof.
  intros Ha1 Hb1 Hf1 Ha2 Hb2 Hf2 Hle.
  rewrite !round_frac_build by assumption.
  destruct (rmant_range a1 b1 e1 Ha1 Hb1 Hf1) as [[Hlo1 Hhi1] Hq1].
  destruct (rmant_range a2 b2 e2 Ha2 Hb2 Hf2) as [[Hlo2 Hhi2] Hq2].
  assert (HE1 : rexp a1 b1 e1 = Z.max (Zdigits2 (a1 / b1) + e1 - 53) (-1074)) by reflexivity.
  assert (HE2 : rexp a2 b2 e2 = Z.max (Zdigits2 (a2 / b2) + e2 - 53) (-1074)) by reflexivity.
  unfold fine in Hf1, Hf2. fold (rexp a1 b1 e1) in Hf1. fold (rexp a2 b2 e2) in Hf2.
  assert (Q1 : 0 <= a1 / b1) by (apply Z.div_pos; lia).
  assert (Q2 : 0 <= a2 / b2) by (apply Z.div_pos; lia).
  assert (Q1' : 0 <= a1 / b1 / 2 ^ (rexp a1 b1 e1 - e1)).
  { apply Z.div_pos; [lia|apply Z.pow_pos_nonneg; lia]. }
  assert (Q2' : 0 <= a2 / b2 / 2 ^ (rexp a2 b2 e2 - e2)).
  { apply Z.div_pos; [lia|apply Z.pow_pos_nonneg; lia]. }
  assert (HEle : rexp a1 b1 e1 <= rexp a2 b2 e2).
  { destruct (Z.eq_dec (a1 / b1) 0) as [Hz|Hnz].
    - rewrite Hz in HE1. simpl Zdigits2 in HE1. lia.
    - pose proof (vle_mag a1 b1 e1 a2 b2 e2 Ha1 Hb1 Ha2 Hb2 Hle ltac:(lia)). lia. }
  apply build_le; [lia|lia|].
  destruct (Z.eq_dec (rexp a1 b1 e1) (rexp a2 b2 e2)) as [Heq|Hne].
  - left. split; [assumption|]. unfold rmant. apply rne_mono.
    + apply Z.mul_pos_pos; [lia|apply Z.pow_pos_nonneg; lia].
    + apply Z.mul_pos_pos; [lia|apply Z.pow_pos_nonneg; lia].
    + rewrite Heq. apply vle_scale; try assumption; lia.
  - right. split; [lia|].
    assert (Hd : Zdigits2 (a2 / b2 / 2 ^ (rexp a2 b2 e2 - e2)) = 53).
    { rewrite Zdigits2_shiftr by lia. lia. }
    assert (Hpos : 0 < a2 / b2 / 2 ^ (rexp a2 b2 e2 - e2)).
    { destruct (Z.eq_dec (a2 / b2 / 2 ^ (rexp a2 b2 e2 - e2)) 0) as [Hz|]; [|lia].
      rewrite Hz in Hd. discriminate. }
    pose proof (Zdigits2_bounds _ Hpos) as [Hb _]. rewrite Hd in Hb.
    change (2 ^ (53 - 1)) with (2 ^ 52) in Hb. lia.
Qed.

Lemma pow_shift_le m1 m2 x1 x2 y1 y2 :
  0 <= x1 -> 0 <= x2 -> 0 <= y1 -> 0 <= y2 -> x1 - x2 = y1 - y2 ->
  m1 * 2 ^ y1 <= m2 * 2 ^ y2 -> m1 * 2 ^ x1 <= m2 * 2 ^ x2.
Proof.
  intros Hx1 Hx2 Hy1 Hy2 Hd H.
  destruct (Z.le_gt_cases y1 x1) as [Hc|Hc].
  - replace x1 with (y1 + (x1 - y1)) by lia. replace x2 with (y2 + (x1 - y1)) by lia.
    rewrite !Z.pow_add_r by lia.
    assert (0 < 2 ^ (x1 - y1)) by (apply Z.pow_pos_nonneg; lia). nia.
  - replace y1 with (x1 + (y1 - x1)) in H by lia.
    replace y2 with (x2 + (y1 - x1)) in H by lia.
    rewrite !Z.pow_add_r in H by lia.
    assert (0 < 2 ^ (y1 - x1)) by (apply Z.pow_pos_nonneg; lia). nia.
Qed.

Lemma SFabs_round_frac s a b e : 0 <= a -> 0 < b ->
  SFabs (round_frac s a b e) = round_frac false a b e.
Proof.
  intros Ha Hb. unfold round_frac.
  destruct (_ / _) as [|q|q]; try reflexivity.
  destruct (_ <=? _); reflexivity.
Qed.

Lemma SFleb_ival x y :
  valid_binary x = true -> valid_binary y = true ->
  is_finite_or_zero x = true -> is_finite_or_zero y = true ->
  SFleb x y = (ival x <=? ival y).
Proof.
  intros Vx Vy Fx Fy. unfold SFleb. rewrite SFcompare_ival by assumption.
  unfold Z.leb. destruct (ival x ?= ival y); reflexivity.
Qed.

(** Conversion of integers is monotone. *)
Lemma binary_normalize_mono z1 z2 : 0 < z1 <= z2 ->
  SFleb (binary_normalize prec emax z1 0 false) (binary_normalize prec emax z2 0 false) = true.
Proof.
  intros [H1 H2]. destruct z1 as [|p1|p1]; try lia. destruct z2 as [|p2|p2]; try lia.
  unfold binary_normalize.
  destruct (binary_round_frac false p1 0) as (Hr1 & Hf1 & _).
  destruct (binary_round_frac false p2 0) as (Hr2 & Hf2 & _). cbv zeta in *.
  set (k1 := Z.max 0 (0 - fexp prec emax (Zdigits2 (Z.pos p1) + 0))) in *.
  set (k2 := Z.max 0 (0 - fexp prec emax (Zdigits2 (Z.pos p2) + 0))) in *.
  assert (Hk1 : 0 <= k1) by (unfold k1; lia).
  assert (Hk2 : 0 <= k2) by (unfold k2; lia).
  assert (P1 : 0 < 2 ^ k1) by (apply Z.pow_pos_nonneg; lia).
  assert (P2 : 0 < 2 ^ k2) by (apply Z.pow_pos_nonneg; lia).
  rewrite Hr1, Hr2. apply round_frac_mono; try assumption; try nia; try lia.
  unfold vle. rewrite !Z.mul_1_r.
  rewrite <- !Z.mul_assoc, <- !Z.pow_add_r by lia.
  replace (k1 + (0 - k1 - Z.min (0 - k1) (0 - k2))) with (Z.max k1 k2) by lia.
  replace (k2 + (0 - k2 - Z.min (0 - k1) (0 - k2))) with (Z.max k1 k2) by lia.
  assert (0 < 2 ^ Z.max k1 k2) by (apply Z.pow_pos_nonneg; lia). nia.
Qed.

Lemma Return_inj {A : Type} (a b : A) : Return a = Return b -> a = b.
Proof. intros H. injection H as H. exact H. Qed.

Lemma float_of_int_Prim2SF z f : 0 < z -> float_of_int z = Return f ->
  Prim2SF f = binary_normalize prec emax z 0 false.
Proof.
  intros Hz H. destruct (binary_normalize_pos z Hz) as [V _].
  unfold float_of_int in H.
  destruct (binary_normalize prec emax z 0 false) as [s|s| |s m e];
    try discriminate; apply Return_inj in H; rewrite <- H;
    apply Prim2SF_SF2Prim; assumption.
Qed.

Lemma float_of_int_mono z1 z2 f1 f2 : 0 < z1 <= z2 ->
  float_of_int z1 = Return f1 -> float_of_int z2 = Return f2 ->
  (f1 <=? f2)%float = true.
Proof.
  intros Hz H1 H2. rewrite leb_spec.
  rewrite (float_of_int_Prim2SF z1 f1), (float_of_int_Prim2SF z2 f2) by (assumption || lia).
  apply binary_normalize_mono. assumption.
Qed.

(** Multiplication by a positive float is monotone on positive floats. *)
Lemma prim_mul_mono c x y mc ec mx ex my ey :
  Prim2SF c = S754_finite false mc ec ->
  Prim2SF x = S754_finite false mx ex ->
  Prim2SF y = S754_finite false my ey ->
  (x <=? y)%float = true -> (c * x <=? c * y)%float = true.
Proof.
  intros Hc Hx Hy Hle.
  pose proof (prim_valid_finite _ _ _ _ Hc) as Vc.
  pose proof (prim_valid_finite _ _ _ _ Hx) as Vx.
  pose proof (prim_valid_finite _ _ _ _ Hy) as Vy.
  rewrite leb_spec, Hx, Hy, SFleb_ival in Hle by (assumption || reflexivity).
  apply Z.leb_le in Hle. cbn [ival cond_Zopp] in Hle.
  rewrite leb_spec, !mul_spec, Hc, Hx, Hy.
  unfold SF64mul. rewrite !SFmul_finite. cbn [xorb].
  pose proof (valid_finite _ _ _ Vc) as (_ & Hec & _).
  pose proof (valid_finite _ _ _ Vx) as (_ & Hex & _).
  pose proof (valid_finite _ _ _ Vy) as (_ & Hey & _).
  apply round_frac_mono; try lia; try (eapply mul_fine; eassumption).
  unfold vle. rewrite !Z.mul_1_r.
  set (c0 := Z.min (ec + ex) (ec + ey)).
  rewrite <- !Z.mul_assoc. apply Z.mul_le_mono_nonneg_l; [lia|].
  apply (pow_shift_le _ _ _ _ (ex + 1074) (ey + 1074)); unfold c0; try lia.
Qed.

(** Division of a float by a positive float decreases in magnitude as the
    divisor grows. *)
Lemma prim_div_anti a x y sa ma ea mx ex my ey :
  Prim2SF a = S754_finite sa ma ea ->
  Prim2SF x = S754_finite false mx ex ->
  Prim2SF y = S754_finite false my ey ->
  (x <=? y)%float = true -> (abs (a / y) <=? abs (a / x))%float = true.
Proof.
  intros Ha Hx Hy Hle.
  pose proof (prim_valid_finite _ _ _ _ Hx) as Vx.
  pose proof (prim_valid_finite _ _ _ _ Hy) as Vy.
  rewrite leb_spec, Hx, Hy, SFleb_ival in Hle by (assumption || reflexivity).
  apply Z.leb_le in Hle. cbn [ival cond_Zopp] in Hle.
  rewrite leb_spec, !abs_spec, !div_spec, Ha, Hx, Hy.
  unfold SF64div. rewrite !SFdiv_finite.
  assert (Hs : forall m e, 0 <= ea - e - div_exp ma ea m e) by (intros; unfold div_exp; lia).
  assert (Hn : forall m e, 0 <= div_num ma ea m e).
  { intros m e. unfold div_num. pose proof (Z.pow_pos_nonneg 2 _ ltac:(lia) (Hs m e)). nia. }
  rewrite !SFabs_round_frac by (try apply Hn; lia).
  pose proof (valid_finite _ _ _ Vx) as (_ & Hex & _).
  pose proof (valid_finite _ _ _ Vy) as (_ & Hey & _).
  apply round_frac_mono; try apply Hn; try apply div_fine; try lia.
  unfold vle, div_num.
  set (ey' := div_exp ma ea my ey). set (ex' := div_exp ma ea mx ex).
  pose proof (Hs my ey) as Hsy. pose proof (Hs mx ex) as Hsx. fold ey' in Hsy. fold ex' in Hsx.
  set (c0 := Z.min ey' ex').
  replace (Z.pos ma * 2 ^ (ea - ey - ey') * Z.pos mx * 2 ^ (ey' - c0))
    with (Z.pos ma * (Z.pos mx * (2 ^ (ea - ey - ey') * 2 ^ (ey' - c0)))) by ring.
  replace (Z.pos ma * 2 ^ (ea - ex - ex') * Z.pos my * 2 ^ (ex' - c0))
    with (Z.pos ma * (Z.pos my * (2 ^ (ea - ex - ex') * 2 ^ (ex' - c0)))) by ring.
  rewrite <- !Z.pow_add_r by (unfold c0; lia).
  apply Z.mul_le_mono_nonneg_l; [lia|].
  apply (pow_shift_le _ _ _ _ (ex + 1074) (ey + 1074)); unfold c0; try lia.
Qed.

(** Division by a positive float is monotone in the magnitude of the
    dividend. *)
Lemma prim_div_mono x y d sx sy md ed :
  finite_or_zero sx x -> finite_or_zero sy y ->
  Prim2SF d = S754_finite false md ed ->
  (abs x <=? abs y)%float = true -> (abs (x / d) <=? abs (y / d))%float = true.
Proof.
  intros Hx Hy Hd Hle.
  rewrite leb_spec, !abs_spec in Hle. rewrite leb_spec, !abs_spec, !div_spec, Hd.
  assert (Hs : forall m e, 0 <= e - ed - div_exp m e md ed) by (intros; unfold div_exp; lia).
  assert (Hn : forall m e, 0 <= div_num m e md ed).
  { intros m e. unfold div_num. pose proof (Z.pow_pos_nonneg 2 _ ltac:(lia) (Hs m e)). nia. }
  destruct Hx as [Hx|(mx & ex & Hx)]; rewrite Hx in *.
  - cbn [SF64div SFdiv SFabs].
    destruct Hy as [Hy|(my & ey & Hy)]; rewrite Hy in *; [reflexivity|].
    unfold SF64div. rewrite SFdiv_finite, SFabs_round_frac by (try apply Hn; lia).
    destruct (round_frac_cases false (div_num my ey md ed) (Zpos md) (div_exp my ey md ed))
      as [H|[H|(m & e & H)]]; try apply Hn; try lia; rewrite H; reflexivity.
  - destruct Hy as [Hy|(my & ey & Hy)]; rewrite Hy in *; [discriminate Hle|].
    pose proof (prim_valid_finite _ _ _ _ Hx) as Vx.
    pose proof (prim_valid_finite _ _ _ _ Hy) as Vy.
    cbn [SFabs] in Hle.
    assert (Vx' : valid_binary (S754_finite false mx ex) = true) by exact Vx.
    assert (Vy' : valid_binary (S754_finite false my ey) = true) by exact Vy.
    rewrite SFleb_ival in Hle by (assumption || reflexivity).
    apply Z.leb_le in Hle. cbn [ival cond_Zopp] in Hle.
    unfold SF64div. rewrite !SFdiv_finite, !SFabs_round_frac by (try apply Hn; lia).
    pose proof (valid_finite _ _ _ Vx) as (_ & Hex & _).
    pose proof (valid_finite _ _ _ Vy) as (_ & Hey & _).
    apply round_frac_mono; try apply Hn; try apply div_fine; try lia.
    unfold vle, div_num.
    set (ex' := div_exp mx ex md ed). set (ey' := div_exp my ey md ed).
    pose proof (Hs mx ex) as Hsx. pose proof (Hs my ey) as Hsy. fold ex' in Hsx. fold ey' in Hsy.
    set (c0 := Z.min ex' ey').
    replace (Z.pos mx * 2 ^ (ex - ed - ex') * Z.pos md * 2 ^ (ex' - c0))
      with (Z.pos md * (Z.pos mx * (2 ^ (ex - ed - ex') * 2 ^ (ex' - c0)))) by ring.
    replace (Z.pos my * 2 ^ (ey - ed - ey') * Z.pos md * 2 ^ (ey' - c0))
      with (Z.pos md * (Z.pos my * (2 ^ (ey - ed - ey') * 2 ^ (ey' - c0)))) by ring.
    rewrite <- !Z.pow_add_r by (unfold c0; lia).
    apply Z.mul_le_mono_nonneg_l; [lia|].
    apply (pow_shift_le _ _ _ _ (ex + 1074) (ey + 1074)); unfold c0; try lia.
Qed.

(** For floats that are not positive, the order of the magnitudes is the
    reverse of the order of the values. *)
Lemma abs_leb_nonpos x y :
  finite_or_zero true x -> finite_or_zero true y ->
  (abs y <=? abs x)%float = (x <=? y)%float.
Proof.
  intros Hx Hy. rewrite !leb_spec, !abs_spec.
  pose proof (Prim2SF_valid x) as Vx. pose proof (Prim2SF_valid y) as Vy.
  destruct Hx as [Hx|(mx & ex & Hx)]; destruct Hy as [Hy|(my & ey & Hy)];
    rewrite Hx, Hy in *; try reflexivity.
  cbn [SFabs].
  assert (Vx' : valid_binary (S754_finite false mx ex) = true) by exact Vx.
  assert (Vy' : valid_binary (S754_finite false my ey) = true) by exact Vy.
  rewrite !SFleb_ival by (assumption || reflexivity).
  cbn [ival cond_Zopp].
  destruct (Z.leb_spec (Zpos my * 2 ^ (ey + 1074)) (Zpos mx * 2 ^ (ex + 1074)));
    symmetry; [apply Z.leb_le|apply Z.leb_gt]; lia.
Qed.

(** The energy of a built atom, when it is returned. *)
Lemma energy_joule_inv Z0 n E : 1 <= Z0 ->
  BohrAtom.energy_joule (atom Z0) n = Return E ->
  1 <= n /\ exists fz fn,
    float_of_int (Z0 ^ 2) = Return fz /\ float_of_int (n ^ 2) = Return fn
    /\ finite_mag false 1 1024 fz /\ finite_mag false 1 1024 fn
    /\ E = (- (E_num * fz) / (E_den * fn))%float.
Proof.
  intros HZ H. destruct (energy_joule_returned Z0 n E HZ H) as [Hn _].
  split; [assumption|].
  rewrite energy_joule_atom in H by assumption. unfold energy_expr in H.
  destruct (float_of_int_pos (Z0 ^ 2) ltac:(nia)) as [Hr|(fz & Hfz & Hmz)];
    [rewrite Hr in H; discriminate|]. rewrite Hfz in H. cbn [bind] in H.
  destruct (float_of_int_pos (n ^ 2) ltac:(nia)) as [Hr|(fn & Hfn & Hmn)];
    [rewrite Hr in H; discriminate|]. rewrite Hfn in H. cbn [bind] in H.
  pose proof (pow2_digits Z0 HZ). pose proof (pow2_digits n Hn).
  apply finite_mag_weaken with (lo' := 1) (hi' := 1024) in Hmz; [|lia|lia].
  apply finite_mag_weaken with (lo' := 1) (hi' := 1024) in Hmn; [|lia|lia].
  exists fz, fn. repeat split; try assumption.
  pose proof (energy_den_mag fn 1 1024 ltac:(lia) ltac:(lia) Hmn) as HB.
  unfold float_truediv in H. rewrite (finite_mag_nonzero _ _ _ _ HB) in H.
  apply Return_inj in H. symmetry. exact H.
Qed.

Lemma energy_abs_mono Z0 n m E_n E_m : 1 <= Z0 -> n <= m ->
  BohrAtom.energy_joule (atom Z0) n = Return E_n ->
  BohrAtom.energy_joule (atom Z0) m = Return E_m ->
  (abs E_m <=? abs E_n)%float = true.
Proof.
  intros HZ Hnm Hn Hm.
  destruct (energy_joule_inv Z0 n E_n HZ Hn) as (Hn1 & fz & fn & Hfz & Hfn & Hmz & Hmn & ->).
  destruct (energy_joule_inv Z0 m E_m HZ Hm) as (Hm1 & fz' & fm & Hfz' & Hfm & _ & Hmm & ->).
  rewrite Hfz in Hfz'. apply Return_inj in Hfz'. subst fz'.
  pose proof (float_of_int_mono (n ^ 2) (m ^ 2) fn fm ltac:(nia) Hfn Hfm) as Hle.
  destruct E_den_mag as (md & ed & Hd & _).
  pose proof Hmn as (mn & en & Hpn & _). pose proof Hmm as (mm & em & Hpm & _).
  pose proof (prim_mul_mono E_den fn fm _ _ _ _ _ _ Hd Hpn Hpm Hle) as Hden.
  destruct (energy_num_mag fz 1 ltac:(lia) Hmz) as (ma & ea & Ha & _).
  destruct (energy_den_mag fn 1 1024 ltac:(lia) ltac:(lia) Hmn) as (mx & ex & Hx & _).
  destruct (energy_den_mag fm 1 1024 ltac:(lia) ltac:(lia) Hmm) as (my & ey & Hy & _).
  unfold float_neg, float_mul in *.
  exact (prim_div_anti _ _ _ _ _ _ _ _ _ _ Ha Hx Hy Hden).
Qed.

(** ** Relative error of one rounding *)

Local Open Scope Q_scope.

(** Magnitude of a finite float as a rational number. *)
Definition pv (x : spec_float) : Q :=
  match x with
  | S754_finite _ m e => inject_Z (Zpos m) * 2 ^ e
  | _ => 0
  end.

(** The rational [a / b * 2 ^ e]. *)
Definition vQ (a b e : Z) : Q := inject_Z a / inject_Z b * 2 ^ e.

Lemma Q2_pos e : 0 < 2 ^ e.
Proof. apply Qpower_0_lt. reflexivity. Qed.

Lemma Q2_add x y : 2 ^ (x + y) == 2 ^ x * 2 ^ y.
Proof. apply Qpower_plus. discriminate. Qed.

Lemma Q2_Z n : (0 <= n)%Z -> inject_Z (2 ^ n) == 2 ^ n.
Proof. intros H. apply Zpower_Qpower. assumption. Qed.

Lemma inject_Z_pos z : (0 < z)%Z -> 0 < inject_Z z.
Proof. intros H. change 0 with (inject_Z 0). rewrite <- Zlt_Qlt. assumption. Qed.

Lemma inject_Z_nonneg z : (0 <= z)%Z -> 0 <= inject_Z z.
Proof. intros H. change 0 with (inject_Z 0). rewrite <- Zle_Qle. assumption. Qed.

Lemma vQ_nonneg a b e : (0 <= a)%Z -> (0 < b)%Z -> 0 <= vQ a b e.
Proof.
  intros Ha Hb. unfold vQ.
  pose proof (inject_Z_nonneg a Ha). pose proof (inject_Z_pos b Hb). pose proof (Q2_pos e).
  apply Qmult_le_0_compat; [|lra].
  apply Qle_shift_div_l; lra.
Qed.

(** In the normal range, rounding [a / b * 2 ^ e] moves it by at most
    [2 ^ -53] of its value. *)
Lemma round_frac_err s a b e :
  (0 <= a)%Z -> (0 < b)%Z -> fine a b e ->
  (-1021 <= Zdigits2 (a / b) + e <= 1023)%Z ->
  exists m e', round_frac s a b e = S754_finite s m e'
    /\ Qabs (inject_Z (Zpos m) * 2 ^ e' - vQ a b e) <= (1 # 2 ^ 53) * vQ a b e.
Proof.
  intros Ha Hb Hf Hg.
  rewrite round_frac_build by assumption.
  destruct (rmant_range a b e Ha Hb Hf) as [[Hlo Hhi] Hq].
  assert (HE : rexp a b e = (Zdigits2 (a / b) + e - 53)%Z).
  { unfold rexp. rewrite fexp_eq. lia. }
  unfold fine in Hf. fold (rexp a b e) in Hf.
  assert (HB : (0 < b * 2 ^ (rexp a b e - e))%Z).
  { apply Z.mul_pos_pos; [lia|apply Z.pow_pos_nonneg; lia]. }
  destruct (rne_error a (b * 2 ^ (rexp a b e - e)) HB) as (Herr & _). cbv zeta in Herr.
  fold (rmant a b e) in Herr.
  assert (Hq0 : (0 <= a / b)%Z) by (apply Z.div_pos; lia).
  assert (Hd : Zdigits2 (a / b / 2 ^ (rexp a b e - e)) = 53%Z).
  { rewrite Zdigits2_shiftr by lia. lia. }
  assert (Hq52 : (2 ^ 52 <= a / b / 2 ^ (rexp a b e - e))%Z).
  { assert (Hpos : (0 < a / b / 2 ^ (rexp a b e - e))%Z).
    { destruct (Z.eq_dec (a / b / 2 ^ (rexp a b e - e)) 0) as [Hz|].
      - rewrite Hz in Hd. discriminate.
      - assert (0 <= a / b / 2 ^ (rexp a b e - e))%Z by (apply Z.div_pos; [lia|apply Z.pow_pos_nonneg; lia]).
        lia. }
    pose proof (Zdigits2_bounds _ Hpos) as [Hb' _]. rewrite Hd in Hb'. exact Hb'. }
  rewrite Z.div_div in Hq52 by (try apply Z.pow_pos_nonneg; lia).
  assert (Ha52 : (2 ^ 52 * (b * 2 ^ (rexp a b e - e)) <= a)%Z).
  { pose proof (Z.div_mod a (b * 2 ^ (rexp a b e - e)) ltac:(lia)).
    pose proof (Z.mod_pos_bound a (b * 2 ^ (rexp a b e - e)) HB). nia. }
  set (N := rmant a b e) in *. set (E := rexp a b e) in *.
  set (B := (b * 2 ^ (E - e))%Z) in *.
  assert (Hint : (2 ^ 53 * Z.abs (N * B - a) <= a)%Z).
  { change (2 ^ 53)%Z with (2 ^ 52 * 2)%Z. lia. }
  (* the value of the result *)
  assert (Hval : exists m e', build s N E = S754_finite s m e'
                   /\ inject_Z (Zpos m) * 2 ^ e' == inject_Z N * 2 ^ E).
  { unfold build. rewrite Z.div_div in Hlo, Hhi, Hq by (try apply Z.pow_pos_nonneg; lia).
    fold B in Hlo, Hhi, Hq.
    destruct (Z.eqb_spec N 0); [lia|].
    destruct (Z.ltb_spec N (2 ^ 53)) as [HN|HN].
    - destruct (Z.leb_spec E 971); [|lia].
      exists (Z.to_pos N), E. split; [reflexivity|]. rewrite Z2Pos.id by lia. reflexivity.
    - destruct (Z.leb_spec (E + 1) 971); [|lia].
      exists (Z.to_pos (2 ^ 52)), (E + 1)%Z. split; [reflexivity|].
      assert (HN' : N = (2 ^ 53)%Z) by lia. rewrite HN'.
      rewrite Q2_add. change (2 ^ 1) with 2.
      change (inject_Z (Z.pos (Z.to_pos (2 ^ 52)))) with (inject_Z (2 ^ 52)).
      change (inject_Z (2 ^ 53)) with (inject_Z (2 ^ 52) * 2). ring. }
  destruct Hval as (m & e' & Hb' & Hv). exists m, e'. split; [assumption|].
  rewrite Hv.
  assert (HQ2 : 2 ^ E == 2 ^ e * inject_Z (2 ^ (E - e))).
  { rewrite Q2_Z by lia. rewrite <- Q2_add. replace (e + (E - e))%Z with E by lia. reflexivity. }
  pose proof (inject_Z_pos b Hb) as Hbq. pose proof (Q2_pos e) as Hte.
  assert (Hrew : inject_Z N * 2 ^ E - vQ a b e
                 == inject_Z (N * B - a) * (2 ^ e / inject_Z b)).
  { unfold vQ, B. rewrite HQ2. unfold Zminus.
    rewrite inject_Z_plus, inject_Z_opp, !inject_Z_mult. field. lra. }
  assert (Hfac : 0 <= 2 ^ e / inject_Z b) by (apply Qle_shift_div_l; lra).
  rewrite Hrew, Qabs_Qmult, (Qabs_pos (2 ^ e / inject_Z b)) by assumption.
  assert (Hv2 : (1 # 2 ^ 53) * vQ a b e == (1 # 2 ^ 53) * inject_Z a * (2 ^ e / inject_Z b)).
  { unfold vQ. field. lra. }
  rewrite Hv2. apply Qmult_le_compat_r; [|assumption].
  assert (Habs : Qabs (inject_Z (N * B - a)) == inject_Z (Z.abs (N * B - a))) by reflexivity.
  rewrite Habs.
  rewrite Zle_Qle, inject_Z_mult in Hint.
  change (inject_Z (2 ^ 53)) with (9007199254740992 # 1) in Hint.
  change (1 # 2 ^ 53) with (1 # 9007199254740992). lra.
Qed.

Definition u53 : Q := 1 # 2 ^ 53.

Lemma pv_pos s m e : 0 < pv (S754_finite s m e).
Proof.
  cbn [pv]. apply Qmult_lt_0_compat; [apply inject_Z_pos; lia|apply Q2_pos].
Qed.

Lemma SFmul_err sx mx ex sy my ey :
  valid_binary (S754_finite sx mx ex) = true ->
  valid_binary (S754_finite sy my ey) = true ->
  (-1021 <= mag mx ex + mag my ey - 1)%Z -> (mag mx ex + mag my ey <= 1023)%Z ->
  exists m e, SFmul prec emax (S754_finite sx mx ex) (S754_finite sy my ey)
              = S754_finite (xorb sx sy) m e
    /\ Qabs (pv (S754_finite (xorb sx sy) m e)
             - pv (S754_finite sx mx ex) * pv (S754_finite sy my ey))
       <= u53 * (pv (S754_finite sx mx ex) * pv (S754_finite sy my ey)).
Proof.
  intros Vx Vy Hlo Hhi. rewrite SFmul_finite.
  pose proof (mul_fine _ _ _ _ _ _ Vx Vy) as Hf.
  pose proof (Zdigits2_mul (Zpos mx) (Zpos my) ltac:(lia) ltac:(lia)) as Hd.
  unfold mag in *.
  destruct (round_frac_err (xorb sx sy) (Zpos mx * Zpos my) 1 (ex + ey)) as (m & e & Hr & He);
    try lia; try assumption.
  { rewrite Z.div_1_r. lia. }
  exists m, e. split; [assumption|].
  assert (Hv : vQ (Zpos mx * Zpos my) 1 (ex + ey)
               == pv (S754_finite sx mx ex) * pv (S754_finite sy my ey)).
  { unfold vQ. cbn [pv]. rewrite inject_Z_mult, Q2_add. field. }
  rewrite Hv in He. exact He.
Qed.

Lemma SFdiv_err sx mx ex sy my ey :
  (-1021 <= mag mx ex - mag my ey)%Z -> (mag mx ex - mag my ey + 1 <= 1023)%Z ->
  exists m e, SFdiv prec emax (S754_finite sx mx ex) (S754_finite sy my ey)
              = S754_finite (xorb sx sy) m e
    /\ Qabs (pv (S754_finite (xorb sx sy) m e)
             - pv (S754_finite sx mx ex) / pv (S754_finite sy my ey))
       <= u53 * (pv (S754_finite sx mx ex) / pv (S754_finite sy my ey)).
Proof.
  intros Hlo Hhi. rewrite SFdiv_finite.
  pose proof (div_fine mx ex my ey) as Hf.
  pose proof (div_digits mx ex my ey) as Hd. cbv zeta in Hd.
  assert (He : (div_exp mx ex my ey <= Z.max (mag mx ex - mag my ey - 53) (-1074))%Z).
  { unfold div_exp. rewrite fexp_eq. lia. }
  assert (Hs : (0 <= ex - ey - div_exp mx ex my ey)%Z) by (unfold div_exp; lia).
  assert (Hn : (0 <= div_num mx ex my ey)%Z).
  { unfold div_num. pose proof (Z.pow_pos_nonneg 2 _ ltac:(lia) Hs). nia. }
  unfold mag in *.
  destruct (round_frac_err (xorb sx sy) (div_num mx ex my ey) (Zpos my) (div_exp mx ex my ey))
    as (m & e & Hr & Herr); try lia; try assumption.
  exists m, e. split; [assumption|].
  assert (Hv : vQ (div_num mx ex my ey) (Zpos my) (div_exp mx ex my ey)
               == pv (S754_finite sx mx ex) / pv (S754_finite sy my ey)).
  { unfold vQ, div_num. cbn [pv]. rewrite inject_Z_mult, Q2_Z by assumption.
    assert (Hex : 2 ^ ex == 2 ^ (ex - ey - div_exp mx ex my ey) * 2 ^ div_exp mx ex my ey * 2 ^ ey).
    { replace ex with (ex - ey - div_exp mx ex my ey + div_exp mx ex my ey + ey)%Z at 1 by lia.
      rewrite !Q2_add. reflexivity. }
    rewrite Hex.
    pose proof (Q2_pos ey). pose proof (inject_Z_pos (Zpos my) ltac:(lia)).
    field. split; lra. }
  rewrite Hv in Herr. exact Herr.
Qed.

Definition pvf (x : float) : Q := pv (Prim2SF x).

Lemma pvf_pos s lo hi x : finite_mag s lo hi x -> 0 < pvf x.
Proof. intros (m & e & H & _). unfold pvf. rewrite H. apply pv_pos. Qed.

Lemma Qabs_two_sided r v : 0 <= v ->
  Qabs (r - v) <= u53 * v -> v * (1 - u53) <= r /\ r <= v * (1 + u53).
Proof.
  intros Hv H. apply Qabs_Qle_condition in H. destruct H as [H1 H2]. split; lra.
Qed.

Lemma prim_mul_err sx lx hx sy ly hy x y :
  finite_mag sx lx hx x -> finite_mag sy ly hy y ->
  (-1021 <= lx + ly - 1)%Z -> (hx + hy <= 1023)%Z ->
  finite_mag (xorb sx sy) (lx + ly - 1) (hx + hy + 1) (x * y)%float
  /\ pvf x * pvf y * (1 - u53) <= pvf (x * y)%float
  /\ pvf (x * y)%float <= pvf x * pvf y * (1 + u53).
Proof.
  intros Hx Hy Hlo Hhi.
  split; [apply prim_mul_mag; (assumption || lia)|].
  destruct Hx as (mx & ex & Hx & Hmx). destruct Hy as (my & ey & Hy & Hmy).
  pose proof (prim_valid_finite _ _ _ _ Hx) as Vx.
  pose proof (prim_valid_finite _ _ _ _ Hy) as Vy.
  destruct (SFmul_err sx mx ex sy my ey Vx Vy) as (m & e & Hr & He); try lia.
  unfold pvf. rewrite mul_spec, Hx, Hy.
  change (SF64mul (S754_finite sx mx ex) (S754_finite sy my ey))
    with (SFmul prec emax (S754_finite sx mx ex) (S754_finite sy my ey)).
  rewrite Hr. apply Qabs_two_sided; [|exact He].
  pose proof (pv_pos sx mx ex). pose proof (pv_pos sy my ey).
  apply Qmult_le_0_compat; lra.
Qed.

Lemma prim_div_err sx lx hx sy ly hy x y :
  finite_mag sx lx hx x -> finite_mag sy ly hy y ->
  (-1021 <= lx - hy)%Z -> (hx - ly + 1 <= 1023)%Z ->
  finite_mag (xorb sx sy) (lx - hy) (hx - ly + 2) (x / y)%float
  /\ pvf x / pvf y * (1 - u53) <= pvf (x / y)%float
  /\ pvf (x / y)%float <= pvf x / pvf y * (1 + u53).
Proof.
  intros Hx Hy Hlo Hhi.
  split; [apply prim_div_mag; (assumption || lia)|].
  destruct Hx as (mx & ex & Hx & Hmx). destruct Hy as (my & ey & Hy & Hmy).
  destruct (SFdiv_err sx mx ex sy my ey) as (m & e & Hr & He); try lia.
  unfold pvf. rewrite div_spec, Hx, Hy.
  change (SF64div (S754_finite sx mx ex) (S754_finite sy my ey))
    with (SFdiv prec emax (S754_finite sx mx ex) (S754_finite sy my ey)).
  rewrite Hr. apply Qabs_two_sided; [|exact He].
  pose proof (pv_pos sx mx ex). pose proof (pv_pos sy my ey).
  apply Qle_shift_div_l; lra.
Qed.

Lemma float_of_int_err z f : (0 < z < 2 ^ 1023)%Z -> float_of_int z = Return f ->
  inject_Z z * (1 - u53) <= pvf f /\ pvf f <= inject_Z z * (1 + u53).
Proof.
  intros [Hz Hlt] Hf. unfold pvf.
  rewrite (float_of_int_Prim2SF z f Hz Hf).
  destruct z as [|p|p]; try lia. unfold binary_normalize.
  destruct (binary_round_frac false p 0) as (Hr & Hfine & Hd). cbv zeta in *.
  set (k := Z.max 0 (0 - fexp prec emax (Zdigits2 (Z.pos p) + 0))) in *.
  assert (Hk : (0 <= k)%Z) by (unfold k; lia).
  assert (Hn : (0 <= Zpos p * 2 ^ k)%Z) by (pose proof (Z.pow_pos_nonneg 2 k); nia).
  assert (Hdz : (1 <= Zdigits2 (Zpos p) <= 1023)%Z).
  { split; [cbn [Zdigits2]; lia|]. apply Zdigits2_le_lt; lia. }
  destruct (round_frac_err false (Zpos p * 2 ^ k) 1 (0 - k)) as (m & e & Hm & He);
    try assumption; try lia.
  { rewrite Hd. unfold mag. lia. }
  rewrite Hr, Hm.
  assert (Hv : vQ (Zpos p * 2 ^ k) 1 (0 - k) == inject_Z (Zpos p)).
  { unfold vQ. rewrite inject_Z_mult, Q2_Z by assumption.
    assert (H1 : 2 ^ k * 2 ^ (0 - k) == 1).
    { rewrite <- Q2_add. replace (k + (0 - k))%Z with 0%Z by lia. reflexivity. }
    transitivity (inject_Z (Z.pos p) * (2 ^ k * 2 ^ (0 - k))); [field|].
    rewrite H1. ring. }
  rewrite Hv in He. apply Qabs_two_sided; [|exact He].
  apply inject_Z_nonneg. lia.
Qed.

Lemma pv_ival m e : (-1074 <= e)%Z ->
  pv (S754_finite false m e) == inject_Z (ival (S754_finite false m e)) * 2 ^ (-1074).
Proof.
  intros He. cbn [pv ival cond_Zopp]. rewrite inject_Z_mult, Q2_Z by lia.
  rewrite <- Qmult_assoc, <- Q2_add. replace (e + 1074 + -1074)%Z with e by lia. reflexivity.
Qed.

Lemma prim_ltb_pvf x y lx hx ly hy :
  finite_mag false lx hx x -> finite_mag false ly hy y ->
  pvf x < pvf y -> (x <? y)%float = true.
Proof.
  intros Hx Hy Hlt.
  rewrite (prim_ltb_ival x y false false)
    by (eapply finite_mag_finite_or_zero; eassumption).
  destruct Hx as (mx & ex & Hx & _). destruct Hy as (my & ey & Hy & _).
  pose proof (valid_finite _ _ _ (prim_valid_finite _ _ _ _ Hx)) as (_ & Hex & _).
  pose proof (valid_finite _ _ _ (prim_valid_finite _ _ _ _ Hy)) as (_ & Hey & _).
  unfold pvf in Hlt. rewrite Hx, Hy in *.
  rewrite !pv_ival in Hlt by lia.
  apply Z.ltb_lt. rewrite Zlt_Qlt.
  pose proof (Q2_pos (-1074)). nra.
Qed.

(** A relative gap between two values survives one rounding of each, less
    four units of rounding error. *)
Lemma gap_step (v1 v2 r1 r2 g u : Q) :
  0 < v1 -> 0 <= u -> u <= 1 # 8 -> 0 <= g -> g <= 1 ->
  r1 <= v1 * (1 + u) -> v2 * (1 - u) <= r2 -> v1 * (1 + g) <= v2 ->
  r1 * (1 + g - 4 * u) <= r2.
Proof.
  intros Hv Hu Hu' Hg Hg' H1 H2 H3.
  assert (A : 0 <= u * (1 - g)) by nra.
  assert (B : (1 + u) * (1 + g - 4 * u) <= (1 + g) * (1 - u)) by nra.
  assert (C : r1 * (1 + g - 4 * u) <= v1 * (1 + u) * (1 + g - 4 * u)) by nra.
  assert (D : v1 * ((1 + u) * (1 + g - 4 * u)) <= v1 * ((1 + g) * (1 - u))) by nra.
  assert (E : v1 * (1 + g) * (1 - u) <= v2 * (1 - u)) by nra.
  lra.
Qed.

Lemma pvf_abs x : pvf (abs x) == pvf x.
Proof. unfold pvf. rewrite abs_spec. destruct (Prim2SF x); reflexivity. Qed.

Lemma finite_mag_abs s lo hi x : finite_mag s lo hi x -> finite_mag false lo hi (abs x).
Proof.
  intros (m & e & H & Hm). exists m, e. split; [|assumption].
  rewrite abs_spec, H. reflexivity.
Qed.

Lemma pow2_tiny n : (1 <= n <= 10 ^ 12)%Z -> (0 < n ^ 2 < 2 ^ 80)%Z.
Proof.
  intros [H1 H2]. split; [nia|].
  apply Z.le_lt_trans with ((10 ^ 12) ^ 2)%Z.
  - apply Z.pow_le_mono_l. lia.
  - reflexivity.
Qed.

Lemma float_of_int_square_tiny n : (1 <= n <= 10 ^ 12)%Z ->
  exists f, float_of_int (n ^ 2) = Return f /\ finite_mag false 1 81 f.
Proof.
  intros Hn. destruct (pow2_tiny n Hn) as [H0 H1].
  destruct (float_of_int_small (n ^ 2) H0) as (f & Hf & Hm).
  { apply Z.lt_trans with (1 := H1). reflexivity. }
  exists f. split; [assumption|].
  assert (Zdigits2 (n ^ 2) <= 80)%Z by (apply Zdigits2_le_lt; lia).
  pose proof (pow2_digits n ltac:(lia)).
  eapply finite_mag_weaken; [exact Hm|lia|lia].
Qed.

(** Below level [10 ** 12] the magnitudes of the energies are strictly
    decreasing. *)
Lemma energy_abs_strict Z0 n m :
  (1 <= Z0 <= 10 ^ 150)%Z -> (1 <= n)%Z -> (n < m)%Z -> (m <= 10 ^ 12)%Z ->
  exists E_n E_m,
    BohrAtom.energy_joule (atom Z0) n = Return E_n
    /\ BohrAtom.energy_joule (atom Z0) m = Return E_m
    /\ (E_n <? 0)%float = true /\ (E_m <? 0)%float = true
    /\ (abs E_m <? abs E_n)%float = true.
Proof.
  intros HZ Hn Hnm Hm.
  destruct (float_of_int_square Z0 HZ) as (fz & Hfz & Hmz).
  destruct (float_of_int_square_tiny n ltac:(lia)) as (fn & Hfn & Hmn).
  destruct (float_of_int_square_tiny m ltac:(lia)) as (fm & Hfm & Hmm).
  rewrite !energy_joule_atom by lia. unfold energy_expr.
  rewrite Hfz, Hfn, Hfm. cbn [bind].
  apply finite_mag_weaken with (lo' := 1%Z) (hi' := 1024%Z) in Hmz; [|lia|lia].
  pose proof (energy_num_mag fz 1 ltac:(lia) Hmz) as HA.
  pose proof (prim_mul_err _ _ _ _ _ _ _ _ E_den_mag Hmn ltac:(lia) ltac:(lia)) as (HBn & Bn1 & Bn2).
  pose proof (prim_mul_err _ _ _ _ _ _ _ _ E_den_mag Hmm ltac:(lia) ltac:(lia)) as (HBm & Bm1 & Bm2).
  unfold float_truediv, float_mul, float_neg in *.
  rewrite (finite_mag_nonzero _ _ _ _ HBn), (finite_mag_nonzero _ _ _ _ HBm).
  pose proof (prim_div_err _ _ _ _ _ _ _ _ HA HBn ltac:(lia) ltac:(lia)) as (HEn & En1 & En2).
  pose proof (prim_div_err _ _ _ _ _ _ _ _ HA HBm ltac:(lia) ltac:(lia)) as (HEm & Em1 & Em2).
  cbn [xorb] in *.
  eexists _, _. split; [reflexivity|]. split; [reflexivity|].
  split; [eapply finite_mag_ltb_zero; exact HEn|].
  split; [eapply finite_mag_ltb_zero; exact HEm|].
  apply (prim_ltb_pvf _ _ _ _ _ _ (finite_mag_abs _ _ _ _ HEm) (finite_mag_abs _ _ _ _ HEn)).
  rewrite !pvf_abs.
  destruct (float_of_int_err (n ^ 2) fn) as [Fn1 Fn2]; [|assumption|].
  { destruct (pow2_tiny n ltac:(lia)). split; [lia|]. apply Z.lt_trans with (2 ^ 80)%Z; [lia|reflexivity]. }
  destruct (float_of_int_err (m ^ 2) fm) as [Fm1 Fm2]; [|assumption|].
  { destruct (pow2_tiny m ltac:(lia)). split; [lia|]. apply Z.lt_trans with (2 ^ 80)%Z; [lia|reflexivity]. }
  pose proof (pvf_pos _ _ _ _ HA) as Pa.
  pose proof (pvf_pos _ _ _ _ E_den_mag) as Pk.
  pose proof (pvf_pos _ _ _ _ Hmn) as Pxn. pose proof (pvf_pos _ _ _ _ Hmm) as Pxm.
  pose proof (pvf_pos _ _ _ _ HBn) as Pbn. pose proof (pvf_pos _ _ _ _ HBm) as Pbm.
  pose proof (pvf_pos _ _ _ _ HEn) as Pen. pose proof (pvf_pos _ _ _ _ HEm) as Pem.
  set (a := pvf (- (E_num * fz))%float) in *. set (k := pvf E_den) in *.
  set (xn := pvf fn) in *. set (xm := pvf fm) in *.
  set (bn := pvf (E_den * fn)%float) in *. set (bm := pvf (E_den * fm)%float) in *.
  set (en := pvf (- (E_num * fz) / (E_den * fn))%float) in *.
  set (em := pvf (- (E_num * fz) / (E_den * fm))%float) in *.
  set (g0 := 1 # 10 ^ 12).
  assert (Hu : 0 <= u53 /\ u53 <= 1 # 8 /\ 16 * u53 <= g0) by (unfold u53, g0; repeat split; discriminate).
  assert (Hg0 : g0 <= 1) by (unfold g0; discriminate).
  (* the squares are apart by one part in [10 ** 12] *)
  assert (G0 : inject_Z (n ^ 2) * (1 + g0) <= inject_Z (m ^ 2)).
  { assert (Hz : (n ^ 2 * (10 ^ 12 + 1) <= m ^ 2 * 10 ^ 12)%Z) by nia.
    rewrite Zle_Qle, !inject_Z_mult in Hz.
    unfold g0. change (inject_Z (10 ^ 12 + 1)) with (1000000000001 # 1) in Hz.
    change (inject_Z (10 ^ 12)) with (1000000000000 # 1) in Hz.
    change (1 # 10 ^ 12) with (1 # 1000000000000). lra. }
  assert (Pn2 : 0 < inject_Z (n ^ 2)) by (apply inject_Z_pos; nia).
  assert (G1 : xn * (1 + g0 - 4 * u53) <= xm).
  { apply (gap_step (inject_Z (n ^ 2)) (inject_Z (m ^ 2))); lra. }
  assert (G1' : k * xn * (1 + (g0 - 4 * u53)) <= k * xm) by nra.
  assert (G2 : bn * (1 + (g0 - 4 * u53) - 4 * u53) <= bm).
  { apply (gap_step (k * xn) (k * xm)); try lra. nra. }
  assert (Hdn : a / bn * bn == a) by (field; lra).
  assert (Hdm : a / bm * bm == a) by (field; lra).
  assert (Pdn : 0 < a / bn) by (apply Qlt_shift_div_l; lra).
  assert (Pdm : 0 < a / bm) by (apply Qlt_shift_div_l; lra).
  assert (G2' : a / bm * (1 + (g0 - 8 * u53)) <= a / bn).
  { assert (X : a / bm * (1 + (g0 - 8 * u53)) * bn <= a / bm * bm) by nra.
    rewrite Hdm in X. rewrite <- Hdn in X at 2.
    apply Qmult_le_r with bn; [lra|]. lra. }
  assert (G3 : em * (1 + (g0 - 8 * u53) - 4 * u53) <= en).
  { apply (gap_step (a / bm) (a / bn)); lra. }
  assert (Pg : 0 < g0) by reflexivity.
  assert (Pgap : 0 < em * (g0 - 12 * u53)) by (apply Qmult_lt_0_compat; lra).
  lra.
Qed.

(** ** The round trip between frequency and wavelength *)

Lemma c_mag : finite_mag false 29 29 _c.
Proof. eexists _, _. split; [vm_compute; reflexivity|]. vm_compute. split; discriminate. Qed.

Lemma round_trip nu mu :
  finite_mag false mu mu nu -> (-963 <= mu)%Z ->
  Qabs (pvf (nu * (_c / nu))%float - pvf _c) <= 3 * u53 * pvf _c.
Proof.
  intros Hnu Hmu.
  assert (Hhi : (mu <= 1024)%Z).
  { destruct Hnu as (m & e & H & Hm).
    pose proof (valid_mag _ _ _ (prim_valid_finite _ _ _ _ H)). lia. }
  pose proof (prim_div_err _ _ _ _ _ _ _ _ c_mag Hnu ltac:(lia) ltac:(lia)) as (Hw & W1 & W2).
  pose proof (prim_mul_err _ _ _ _ _ _ _ _ Hnu Hw ltac:(lia) ltac:(lia)) as (_ & P1 & P2).
  pose proof (pvf_pos _ _ _ _ c_mag) as Pc.
  pose proof (pvf_pos _ _ _ _ Hnu) as Pn.
  pose proof (pvf_pos _ _ _ _ Hw) as Pw.
  set (c := pvf _c) in *. set (x := pvf nu) in *.
  set (w := pvf (_c / nu)%float) in *. set (p := pvf (nu * (_c / nu))%float) in *.
  assert (Hu : 0 <= u53 /\ u53 <= 1 # 8) by (unfold u53; split; discriminate).
  assert (Hd : x * (c / x) == c) by (field; lra).
  assert (Pd : 0 < c / x) by (apply Qlt_shift_div_l; lra).
  assert (X1 : c * (1 - u53) <= x * w).
  { rewrite <- Hd at 1. nra. }
  assert (X2 : x * w <= c * (1 + u53)).
  { rewrite <- Hd at 1. nra. }
  assert (Pxw : 0 < x * w) by (apply Qmult_lt_0_compat; lra).
  assert (Y1 : c * (1 - u53) * (1 - u53) <= p) by nra.
  assert (Y2 : p <= c * (1 + u53) * (1 + u53)) by nra.
  assert (U2 : u53 * u53 <= u53) by nra.
  assert (CU : 0 <= c * u53) by nra.
  assert (CU2 : c * (u53 * u53) <= c * u53) by nra.
  apply Qabs_Qle_condition. split; nra.
Qed.

Lemma SFdiv_mag_lower sx mx ex sy my ey :
  (-1074 < mag mx ex - mag my ey)%Z ->
  SFdiv prec emax (S754_finite sx mx ex) (S754_finite sy my ey) = S754_infinity (xorb sx sy) \/
  exists m e, SFdiv prec emax (S754_finite sx mx ex) (S754_finite sy my ey)
              = S754_finite (xorb sx sy) m e
    /\ (mag mx ex - mag my ey <= mag m e)%Z.
Proof.
  intros Hlo. rewrite SFdiv_finite.
  pose proof (div_fine mx ex my ey) as Hf.
  pose proof (div_digits mx ex my ey) as Hd. cbv zeta in Hd.
  assert (He : (div_exp mx ex my ey <= Z.max (mag mx ex - mag my ey - 53) (-1074))%Z).
  { unfold div_exp. rewrite fexp_eq. lia. }
  assert (Hs : (0 <= ex - ey - div_exp mx ex my ey)%Z) by (unfold div_exp; lia).
  assert (Hn : (0 <= div_num mx ex my ey)%Z).
  { unfold div_num. pose proof (Z.pow_pos_nonneg 2 _ ltac:(lia) Hs). nia. }
  unfold mag in *.
  destruct (round_frac_lower (xorb sx sy) (div_num mx ex my ey) (Zpos my) (div_exp mx ex my ey))
    as [Hz | (m & e & Hr & Hm)]; try lia; try assumption.
  - left. assumption.
  - right. exists m, e. split; [assumption|]. unfold mag in Hm. lia.
Qed.

(** A frequency that is a positive finite float is not tiny. *)
Lemma frequency_mag x y sx sy nu :
  finite_or_zero sx x -> finite_or_zero sy y ->
  nu = (abs (x - y) / _h)%float ->
  (0 <? nu)%float = true -> (nu <? infinity)%float = true ->
  exists mu, finite_mag false mu mu nu /\ (-963 <= mu)%Z.
Proof.
  intros Hx Hy -> Hpos Hfin.
  pose proof (sf_sgn_sub_range x y sx sy Hx Hy) as Hs.
  pose proof (Prim2SF_valid (x - y)%float) as Hv.
  destruct h_mag as (mh & eh & Hh & Hmh).
  rewrite ltb_spec, div_spec, abs_spec, Hh in Hpos, Hfin.
  unfold finite_mag. rewrite div_spec, abs_spec, Hh.
  change (Prim2SF 0) with (S754_zero false) in Hpos.
  change (Prim2SF infinity) with (S754_infinity false) in Hfin.
  destruct (Prim2SF (x - y)%float) as [s|s| |s m e]; cbn [SFabs sf_sgn] in *;
    try discriminate; try lia.
  pose proof (valid_mag _ _ _ Hv) as Hm.
  change (SF64div (S754_finite false m e) (S754_finite false mh eh))
    with (SFdiv prec emax (S754_finite false m e) (S754_finite false mh eh)) in *.
  destruct (SFdiv_mag_lower false m e false mh eh ltac:(lia)) as [Hi|(m' & e' & Hr & Hg)].
  - rewrite Hi in Hfin. discriminate.
  - rewrite Hr. exists (mag m' e'). split; [|lia].
    exists m', e'. split; [reflexivity|lia].
Qed.

Local Close Scope Q_scope.

Lemma F2Q_pvf x lo hi : finite_mag false lo hi x -> F2Q x = pvf x.
Proof. intros (m & e & H & _). unfold F2Q, pvf. rewrite H. reflexivity. Qed.

Lemma finite_or_zero_div_nonpos E lo hi d :
  finite_or_zero true E -> finite_mag false lo hi d -> (E / d <=? 0)%float = true.
Proof.
  intros HE (md & ed & Hd & _). rewrite leb_spec, div_spec, Hd.
  change (Prim2SF 0) with (S754_zero false).
  destruct HE as [H|(m & e & H)]; rewrite H; [reflexivity|].
  destruct (SFdiv_cases true m e false md ed) as [Hr|[Hr|(m' & e' & Hr)]];
    cbv zeta in Hr; unfold SF64div; rewrite Hr; reflexivity.
Qed.

Lemma energy_eV_inv Z0 n V :
  BohrAtom.energy (atom Z0) n "eV" = Return V ->
  exists E, BohrAtom.energy_joule (atom Z0) n = Return E /\ V = (E / _e)%float.
Proof.
  unfold BohrAtom.energy. intros H.
  destruct (BohrAtom.energy_joule (atom Z0) n) as [E|]; [|discriminate].
  cbn [bind] in H. exists E. split; [reflexivity|].
  change (String.eqb (lower "eV") "j") with false in H.
  change (String.eqb (lower "eV") "ev") with true in H.
  cbn [atom BohrAtom._e] in H. unfold float_truediv in H.
  rewrite (finite_mag_nonzero _ _ _ _ e_mag) in H.
  apply Return_inj in H. symmetry. exact H.
Qed.

Lemma frequency_inv Z0 n_i n_f nu :
  BohrAtom.frequency (atom Z0) n_i n_f = Return nu ->
  exists E_i E_f,
    BohrAtom.energy_joule (atom Z0) n_i = Return E_i
    /\ BohrAtom.energy_joule (atom Z0) n_f = Return E_f
    /\ nu = (abs (E_f - E_i) / _h)%float.
Proof.
  intros H. unfold BohrAtom.frequency, BohrAtom.transition_energy_joule in H.
  destruct (BohrAtom.energy_joule (atom Z0) n_i) as [E_i|] eqn:Hi; [|discriminate].
  destruct (BohrAtom.energy_joule (atom Z0) n_f) as [E_f|] eqn:Hf; [|discriminate].
  exists E_i, E_f. split; [reflexivity|]. split; [reflexivity|].
  cbn [bind atom BohrAtom._h] in H. unfold float_truediv, float_abs, float_sub in H.
  rewrite (finite_mag_nonzero _ _ _ _ h_mag) in H.
  apply Return_inj in H. symmetry. exact H.
Qed.

Lemma abs_ltb_neq x y lx hx ly hy :
  finite_mag true lx hx x -> finite_mag true ly hy y ->
  (abs x <? abs y)%float = true -> (x =? y)%float = false.
Proof.
  intros (mx & ex & Hx & _) (my & ey & Hy & _).
  rewrite ltb_spec, eqb_spec, !abs_spec, Hx, Hy. cbn [SFabs].
  unfold SFltb, SFeqb, SFcompare.
  destruct (ex ?= ey)%Z; try reflexivity; try discriminate.
  destruct (Pos.compare_cont Eq mx my); try reflexivity; discriminate.
Qed.

Lemma nonneg_nonzero_pos x :
  sf_nonneg (Prim2SF x) -> (x =? 0)%float = false -> (0 <? x)%float = true.
Proof.
  intros H. rewrite eqb_spec, ltb_spec. change (Prim2SF 0) with (S754_zero false).
  destruct H as [H|[H|(m & e & H)]]; rewrite H; try reflexivity. discriminate.
Qed.

(** ** Orbit radii *)

Lemma a0_mag : finite_mag false (-34) (-34) a0_value.
Proof. eexists _, _. split; [vm_compute; reflexivity|]. vm_compute. split; discriminate. Qed.

Lemma radius_atom Z0 n : 1 <= Z0 -> 1 <= n ->
  BohrAtom.radius (atom Z0) n =
    (fn <- float_of_int (n ^ 2) ;;
     fz <- float_of_int Z0 ;;
     Return (a0_value * fn / fz)%float).
Proof.
  intros HZ Hn. unfold BohrAtom.radius.
  rewrite (proj2 (Z.ltb_ge n 1)) by assumption.
  unfold float_mul_int, float_truediv_int. cbn [atom BohrAtom.a0 BohrAtom.Z].
  destruct (float_of_int (n ^ 2)) as [fn|]; cbn [bind]; [|reflexivity].
  destruct (float_of_int Z0) as [fz|] eqn:Hfz; cbn [bind]; [|reflexivity].
  unfold float_truediv. rewrite (float_of_int_nonzero Z0 fz ltac:(lia) Hfz). reflexivity.
Qed.

Lemma float_of_int_inv z f : 0 < z -> float_of_int z = Return f ->
  finite_mag false (Zdigits2 z) 1024 f.
Proof.
  intros Hz Hf. destruct (float_of_int_pos z Hz) as [Hr|(f' & Hr & Hm)];
    rewrite Hf in Hr; [discriminate|]. apply Return_inj in Hr. subst f'. exact Hm.
Qed.

Lemma Zdigits2_ge_1 z : 0 < z -> 1 <= Zdigits2 z.
Proof. intros H. destruct z; try lia. cbn [Zdigits2]. lia. Qed.

Lemma radius_inv Z0 n r : 1 <= Z0 ->
  BohrAtom.radius (atom Z0) n = Return r ->
  1 <= n /\ exists fn fz,
    float_of_int (n ^ 2) = Return fn /\ float_of_int Z0 = Return fz
    /\ finite_mag false 1 1024 fn /\ finite_mag false 1 1024 fz
    /\ r = (a0_value * fn / fz)%float.
Proof.
  intros HZ H.
  destruct (Z.lt_ge_cases n 1) as [Hlt|Hn];
    [rewrite radius_low in H by assumption; discriminate|].
  split; [assumption|]. rewrite radius_atom in H by assumption.
  destruct (float_of_int (n ^ 2)) as [fn|] eqn:Hfn; cbn [bind] in H; [|discriminate].
  destruct (float_of_int Z0) as [fz|] eqn:Hfz; cbn [bind] in H; [|discriminate].
  exists fn, fz. split; [reflexivity|]. split; [reflexivity|].
  pose proof (float_of_int_inv (n ^ 2) fn ltac:(nia) Hfn) as Hmn.
  pose proof (float_of_int_inv Z0 fz ltac:(lia) Hfz) as Hmz.
  pose proof (Zdigits2_ge_1 (n ^ 2) ltac:(nia)). pose proof (Zdigits2_ge_1 Z0 ltac:(lia)).
  split; [eapply finite_mag_weaken; [exact Hmn|lia|lia]|].
  split; [eapply finite_mag_weaken; [exact Hmz|lia|lia]|].
  apply Return_inj in H. symmetry. exact H.
Qed.

Lemma finite_mag_positive lo hi x : finite_mag false lo hi x ->
  (0 <? x)%float = true /\ (x <? infinity)%float = true.
Proof.
  intros (m & e & H & _). rewrite !ltb_spec, H.
  change (Prim2SF 0) with (S754_zero false).
  change (Prim2SF infinity) with (S754_infinity false). split; reflexivity.
Qed.

Lemma abs_finite_pos lo hi x : finite_mag false lo hi x -> abs x = x.
Proof.
  intros (m & e & H & _). apply Prim2SF_inj. rewrite abs_spec, H. reflexivity.
Qed.

(** The product [a0 * n**2] and the radius are finite and not zero. *)
Lemma radius_product_mag fn lo hi : 1 <= lo -> hi <= 1024 -> finite_mag false lo hi fn ->
  finite_mag false (lo - 35) (hi - 33) (a0_value * fn)%float.
Proof.
  intros Hlo Hhi Hn.
  pose proof (prim_mul_mag _ _ _ _ _ _ _ _ a0_mag Hn ltac:(lia) ltac:(lia)) as H.
  eapply finite_mag_weaken; [exact H|lia|lia].
Qed.

Lemma radius_value_mag fn fz :
  finite_mag false 1 1024 fn -> finite_mag false 1 1024 fz ->
  finite_mag false (-1058) 992 (a0_value * fn / fz)%float.
Proof.
  intros Hn Hz.
  pose proof (radius_product_mag fn 1 1024 ltac:(lia) ltac:(lia) Hn) as Hp.
  pose proof (prim_div_mag _ _ _ _ _ _ _ _ Hp Hz ltac:(lia) ltac:(lia)) as H.
  eapply finite_mag_weaken; [exact H|lia|lia].
Qed.

(** ** Accumulated rounding error *)

Local Open Scope Q_scope.

(** Comparison of two closed rational numbers. *)
Ltac qcmp := first [apply Qle_bool_iff; vm_compute; reflexivity | vm_compute; reflexivity].

(** [x] is [v] up to a factor between [lo] and [hi]. *)
Definition within (lo hi x v : Q) : Prop := v * lo <= x /\ x <= v * hi.

Lemma within_refl v : within 1 1 v v.
Proof. unfold within. split; lra. Qed.

Lemma within_mul l1 h1 l2 h2 x v y w :
  0 <= v -> 0 <= w -> 0 <= l1 -> 0 <= l2 ->
  within l1 h1 x v -> within l2 h2 y w ->
  within (l1 * l2) (h1 * h2) (x * y) (v * w).
Proof.
  intros Hv Hw Hl1 Hl2 [X1 X2] [Y1 Y2]. unfold within.
  assert (A : 0 <= v * l1) by (apply Qmult_le_0_compat; assumption).
  assert (B : 0 <= w * l2) by (apply Qmult_le_0_compat; assumption).
  split.
  - setoid_replace (v * w * (l1 * l2)) with ((v * l1) * (w * l2)) by ring.
    apply Qmult_le_compat_nonneg; split; assumption.
  - setoid_replace (v * w * (h1 * h2)) with ((v * h1) * (w * h2)) by ring.
    apply Qmult_le_compat_nonneg; split; lra.
Qed.

Lemma within_round l1 h1 l2 h2 r x v :
  0 <= v -> 0 <= l1 -> 0 <= l2 -> 0 <= h2 ->
  within l1 h1 x v -> within l2 h2 r x ->
  within (l1 * l2) (h1 * h2) r v.
Proof.
  intros Hv Hl1 Hl2 Hh2 [X1 X2] [R1 R2]. unfold within.
  split.
  - setoid_replace (v * (l1 * l2)) with ((v * l1) * l2) by ring.
    apply Qle_trans with (x * l2); [|assumption].
    apply Qmult_le_compat_r; assumption.
  - setoid_replace (v * (h1 * h2)) with ((v * h1) * h2) by ring.
    apply Qle_trans with (x * h2); [assumption|].
    apply Qmult_le_compat_r; assumption.
Qed.

Lemma within_div l1 h1 l2 h2 x v y w :
  0 <= v -> 0 < w -> 0 <= l1 -> 0 < l2 -> 0 < h2 ->
  within l1 h1 x v -> within l2 h2 y w ->
  within (l1 / h2) (h1 / l2) (x / y) (v / w).
Proof.
  intros Hv Hw Hl1 Hl2 Hh2 [X1 X2] [Y1 Y2]. unfold within.
  assert (Py : 0 < y) by nra.
  assert (A : 0 <= v * l1) by (apply Qmult_le_0_compat; assumption).
  assert (Hx : 0 <= x) by lra.
  assert (Pwh : 0 < w * h2) by (apply Qmult_lt_0_compat; assumption).
  assert (Pwl : 0 < w * l2) by (apply Qmult_lt_0_compat; assumption).
  split.
  - apply Qle_shift_div_l; [assumption|].
    setoid_replace (v / w * (l1 / h2) * y) with ((v * l1) * (y / (w * h2))) by (field; lra).
    apply Qle_trans with ((v * l1) * 1); [|lra].
    apply Qmult_le_compat_nonneg; split; try lra.
    + apply Qle_shift_div_l; lra.
    + apply Qle_shift_div_r; lra.
  - apply Qle_shift_div_r; [assumption|].
    setoid_replace (v / w * (h1 / l2) * y) with ((v * h1) * (y / (w * l2))) by (field; lra).
    apply Qle_trans with ((v * h1) * 1); [lra|].
    assert (0 <= v * h1) by lra.
    apply Qmult_le_compat_nonneg; split; try lra.
    apply Qle_shift_div_l; lra.
Qed.

Lemma within_weaken lo hi lo' hi' x v :
  0 <= v -> lo' <= lo -> hi <= hi' -> within lo hi x v -> within lo' hi' x v.
Proof.
  intros Hv Hlo Hhi [H1 H2]. unfold within. split.
  - apply Qle_trans with (v * lo); [|assumption]. rewrite !(Qmult_comm v).
    apply Qmult_le_compat_r; assumption.
  - apply Qle_trans with (v * hi); [assumption|]. rewrite !(Qmult_comm v).
    apply Qmult_le_compat_r; assumption.
Qed.

Lemma within_Qabs k x v : within (1 - k) (1 + k) x v -> Qabs (x - v) <= k * v.
Proof. intros [H1 H2]. apply Qabs_Qle_condition. split; lra. Qed.

Lemma pvf_opp x : pvf (- x)%float == pvf x.
Proof. unfold pvf. rewrite opp_spec. destruct (Prim2SF x); reflexivity. Qed.

Lemma u53_small : 0 <= 1 - u53 /\ 0 < 1 - u53 /\ 0 <= 1 + u53 /\ 0 < 1 + u53.
Proof. unfold u53. repeat split; discriminate. Qed.

Lemma mul_within sx lx hx sy ly hy x y :
  finite_mag sx lx hx x -> finite_mag sy ly hy y ->
  (-1021 <= lx + ly - 1)%Z -> (hx + hy <= 1023)%Z ->
  finite_mag (xorb sx sy) (lx + ly - 1) (hx + hy + 1) (x * y)%float
  /\ within (1 - u53) (1 + u53) (pvf (x * y)%float) (pvf x * pvf y).
Proof.
  intros Hx Hy Hlo Hhi.
  destruct (prim_mul_err _ _ _ _ _ _ _ _ Hx Hy Hlo Hhi) as (H & H1 & H2).
  split; [exact H|split; assumption].
Qed.

Lemma div_within sx lx hx sy ly hy x y :
  finite_mag sx lx hx x -> finite_mag sy ly hy y ->
  (-1021 <= lx - hy)%Z -> (hx - ly + 1 <= 1023)%Z ->
  finite_mag (xorb sx sy) (lx - hy) (hx - ly + 2) (x / y)%float
  /\ within (1 - u53) (1 + u53) (pvf (x / y)%float) (pvf x / pvf y).
Proof.
  intros Hx Hy Hlo Hhi.
  destruct (prim_div_err _ _ _ _ _ _ _ _ Hx Hy Hlo Hhi) as (H & H1 & H2).
  split; [exact H|split; assumption].
Qed.

(** [float(z)] for [0 < z < 2 ** k]. *)
Lemma float_of_int_below z k : (0 < z < 2 ^ k)%Z -> (0 <= k <= 1022)%Z ->
  exists f, float_of_int z = Return f /\ finite_mag false 1 (k + 1) f
    /\ within (1 - u53) (1 + u53) (pvf f) (inject_Z z).
Proof.
  intros [Hz Hlt] Hk.
  assert (Hlt' : (z < 2 ^ 1023)%Z).
  { apply Z.lt_le_trans with (1 := Hlt). apply Z.pow_le_mono_r; lia. }
  destruct (float_of_int_small z Hz Hlt') as (f & Hf & Hm).
  exists f. split; [assumption|].
  assert (Zdigits2 z <= k)%Z by (apply Zdigits2_le_lt; lia).
  assert (1 <= Zdigits2 z)%Z by (destruct z; try lia; cbn [Zdigits2]; lia).
  split; [eapply finite_mag_weaken; [exact Hm|lia|lia]|].
  destruct (float_of_int_err z f ltac:(lia) Hf). split; assumption.
Qed.

Lemma pow_100_square n : (1 <= n <= 10 ^ 100)%Z -> (0 < n ^ 2 < 2 ^ 665)%Z.
Proof.
  intros [H1 H2]. split; [nia|].
  apply Z.le_lt_trans with ((10 ^ 100) ^ 2)%Z.
  - apply Z.pow_le_mono_l. lia.
  - reflexivity.
Qed.

Lemma pow_100_below n : (1 <= n <= 10 ^ 100)%Z -> (0 < n < 2 ^ 333)%Z.
Proof.
  intros [H1 H2]. split; [lia|].
  apply Z.le_lt_trans with (1 := H2). reflexivity.
Qed.

(** *** The radius against the exact quotient *)

Lemma radius_accuracy_atom Z0 n :
  (1 <= Z0 <= 10 ^ 100)%Z -> (1 <= n <= 10 ^ 100)%Z ->
  exists r, BohrAtom.radius (atom Z0) n = Return r
    /\ finite_mag false (-369) 634 r
    /\ within (1 - 5 * u53) (1 + 5 * u53) (pvf r)
         (pvf a0_value * inject_Z (n ^ 2) / inject_Z Z0).
Proof.
  intros HZ Hn.
  destruct (float_of_int_below (n ^ 2) 665 (pow_100_square n Hn) ltac:(lia))
    as (fn & Hfn & Hmn & Wn).
  destruct (float_of_int_below Z0 333 (pow_100_below Z0 HZ) ltac:(lia))
    as (fz & Hfz & Hmz & Wz).
  rewrite radius_atom by lia. rewrite Hfn, Hfz. cbn [bind].
  eexists. split; [reflexivity|].
  destruct (mul_within _ _ _ _ _ _ _ _ a0_mag Hmn ltac:(lia) ltac:(lia)) as (Hp & Wp).
  destruct (div_within _ _ _ _ _ _ _ _ Hp Hmz ltac:(lia) ltac:(lia)) as (Hr & Wr).
  cbn [xorb] in *.
  split; [eapply finite_mag_weaken; [exact Hr|lia|lia]|].
  pose proof (pvf_pos _ _ _ _ a0_mag) as Pa.
  assert (PN : 0 < inject_Z (n ^ 2)) by (apply inject_Z_pos; nia).
  assert (PZ : 0 < inject_Z Z0) by (apply inject_Z_pos; lia).
  pose proof u53_small as (U1 & U2 & U3 & U4).
  unshelve epose proof (within_mul _ _ _ _ _ _ _ _ (Qlt_le_weak _ _ Pa) (Qlt_le_weak _ _ PN)
                _ U1 (within_refl (pvf a0_value)) Wn) as W1; [lra|].
  assert (PaN : 0 <= pvf a0_value * inject_Z (n ^ 2)) by (apply Qmult_le_0_compat; lra).
  unshelve epose proof (within_round _ _ _ _ _ _ _ PaN _ U1 U3 W1 Wp) as W2; [lra|].
  unshelve epose proof (within_div _ _ _ _ _ _ _ _ PaN PZ _ U2 U4 W2 Wz) as W3;
    [qcmp|].
  assert (Pq : 0 <= pvf a0_value * inject_Z (n ^ 2) / inject_Z Z0).
  { apply Qle_shift_div_l; lra. }
  unshelve epose proof (within_round _ _ _ _ _ _ _ Pq _ U1 U3 W3 Wr) as W4;
    [qcmp|].
  eapply within_weaken; [exact Pq| | |exact W4]; qcmp.
Qed.

(** *** The energy against the exact Bohr formula *)

(** The constants of [core.py] as the decimal numbers their literals
    denote. *)
Module CODATA.
Definition h : Q := 6.62607015e-34.
Definition e : Q := 1.602176634e-19.
Definition m_e : Q := 9.1093837015e-31.
Definition epsilon0 : Q := 8.8541878128e-12.
End CODATA.

(** [E_n = - (m_e * e^4 * Z^2) / (8 * epsilon0^2 * h^2 * n^2)] in exact
    rational arithmetic. *)
Definition bohr_energy (Z0 n : Z) : Q :=
  - (CODATA.m_e * CODATA.e ^ 4 * inject_Z (Z0 ^ 2))
    / (8 * CODATA.epsilon0 ^ 2 * CODATA.h ^ 2 * inject_Z (n ^ 2)).

Definition K_num : Q := CODATA.m_e * CODATA.e ^ 4.
Definition K_den : Q := 8 * CODATA.epsilon0 ^ 2 * CODATA.h ^ 2.

Lemma K_num_pos : 0 < K_num.
Proof. reflexivity. Qed.

Lemma K_den_pos : 0 < K_den.
Proof. reflexivity. Qed.

Lemma E_num_within : within (1 - 3 * u53) 1 (pvf E_num) K_num.
Proof. split; apply Qle_bool_iff; vm_compute; reflexivity. Qed.

Lemma E_den_within : within (1 - 2 * u53) 1 (pvf E_den) K_den.
Proof. split; apply Qle_bool_iff; vm_compute; reflexivity. Qed.

Lemma e_within : within (1 - u53) 1 (pvf _e) CODATA.e.
Proof. split; apply Qle_bool_iff; vm_compute; reflexivity. Qed.

Lemma within_proper lo hi x x' v : x == x' -> within lo hi x v -> within lo hi x' v.
Proof. intros E [H1 H2]. split; rewrite <- E; assumption. Qed.

Lemma energy_accuracy_atom Z0 n :
  (1 <= Z0 <= 10 ^ 100)%Z -> (1 <= n <= 10 ^ 100)%Z ->
  exists E, BohrAtom.energy_joule (atom Z0) n = Return E
    /\ finite_mag true (-726) 611 E
    /\ within (1 - 9 * u53) (1 + 9 * u53) (pvf E)
         (K_num * inject_Z (Z0 ^ 2) / (K_den * inject_Z (n ^ 2))).
Proof.
  intros HZ Hn.
  destruct (float_of_int_below (Z0 ^ 2) 665 (pow_100_square Z0 HZ) ltac:(lia))
    as (fz & Hfz & Hmz & Wz).
  destruct (float_of_int_below (n ^ 2) 665 (pow_100_square n Hn) ltac:(lia))
    as (fn & Hfn & Hmn & Wn).
  rewrite energy_joule_atom by lia. unfold energy_expr. rewrite Hfz, Hfn. cbn [bind].
  unfold float_truediv, float_mul, float_neg.
  destruct (mul_within _ _ _ _ _ _ _ _ E_num_mag Hmz ltac:(lia) ltac:(lia)) as (Hnum & Wnum).
  destruct (mul_within _ _ _ _ _ _ _ _ E_den_mag Hmn ltac:(lia) ltac:(lia)) as (Hden & Wden).
  pose proof (prim_opp_mag _ _ _ _ Hnum) as Hneg.
  destruct (div_within _ _ _ _ _ _ _ _ Hneg Hden ltac:(lia) ltac:(lia)) as (HE & WE).
  cbn [xorb negb] in *.
  rewrite (finite_mag_nonzero _ _ _ _ Hden).
  eexists. split; [reflexivity|].
  split; [eapply finite_mag_weaken; [exact HE|lia|lia]|].
  pose proof K_num_pos as PK. pose proof K_den_pos as PD.
  assert (PZ : 0 < inject_Z (Z0 ^ 2)) by (apply inject_Z_pos; nia).
  assert (PN : 0 < inject_Z (n ^ 2)) by (apply inject_Z_pos; nia).
  pose proof u53_small as (U1 & U2 & U3 & U4).
  assert (PA : 0 <= K_num * inject_Z (Z0 ^ 2)) by (apply Qmult_le_0_compat; lra).
  assert (PB : 0 < K_den * inject_Z (n ^ 2)) by (apply Qmult_lt_0_compat; lra).
  unshelve epose proof (within_mul _ _ _ _ _ _ _ _ (Qlt_le_weak _ _ PK) (Qlt_le_weak _ _ PZ)
                          _ U1 E_num_within Wz) as A1; [qcmp|].
  unshelve epose proof (within_round _ _ _ _ _ _ _ PA _ U1 U3 A1 Wnum) as A2;
    [qcmp|].
  unshelve epose proof (within_mul _ _ _ _ _ _ _ _ (Qlt_le_weak _ _ PD) (Qlt_le_weak _ _ PN)
                          _ U1 E_den_within Wn) as B1; [qcmp|].
  unshelve epose proof (within_round _ _ _ _ _ _ _ (Qlt_le_weak _ _ PB) _ U1 U3 B1 Wden) as B2;
    [qcmp|].
  apply (within_proper _ _ _ _ _ (Qeq_sym _ _ (pvf_opp _))) in A2.
  unshelve epose proof (within_div _ _ _ _ _ _ _ _ PA PB _ _ _ A2 B2) as C1;
    [qcmp|qcmp|qcmp|].
  assert (PQ : 0 <= K_num * inject_Z (Z0 ^ 2) / (K_den * inject_Z (n ^ 2))).
  { apply Qle_shift_div_l; lra. }
  unshelve epose proof (within_round _ _ _ _ _ _ _ PQ _ U1 U3 C1 WE) as C2;
    [qcmp|].
  eapply within_weaken; [exact PQ| | |exact C2]; qcmp.
Qed.

Lemma energy_eV_accuracy_atom Z0 n :
  (1 <= Z0 <= 10 ^ 100)%Z -> (1 <= n <= 10 ^ 100)%Z ->
  exists E, BohrAtom.energy_joule (atom Z0) n = Return E
    /\ finite_mag true (-726) 611 E
    /\ within (1 - 9 * u53) (1 + 9 * u53) (pvf E)
         (K_num * inject_Z (Z0 ^ 2) / (K_den * inject_Z (n ^ 2)))
    /\ BohrAtom.energy (atom Z0) n "eV" = Return (E / _e)%float
    /\ finite_mag true (-664) 675 (E / _e)%float
    /\ within (1 - 12 * u53) (1 + 12 * u53) (pvf (E / _e)%float)
         (K_num * inject_Z (Z0 ^ 2) / (K_den * inject_Z (n ^ 2)) / CODATA.e).
Proof.
  intros HZ Hn.
  destruct (energy_accuracy_atom Z0 n HZ Hn) as (E & HE & Hm & WE).
  exists E. split; [assumption|]. split; [assumption|]. split; [assumption|].
  split.
  { unfold BohrAtom.energy. rewrite HE. cbn [bind atom BohrAtom._e].
    change (String.eqb (lower "eV") "j") with false.
    change (String.eqb (lower "eV") "ev") with true. cbv iota.
    unfold float_truediv. rewrite (finite_mag_nonzero _ _ _ _ e_mag). reflexivity. }
  destruct (div_within _ _ _ _ _ _ _ _ Hm e_mag ltac:(lia) ltac:(lia)) as (HV & WV).
  cbn [xorb] in *.
  split; [eapply finite_mag_weaken; [exact HV|lia|lia]|].
  pose proof K_num_pos as PK. pose proof K_den_pos as PD.
  assert (PZ : 0 < inject_Z (Z0 ^ 2)) by (apply inject_Z_pos; nia).
  assert (PN : 0 < inject_Z (n ^ 2)) by (apply inject_Z_pos; nia).
  assert (PA : 0 <= K_num * inject_Z (Z0 ^ 2)) by (apply Qmult_le_0_compat; lra).
  assert (PB : 0 < K_den * inject_Z (n ^ 2)) by (apply Qmult_lt_0_compat; lra).
  assert (PQ : 0 <= K_num * inject_Z (Z0 ^ 2) / (K_den * inject_Z (n ^ 2))).
  { apply Qle_shift_div_l; lra. }
  assert (Pe : 0 < CODATA.e) by reflexivity.
  pose proof u53_small as (U1 & U2 & U3 & U4).
  unshelve epose proof (within_div _ _ _ _ _ _ _ _ PQ Pe _ _ _ WE e_within) as C1;
    [qcmp|qcmp|qcmp|].
  assert (PV : 0 <= K_num * inject_Z (Z0 ^ 2) / (K_den * inject_Z (n ^ 2)) / CODATA.e).
  { apply Qle_shift_div_l; lra. }
  unshelve epose proof (within_round _ _ _ _ _ _ _ PV _ U1 U3 C1 WV) as C2;
    [qcmp|].
  eapply within_weaken; [exact PV| | |exact C2]; qcmp.
Qed.

Lemma F2Q_neg_pvf x lo hi : finite_mag true lo hi x -> F2Q x == - pvf x.
Proof.
  intros (m & e & H & _). unfold F2Q, pvf. rewrite H. cbn [pv cond_Zopp].
  change (inject_Z (- Z.pos m)) with (- inject_Z (Z.pos m)). ring.
Qed.

Lemma within_Qabs_neg k x v X V :
  0 <= v -> X == - x -> V == - v ->
  within (1 - k) (1 + k) x v -> Qabs (X - V) <= k * Qabs V.
Proof.
  intros Hv EX EV [H1 H2]. rewrite EX, EV, Qabs_opp, (Qabs_pos v) by assumption.
  apply Qabs_Qle_condition. split; lra.
Qed.

Lemma bohr_energy_neg Z0 n : (1 <= n)%Z ->
  bohr_energy Z0 n == - (K_num * inject_Z (Z0 ^ 2) / (K_den * inject_Z (n ^ 2))).
Proof.
  intros Hn. unfold bohr_energy. fold K_num. fold K_den.
  assert (PN : 0 < inject_Z (n ^ 2)) by (apply inject_Z_pos; nia).
  pose proof K_den_pos. field. split; lra.
Qed.

(** Below level [10 ** 12] the radii are strictly increasing. *)
Lemma radius_strict_atom Z0 n m :
  (1 <= Z0 <= 10 ^ 100)%Z -> (1 <= n)%Z -> (n < m)%Z -> (m <= 10 ^ 12)%Z ->
  exists r_n r_m,
    BohrAtom.radius (atom Z0) n = Return r_n
    /\ BohrAtom.radius (atom Z0) m = Return r_m
    /\ (r_n <? r_m)%float = true.
Proof.
  intros HZ Hn Hnm Hm.
  destruct (float_of_int_below Z0 333 (pow_100_below Z0 HZ) ltac:(lia))
    as (fz & Hfz & Hmz & _).
  destruct (float_of_int_square_tiny n ltac:(lia)) as (fn & Hfn & Hmn).
  destruct (float_of_int_square_tiny m ltac:(lia)) as (fm & Hfm & Hmm).
  rewrite !radius_atom by lia. rewrite Hfz, Hfn, Hfm. cbn [bind].
  pose proof (prim_mul_err _ _ _ _ _ _ _ _ a0_mag Hmn ltac:(lia) ltac:(lia)) as (HPn & Pn1 & Pn2).
  pose proof (prim_mul_err _ _ _ _ _ _ _ _ a0_mag Hmm ltac:(lia) ltac:(lia)) as (HPm & Pm1 & Pm2).
  pose proof (prim_div_err _ _ _ _ _ _ _ _ HPn Hmz ltac:(lia) ltac:(lia)) as (HRn & Rn1 & Rn2).
  pose proof (prim_div_err _ _ _ _ _ _ _ _ HPm Hmz ltac:(lia) ltac:(lia)) as (HRm & Rm1 & Rm2).
  cbn [xorb] in *.
  eexists _, _. split; [reflexivity|]. split; [reflexivity|].
  apply (prim_ltb_pvf _ _ _ _ _ _ HRn HRm).
  destruct (float_of_int_err (n ^ 2) fn) as [Fn1 Fn2]; [|assumption|].
  { destruct (pow2_tiny n ltac:(lia)). split; [lia|]. apply Z.lt_trans with (2 ^ 80)%Z; [lia|reflexivity]. }
  destruct (float_of_int_err (m ^ 2) fm) as [Fm1 Fm2]; [|assumption|].
  { destruct (pow2_tiny m ltac:(lia)). split; [lia|]. apply Z.lt_trans with (2 ^ 80)%Z; [lia|reflexivity]. }
  pose proof (pvf_pos _ _ _ _ a0_mag) as Pk.
  pose proof (pvf_pos _ _ _ _ Hmz) as Pz.
  pose proof (pvf_pos _ _ _ _ Hmn) as Pxn. pose proof (pvf_pos _ _ _ _ Hmm) as Pxm.
  pose proof (pvf_pos _ _ _ _ HPn) as Ppn. pose proof (pvf_pos _ _ _ _ HPm) as Ppm.
  pose proof (pvf_pos _ _ _ _ HRn) as Prn. pose proof (pvf_pos _ _ _ _ HRm) as Prm.
  set (k := pvf a0_value) in *. set (z := pvf fz) in *.
  set (xn := pvf fn) in *. set (xm := pvf fm) in *.
  set (pn := pvf (a0_value * fn)%float) in *. set (pm := pvf (a0_value * fm)%float) in *.
  set (rn := pvf (a0_value * fn / fz)%float) in *.
  set (rm := pvf (a0_value * fm / fz)%float) in *.
  set (g0 := 1 # 10 ^ 12).
  assert (Hu : 0 <= u53 /\ u53 <= 1 # 8 /\ 16 * u53 <= g0) by (unfold u53, g0; repeat split; discriminate).
  assert (Hg0 : g0 <= 1) by (unfold g0; discriminate).
  assert (G0 : inject_Z (n ^ 2) * (1 + g0) <= inject_Z (m ^ 2)).
  { assert (Hz : (n ^ 2 * (10 ^ 12 + 1) <= m ^ 2 * 10 ^ 12)%Z) by nia.
    rewrite Zle_Qle, !inject_Z_mult in Hz.
    unfold g0. change (inject_Z (10 ^ 12 + 1)) with (1000000000001 # 1) in Hz.
    change (inject_Z (10 ^ 12)) with (1000000000000 # 1) in Hz.
    change (1 # 10 ^ 12) with (1 # 1000000000000). lra. }
  assert (PN2 : 0 < inject_Z (n ^ 2)) by (apply inject_Z_pos; nia).
  assert (G1 : xn * (1 + g0 - 4 * u53) <= xm).
  { apply (gap_step (inject_Z (n ^ 2)) (inject_Z (m ^ 2))); lra. }
  assert (G1' : k * xn * (1 + (g0 - 4 * u53)) <= k * xm) by nra.
  assert (G2 : pn * (1 + (g0 - 4 * u53) - 4 * u53) <= pm).
  { apply (gap_step (k * xn) (k * xm)); try lra. nra. }
  assert (Hdn : pn / z * z == pn) by (field; lra).
  assert (Hdm : pm / z * z == pm) by (field; lra).
  assert (Pdn : 0 < pn / z) by (apply Qlt_shift_div_l; lra).
  assert (Pdm : 0 < pm / z) by (apply Qlt_shift_div_l; lra).
  assert (G2' : pn / z * (1 + (g0 - 8 * u53)) <= pm / z).
  { apply Qmult_le_r with z; [lra|]. rewrite Hdm.
    setoid_replace (pn / z * (1 + (g0 - 8 * u53)) * z) with (pn / z * z * (1 + (g0 - 8 * u53))) by ring.
    rewrite Hdn. lra. }
  assert (G3 : rn * (1 + (g0 - 8 * u53) - 4 * u53) <= rm).
  { apply (gap_step (pn / z) (pm / z)); lra. }
  assert (Pg : 0 < g0) by reflexivity.
  assert (Pgap : 0 < rn * (g0 - 12 * u53)) by (apply Qmult_lt_0_compat; lra).
  lra.
Qed.

Local Close Scope Q_scope.

(** ** Signs of differences and the exceptions of the queries *)

Lemma abs_opp_finite lo hi x : finite_mag false lo hi x -> abs (- x) = x.
Proof.
  intros (m & e & H & _). apply Prim2SF_inj. rewrite abs_spec, opp_spec, H. reflexivity.
Qed.

Lemma prim_leb_ival x y sx sy :
  finite_or_zero sx x -> finite_or_zero sy y ->
  (x <=? y)%float = (ival (Prim2SF x) <=? ival (Prim2SF y)).
Proof.
  intros Hx Hy. rewrite leb_spec.
  apply SFleb_ival; try apply Prim2SF_valid; eapply finite_or_zero_is; eassumption.
Qed.

(** The sign of [x - y] follows the order of [x] and [y]. *)
Lemma prim_sub_nonneg x y sx sy :
  finite_or_zero sx x -> finite_or_zero sy y ->
  (y <=? x)%float = true -> (0 <=? x - y)%float = true.
Proof.
  intros Hx Hy Hle. rewrite (prim_leb_ival y x sy sx Hy Hx) in Hle.
  apply Z.leb_le in Hle.
  pose proof (prim_sub_sgn x y sx sy Hx Hy) as Hs.
  rewrite leb_spec. change (Prim2SF 0) with (S754_zero false).
  pose proof (sf_sgn_sub_range x y sx sy Hx Hy) as Hr.
  assert (Hz : 0 <= Z.sgn (ival (Prim2SF x) - ival (Prim2SF y))) by lia.
  rewrite <- Hs in Hz.
  destruct (Prim2SF (x - y)%float) as [s|s| |s m e]; cbn [sf_sgn] in Hz, Hr;
    try reflexivity; try lia; destruct s; try reflexivity; lia.
Qed.

Lemma prim_sub_nonpos x y sx sy :
  finite_or_zero sx x -> finite_or_zero sy y ->
  (x <=? y)%float = true -> (x - y <=? 0)%float = true.
Proof.
  intros Hx Hy Hle. rewrite (prim_leb_ival x y sx sy Hx Hy) in Hle.
  apply Z.leb_le in Hle.
  pose proof (prim_sub_sgn x y sx sy Hx Hy) as Hs.
  rewrite leb_spec. change (Prim2SF 0) with (S754_zero false).
  pose proof (sf_sgn_sub_range x y sx sy Hx Hy) as Hr.
  assert (Hz : Z.sgn (ival (Prim2SF x) - ival (Prim2SF y)) <= 0) by lia.
  rewrite <- Hs in Hz.
  destruct (Prim2SF (x - y)%float) as [s|s| |s m e]; cbn [sf_sgn] in Hz, Hr;
    try reflexivity; try lia; destruct s; try reflexivity; lia.
Qed.

Lemma SFcompare_finite_refl s m e :
  SFcompare (S754_finite s m e) (S754_finite s m e) = Some Eq.
Proof.
  cbn [SFcompare]. rewrite Z.compare_refl.
  destruct s; cbn; rewrite Pos.compare_cont_refl; reflexivity.
Qed.

(** Swapping the operands of a subtraction flips the sign of the result. *)
Lemma prim_sub_swap x y sx sy :
  finite_or_zero sx x -> finite_or_zero sy y ->
  (y - x =? - (x - y))%float = true.
Proof.
  intros Hx Hy.
  pose proof (prim_sub_sgn x y sx sy Hx Hy) as S1.
  pose proof (prim_sub_sgn y x sy sx Hy Hx) as S2.
  pose proof (sf_sgn_sub_range x y sx sy Hx Hy) as R1.
  assert (Habs : SFabs (Prim2SF (y - x)%float) = SFabs (Prim2SF (x - y)%float)).
  { rewrite <- !abs_spec. f_equal. apply prim_abs_sub_comm. }
  assert (Hsg : sf_sgn (Prim2SF (y - x)%float) = - sf_sgn (Prim2SF (x - y)%float)).
  { rewrite S1, S2.
    replace (ival (Prim2SF y) - ival (Prim2SF x)) with (- (ival (Prim2SF x) - ival (Prim2SF y))) by lia.
    apply Z.sgn_opp. }
  rewrite eqb_spec, opp_spec. unfold SFeqb.
  destruct (Prim2SF (x - y)%float) as [s|s| |s m e];
    destruct (Prim2SF (y - x)%float) as [s'|s'| |s' m' e'];
    cbn [SFabs sf_sgn SFopp] in *; try discriminate; try lia.
  - reflexivity.
  - destruct s, s'; try reflexivity; lia.
  - injection Habs as -> ->.
    assert (s' = negb s) as -> by (destruct s, s'; try reflexivity; lia).
    rewrite SFcompare_finite_refl. reflexivity.
Qed.

Lemma transition_energy_joule_inv Z0 n_i n_f d : 1 <= Z0 ->
  BohrAtom.transition_energy_joule (atom Z0) n_i n_f = Return d ->
  exists E_i E_f,
    BohrAtom.energy_joule (atom Z0) n_i = Return E_i
    /\ BohrAtom.energy_joule (atom Z0) n_f = Return E_f
    /\ finite_or_zero true E_i /\ finite_or_zero true E_f
    /\ 1 <= n_i /\ 1 <= n_f
    /\ d = (E_f - E_i)%float.
Proof.
  intros HZ H. unfold BohrAtom.transition_energy_joule in H.
  destruct (BohrAtom.energy_joule (atom Z0) n_i) as [E_i|] eqn:Hi; cbn [bind] in H; [|discriminate].
  destruct (BohrAtom.energy_joule (atom Z0) n_f) as [E_f|] eqn:Hf; cbn [bind] in H; [|discriminate].
  destruct (energy_joule_returned _ _ _ HZ Hi) as [Ni Fi].
  destruct (energy_joule_returned _ _ _ HZ Hf) as [Nf Ff].
  exists E_i, E_f. apply Return_inj in H. repeat split; try assumption. symmetry. exact H.
Qed.

Lemma energy_leb_mono Z0 n m E_n E_m : 1 <= Z0 -> n <= m ->
  BohrAtom.energy_joule (atom Z0) n = Return E_n ->
  BohrAtom.energy_joule (atom Z0) m = Return E_m ->
  (E_n <=? E_m)%float = true.
Proof.
  intros HZ Hnm Hn Hm.
  destruct (energy_joule_returned _ _ _ HZ Hn) as [_ Fn].
  destruct (energy_joule_returned _ _ _ HZ Hm) as [_ Fm].
  rewrite <- (abs_leb_nonpos E_n E_m Fn Fm).
  eapply energy_abs_mono; eassumption.
Qed.

(** [float(z)] can only fail with [OverflowError]. *)
Lemma float_of_int_raises z exn : float_of_int z = Raise exn -> exn = OverflowError.
Proof.
  unfold float_of_int.
  destruct (binary_normalize prec emax z 0 false); intros H; try discriminate.
  injection H as <-. reflexivity.
Qed.

Lemma energy_joule_raises Z0 n exn : 1 <= Z0 ->
  BohrAtom.energy_joule (atom Z0) n = Raise exn ->
  (n < 1 /\ exn = ValueError BohrAtom.msg_n) \/ (1 <= n /\ exn = OverflowError).
Proof.
  intros HZ H. destruct (Z.lt_ge_cases n 1) as [Hn|Hn].
  - rewrite energy_joule_low in H by assumption. injection H as <-. left. split; [assumption|reflexivity].
  - destruct (energy_joule_cases Z0 n HZ Hn) as [(_ & E & HE & _)|(_ & HE)];
      rewrite HE in H; [discriminate|]. injection H as <-. right. split; [assumption|reflexivity].
Qed.

Lemma radius_raises Z0 n exn : 1 <= Z0 ->
  BohrAtom.radius (atom Z0) n = Raise exn ->
  (n < 1 /\ exn = ValueError BohrAtom.msg_n) \/ (1 <= n /\ exn = OverflowError).
Proof.
  intros HZ H. destruct (Z.lt_ge_cases n 1) as [Hn|Hn].
  - rewrite radius_low in H by assumption. injection H as <-. left. split; [assumption|reflexivity].
  - right. split; [assumption|]. rewrite radius_atom in H by assumption.
    destruct (float_of_int (n ^ 2)) as [fn|e1] eqn:Hfn; cbn [bind] in H.
    + destruct (float_of_int Z0) as [fz|e2] eqn:Hfz; cbn [bind] in H; [discriminate|].
      injection H as <-. eapply float_of_int_raises; eassumption.
    + injection H as <-. eapply float_of_int_raises; eassumption.
Qed.

Lemma transition_energy_joule_raises Z0 n_i n_f exn : 1 <= Z0 ->
  BohrAtom.transition_energy_joule (atom Z0) n_i n_f = Raise exn ->
  exn = ValueError BohrAtom.msg_n \/ exn = OverflowError.
Proof.
  intros HZ H. unfold BohrAtom.transition_energy_joule in H.
  destruct (BohrAtom.energy_joule (atom Z0) n_i) as [E_i|e1] eqn:Hi; cbn [bind] in H.
  - destruct (BohrAtom.energy_joule (atom Z0) n_f) as [E_f|e2] eqn:Hf; cbn [bind] in H;
      [discriminate|]. injection H as <-.
    destruct (energy_joule_raises Z0 n_f e2 HZ Hf) as [[_ ->]|[_ ->]]; [left|right]; reflexivity.
  - injection H as <-.
    destruct (energy_joule_raises Z0 n_i e1 HZ Hi) as [[_ ->]|[_ ->]]; [left|right]; reflexivity.
Qed.

Lemma transition_energy_value Z0 n_i n_f unit dE :
  BohrAtom.transition_energy_joule (atom Z0) n_i n_f = Return dE ->
  BohrAtom.transition_energy (atom Z0) n_i n_f unit =
    if String.eqb (lower unit) "j" then Return (abs dE)
    else if String.eqb (lower unit) "ev" then Return (abs dE / _e)%float
    else Raise (ValueError BohrAtom.msg_unit).
Proof.
  intros H. unfold BohrAtom.transition_energy. rewrite H. cbn [bind atom BohrAtom._e].
  unfold float_truediv, float_abs. rewrite (finite_mag_nonzero _ _ _ _ e_mag). reflexivity.
Qed.

Lemma frequency_of_transition Z0 n_i n_f :
  BohrAtom.frequency (atom Z0) n_i n_f =
    (dE <- BohrAtom.transition_energy_joule (atom Z0) n_i n_f ;; Return (abs dE / _h)%float).
Proof.
  unfold BohrAtom.frequency.
  destruct (BohrAtom.transition_energy_joule (atom Z0) n_i n_f); [|reflexivity].
  cbn [bind atom BohrAtom._h]. unfold float_truediv, float_abs.
  rewrite (finite_mag_nonzero _ _ _ _ h_mag). reflexivity.
Qed.

Lemma wavelength_inv Z0 n_i n_f w : 1 <= Z0 ->
  BohrAtom.wavelength (atom Z0) n_i n_f = Return w ->
  exists E_i E_f,
    BohrAtom.energy_joule (atom Z0) n_i = Return E_i
    /\ BohrAtom.energy_joule (atom Z0) n_f = Return E_f
    /\ finite_or_zero true E_i /\ finite_or_zero true E_f
    /\ (E_f =? E_i)%float = false
    /\ w = (_c / (abs (E_f - E_i) / _h))%float.
Proof.
  intros HZ H.
  destruct (BohrAtom.frequency (atom Z0) n_i n_f) as [nu|] eqn:Hnu;
    [|unfold BohrAtom.wavelength in H; rewrite Hnu in H; discriminate].
  destruct (frequency_inv Z0 n_i n_f nu Hnu) as (E_i & E_f & Hi & Hf & _).
  destruct (energy_joule_returned _ _ _ HZ Hi) as [_ Fi].
  destruct (energy_joule_returned _ _ _ HZ Hf) as [_ Ff].
  rewrite (wavelength_value Z0 n_i n_f E_i E_f HZ Hi Hf) in H.
  exists E_i, E_f. destruct (E_f =? E_i)%float; [discriminate|].
  apply Return_inj in H. repeat split; try assumption. symmetry. exact H.
Qed.

(** A quotient [c / nu] by a frequency is a finite float that is not
    negative. *)
Lemma wavelength_value_range x y sx sy :
  finite_or_zero sx x -> finite_or_zero sy y ->
  (abs (x - y) / _h =? 0)%float = false ->
  finite_or_zero false (_c / (abs (x - y) / _h))%float.
Proof.
  intros Hx Hy Hnz.
  set (nu := (abs (x - y) / _h)%float) in *.
  assert (Hnn : sf_nonneg (Prim2SF nu)).
  { eapply sf_nonneg_div; [|exact h_mag]. eapply sf_nonneg_abs_sub; eassumption. }
  pose proof (nonneg_nonzero_pos nu Hnn Hnz) as Hpos.
  destruct (nu <? infinity)%float eqn:Hfin.
  - destruct (frequency_mag x y sx sy nu Hx Hy eq_refl Hpos Hfin) as (mu & Hmu & Hlo).
    exact (prim_div_finite_or_zero _ _ _ _ _ _ _ _ c_mag Hmu ltac:(lia)).
  - left. rewrite div_spec.
    destruct c_mag as (mc & ec & Hc & _). rewrite Hc.
    rewrite ltb_spec in Hfin, Hpos.
    change (Prim2SF infinity) with (S754_infinity false) in Hfin.
    change (Prim2SF 0) with (S754_zero false) in Hpos.
    destruct Hnn as [H|[H|(m & e & H)]]; rewrite H in *; try discriminate.
    reflexivity.
Qed.

Lemma finite_or_zero_nonneg x : finite_or_zero false x ->
  (0 <=? x)%float = true /\ (x <? infinity)%float = true.
Proof.
  intros [H|(m & e & H)]; rewrite leb_spec, ltb_spec, H;
    change (Prim2SF 0) with (S754_zero false);
    change (Prim2SF infinity) with (S754_infinity false); split; reflexivity.
Qed.

(** ** The textual representation *)

Lemma decimal_digits_length_ge fuel n acc :
  (String.length acc <= String.length (decimal_digits fuel n acc))%nat.
Proof.
  revert n acc. induction fuel as [|f IH]; intros n acc; cbn [decimal_digits].
  - lia.
  - destruct (n <? 10).
    + cbn [String.length]. lia.
    + specialize (IH (n / 10) (String (digit_char (n mod 10)) acc)).
      cbn [String.length] in IH. lia.
Qed.

(** With enough fuel, [n] has at most [k] digits exactly when it is below
    [10 ** k]. *)
Lemma decimal_digits_length fuel n acc k :
  0 <= n < 2 ^ Z.of_nat fuel -> (1 <= k)%nat ->
  (String.length (decimal_digits fuel n acc) <= String.length acc + k)%nat
  <-> n < 10 ^ Z.of_nat k.
Proof.
  revert n acc k. induction fuel as [|f IH]; intros n acc k Hn Hk.
  - change (2 ^ Z.of_nat 0) with 1 in Hn. cbn [decimal_digits].
    split; intros _; [|lia].
    assert (0 < 10 ^ Z.of_nat k) by (apply Z.pow_pos_nonneg; lia). lia.
  - cbn [decimal_digits]. destruct (Z.ltb_spec n 10) as [Hlt|Hge].
    + cbn [String.length]. split; intros _; [|lia].
      apply Z.lt_le_trans with (10 ^ 1); [exact Hlt|].
      apply Z.pow_le_mono_r; lia.
    + rewrite Nat2Z.inj_succ, Z.pow_succ_r in Hn by lia.
      assert (Hq : 0 <= n / 10 < 2 ^ Z.of_nat f).
      { split; [apply Z.div_pos; lia|].
        apply Z.div_lt_upper_bound; lia. }
      destruct (Nat.eq_dec k 1) as [->|Hk1].
      * pose proof (decimal_digits_length_ge f (n / 10) (String (digit_char (n mod 10)) acc)) as Hl.
        assert (Hf : (1 <= f)%nat).
        { destruct f; [|lia]. change (2 ^ Z.of_nat 0) with 1 in Hq.
          assert (1 <= n / 10) by (apply Z.div_le_lower_bound; lia). lia. }
        destruct f as [|f']; [lia|].
        cbn [decimal_digits] in *.
        change (10 ^ Z.of_nat 1) with 10.
        split; [|lia]. intros Hlen. exfalso.
        destruct (n / 10 <? 10).
        -- cbn [String.length] in Hlen. lia.
        -- pose proof (decimal_digits_length_ge f' (n / 10 / 10)
                         (String (digit_char (n / 10 mod 10)) (String (digit_char (n mod 10)) acc))) as Hl'.
           cbn [String.length] in Hl'. lia.
      * specialize (IH (n / 10) (String (digit_char (n mod 10)) acc) (k - 1)%nat Hq ltac:(lia)).
        cbn [String.length] in IH.
        replace (S (String.length acc) + (k - 1))%nat with (String.length acc + k)%nat in IH by lia.
        rewrite IH.
        replace (Z.of_nat k) with (Z.succ (Z.of_nat (k - 1))) by lia.
        rewrite Z.pow_succ_r by lia.
        generalize (10 ^ Z.of_nat (k - 1)). intros P.
        pose proof (Z.div_mod n 10 ltac:(lia)) as Hdm.
        pose proof (Z.mod_pos_bound n 10 ltac:(lia)) as Hmb.
        split; intros H; lia.
Qed.

Lemma decimal_length n k : 0 <= n -> 1 <= k ->
  Z.of_nat (String.length (decimal n)) <= k <-> n < 10 ^ k.
Proof.
  intros Hn Hk. unfold decimal.
  pose proof (decimal_digits_length (S (Z.to_nat (Z.log2 n))) n "" (Z.to_nat k)) as H.
  rewrite Z2Nat.id in H by lia. cbn [String.length] in H.
  rewrite <- H; [lia| |lia].
  split; [assumption|].
  rewrite Nat2Z.inj_succ, Z2Nat.id by apply Z.log2_nonneg.
  destruct (Z.eq_dec n 0) as [->|Hne]; [reflexivity|].
  apply Z.log2_spec. lia.
Qed.

Lemma int_str_cases z : 0 <= z ->
  int_str z = if 10 ^ 4300 <=? z then Raise (ValueError msg_int_str) else Return (decimal z).
Proof.
  intros Hz. unfold int_str. rewrite Z.abs_eq by assumption.
  rewrite (proj2 (Z.ltb_ge z 0)) by assumption.
  pose proof (decimal_length z int_max_str_digits Hz ltac:(discriminate)) as H.
  change (10 ^ int_max_str_digits) with (10 ^ 4300) in H.
  generalize dependent (10 ^ 4300). intros P H.
  generalize dependent (Z.of_nat (String.length (decimal z))). intros L H.
  generalize dependent int_max_str_digits. intros M H.
  destruct (Z.leb_spec P z) as [Hbig|Hsmall];
    destruct (Z.ltb_spec M L) as [Hl|Hl]; try reflexivity; exfalso; lia.
Qed.

Lemma a0_format : float_format_3e a0_value = "5.292e-11"%string.
Proof. vm_compute. reflexivity. Qed.

(** Reading a decimal numeral back. *)
Definition digit_value (c : ascii) : Z := Z.of_N (N_of_ascii c) - 48.

Fixpoint decimal_value (v : Z) (s : string) : Z :=
  match s with
  | EmptyString => v
  | String c s' => decimal_value (10 * v + digit_value c) s'
  end.

Lemma digit_value_char d : 0 <= d < 10 -> digit_value (digit_char d) = d.
Proof.
  intros H.
  assert (C : d = 0 \/ d = 1 \/ d = 2 \/ d = 3 \/ d = 4 \/ d = 5 \/ d = 6 \/ d = 7
              \/ d = 8 \/ d = 9) by lia.
  repeat (destruct C as [->|C]; [reflexivity|]). subst d. reflexivity.
Qed.

Lemma decimal_digits_value fuel n :
  0 <= n < 2 ^ Z.of_nat fuel ->
  exists k, 0 <= k /\ forall v acc,
    decimal_value v (decimal_digits fuel n acc) = decimal_value (v * 10 ^ k + n) acc.
Proof.
  revert n. induction fuel as [|f IH]; intros n Hn.
  - change (2 ^ Z.of_nat 0) with 1 in Hn. assert (n = 0) as -> by lia.
    exists 0. split; [lia|]. intros v acc. cbn [decimal_digits]. f_equal.
    change (10 ^ 0) with 1. lia.
  - cbn [decimal_digits]. destruct (Z.ltb_spec n 10) as [Hlt|Hge].
    + exists 1. split; [lia|]. intros v acc. cbn [decimal_value].
      rewrite Z.mod_small by lia. rewrite digit_value_char by lia.
      f_equal. change (10 ^ 1) with 10. lia.
    + rewrite Nat2Z.inj_succ, Z.pow_succ_r in Hn by lia.
      destruct (IH (n / 10)) as (k & Hk0 & Hk).
      { split; [apply Z.div_pos; lia|apply Z.div_lt_upper_bound; lia]. }
      exists (k + 1). split; [lia|]. intros v acc. rewrite Hk. cbn [decimal_value].
      rewrite digit_value_char by (apply Z.mod_pos_bound; lia). f_equal.
      pose proof (Z.div_mod n 10 ltac:(lia)) as Hdm.
      rewrite Z.pow_add_r by lia. change (10 ^ 1) with 10. lia.
Qed.

(** [decimal] writes the number in base ten. *)
Lemma decimal_value_decimal n : 0 <= n -> decimal_value 0 (decimal n) = n.
Proof.
  intros Hn. unfold decimal.
  destruct (decimal_digits_value (S (Z.to_nat (Z.log2 n))) n) as (k & _ & Hk).
  - split; [assumption|].
    rewrite Nat2Z.inj_succ, Z2Nat.id by apply Z.log2_nonneg.
    destruct (Z.eq_dec n 0) as [->|Hne]; [reflexivity|].
    apply Z.log2_spec. lia.
  - rewrite Hk. cbn [decimal_value]. lia.
Qed.

(** ** Distinct levels in electron-volts *)

Lemma energy_eV_value Z0 n E :
  BohrAtom.energy_joule (atom Z0) n = Return E ->
  BohrAtom.energy (atom Z0) n "eV" = Return (E / _e)%float.
Proof.
  intros HE. unfold BohrAtom.energy. rewrite HE. cbn [bind atom BohrAtom._e].
  change (String.eqb (lower "eV") "j") with false.
  change (String.eqb (lower "eV") "ev") with true. cbv iota.
  unfold float_truediv. rewrite (finite_mag_nonzero _ _ _ _ e_mag). reflexivity.
Qed.

Local Open Scope Q_scope.

(** Below level [10 ** 12] the energies in electron-volts are strictly
    negative and their magnitudes strictly decreasing: the relative gap of
    the squares of two levels is larger than the rounding errors of the
    conversions, the two products, the quotient and the division by [e]. *)
Lemma energy_eV_strict Z0 n m :
  (1 <= Z0 <= 10 ^ 150)%Z -> (1 <= n)%Z -> (n < m)%Z -> (m <= 10 ^ 12)%Z ->
  exists V_n V_m,
    BohrAtom.energy (atom Z0) n "eV" = Return V_n
    /\ BohrAtom.energy (atom Z0) m "eV" = Return V_m
    /\ (V_n <? 0)%float = true /\ (V_m <? 0)%float = true
    /\ (abs V_m <? abs V_n)%float = true.
Proof.
  intros HZ Hn Hnm Hm.
  destruct (float_of_int_square Z0 HZ) as (fz & Hfz & Hmz).
  destruct (float_of_int_square_tiny n ltac:(lia)) as (fn & Hfn & Hmn).
  destruct (float_of_int_square_tiny m ltac:(lia)) as (fm & Hfm & Hmm).
  assert (HEn : BohrAtom.energy_joule (atom Z0) n
                = Return (- (E_num * fz) / (E_den * fn))%float).
  { rewrite energy_joule_atom by lia. unfold energy_expr. rewrite Hfz, Hfn. cbn [bind].
    pose proof (prim_mul_mag _ _ _ _ _ _ _ _ E_den_mag Hmn ltac:(lia) ltac:(lia)) as HB.
    unfold float_truediv, float_mul, float_neg.
    rewrite (finite_mag_nonzero _ _ _ _ HB). reflexivity. }
  assert (HEm : BohrAtom.energy_joule (atom Z0) m
                = Return (- (E_num * fz) / (E_den * fm))%float).
  { rewrite energy_joule_atom by lia. unfold energy_expr. rewrite Hfz, Hfm. cbn [bind].
    pose proof (prim_mul_mag _ _ _ _ _ _ _ _ E_den_mag Hmm ltac:(lia) ltac:(lia)) as HB.
    unfold float_truediv, float_mul, float_neg.
    rewrite (finite_mag_nonzero _ _ _ _ HB). reflexivity. }
  rewrite (energy_eV_value _ _ _ HEn), (energy_eV_value _ _ _ HEm).
  pose proof (prim_mul_mag _ _ _ _ _ _ _ _ E_num_mag Hmz ltac:(lia) ltac:(lia)) as HA0.
  pose proof (prim_opp_mag _ _ _ _ HA0) as HA. cbn [xorb negb] in HA.
  pose proof (prim_mul_err _ _ _ _ _ _ _ _ E_den_mag Hmn ltac:(lia) ltac:(lia)) as (HBn & Bn1 & Bn2).
  pose proof (prim_mul_err _ _ _ _ _ _ _ _ E_den_mag Hmm ltac:(lia) ltac:(lia)) as (HBm & Bm1 & Bm2).
  pose proof (prim_div_err _ _ _ _ _ _ _ _ HA HBn ltac:(lia) ltac:(lia)) as (HQn & En1 & En2).
  pose proof (prim_div_err _ _ _ _ _ _ _ _ HA HBm ltac:(lia) ltac:(lia)) as (HQm & Em1 & Em2).
  cbn [xorb] in *.
  pose proof (prim_div_err _ _ _ _ _ _ _ _ HQn e_mag ltac:(lia) ltac:(lia)) as (HVn & Vn1 & Vn2).
  pose proof (prim_div_err _ _ _ _ _ _ _ _ HQm e_mag ltac:(lia) ltac:(lia)) as (HVm & Vm1 & Vm2).
  cbn [xorb] in *.
  eexists _, _. split; [reflexivity|]. split; [reflexivity|].
  split; [eapply finite_mag_ltb_zero; exact HVn|].
  split; [eapply finite_mag_ltb_zero; exact HVm|].
  apply (prim_ltb_pvf _ _ _ _ _ _ (finite_mag_abs _ _ _ _ HVm) (finite_mag_abs _ _ _ _ HVn)).
  rewrite !pvf_abs.
  destruct (float_of_int_err (n ^ 2) fn) as [Fn1 Fn2]; [|assumption|].
  { destruct (pow2_tiny n ltac:(lia)). split; [lia|]. apply Z.lt_trans with (2 ^ 80)%Z; [lia|reflexivity]. }
  destruct (float_of_int_err (m ^ 2) fm) as [Fm1 Fm2]; [|assumption|].
  { destruct (pow2_tiny m ltac:(lia)). split; [lia|]. apply Z.lt_trans with (2 ^ 80)%Z; [lia|reflexivity]. }
  pose proof (pvf_pos _ _ _ _ HA) as Pa.
  pose proof (pvf_pos _ _ _ _ E_den_mag) as Pk.
  pose proof (pvf_pos _ _ _ _ e_mag) as Pe.
  pose proof (pvf_pos _ _ _ _ Hmn) as Pxn. pose proof (pvf_pos _ _ _ _ Hmm) as Pxm.
  pose proof (pvf_pos _ _ _ _ HBn) as Pbn. pose proof (pvf_pos _ _ _ _ HBm) as Pbm.
  pose proof (pvf_pos _ _ _ _ HQn) as Pen. pose proof (pvf_pos _ _ _ _ HQm) as Pem.
  pose proof (pvf_pos _ _ _ _ HVn) as Pvn. pose proof (pvf_pos _ _ _ _ HVm) as Pvm.
  set (a := pvf (- (E_num * fz))%float) in *. set (k := pvf E_den) in *.
  set (ke := pvf _e) in *.
  set (xn := pvf fn) in *. set (xm := pvf fm) in *.
  set (bn := pvf (E_den * fn)%float) in *. set (bm := pvf (E_den * fm)%float) in *.
  set (en := pvf (- (E_num * fz) / (E_den * fn))%float) in *.
  set (em := pvf (- (E_num * fz) / (E_den * fm))%float) in *.
  set (vn := pvf (- (E_num * fz) / (E_den * fn) / _e)%float) in *.
  set (vm := pvf (- (E_num * fz) / (E_den * fm) / _e)%float) in *.
  set (g0 := 1 # 10 ^ 12).
  assert (Hu : 0 <= u53 /\ u53 <= 1 # 8 /\ 32 * u53 <= g0 /\ 0 < u53)
    by (unfold u53, g0; repeat split; discriminate).
  assert (Hg0 : g0 <= 1) by (unfold g0; discriminate).
  assert (G0 : inject_Z (n ^ 2) * (1 + g0) <= inject_Z (m ^ 2)).
  { assert (Hz : (n ^ 2 * (10 ^ 12 + 1) <= m ^ 2 * 10 ^ 12)%Z) by nia.
    rewrite Zle_Qle, !inject_Z_mult in Hz.
    unfold g0. change (inject_Z (10 ^ 12 + 1)) with (1000000000001 # 1) in Hz.
    change (inject_Z (10 ^ 12)) with (1000000000000 # 1) in Hz.
    change (1 # 10 ^ 12) with (1 # 1000000000000). lra. }
  assert (PN2 : 0 < inject_Z (n ^ 2)) by (apply inject_Z_pos; nia).
  assert (G1 : xn * (1 + g0 - 4 * u53) <= xm).
  { apply (gap_step (inject_Z (n ^ 2)) (inject_Z (m ^ 2))); lra. }
  assert (G1' : k * xn * (1 + (g0 - 4 * u53)) <= k * xm) by nra.
  assert (G2 : bn * (1 + (g0 - 4 * u53) - 4 * u53) <= bm).
  { apply (gap_step (k * xn) (k * xm)); try lra. nra. }
  assert (Hdn : a / bn * bn == a) by (field; lra).
  assert (Hdm : a / bm * bm == a) by (field; lra).
  assert (Pdn : 0 < a / bn) by (apply Qlt_shift_div_l; lra).
  assert (Pdm : 0 < a / bm) by (apply Qlt_shift_div_l; lra).
  assert (G2' : a / bm * (1 + (g0 - 8 * u53)) <= a / bn).
  { assert (X : a / bm * (1 + (g0 - 8 * u53)) * bn <= a / bm * bm) by nra.
    rewrite Hdm in X. rewrite <- Hdn in X at 2.
    apply Qmult_le_r with bn; [lra|]. lra. }
  assert (G3 : em * (1 + (g0 - 8 * u53) - 4 * u53) <= en).
  { apply (gap_step (a / bm) (a / bn)); lra. }
  assert (Hqn : en / ke * ke == en) by (field; lra).
  assert (Hqm : em / ke * ke == em) by (field; lra).
  assert (Pqn : 0 < en / ke) by (apply Qlt_shift_div_l; lra).
  assert (Pqm : 0 < em / ke) by (apply Qlt_shift_div_l; lra).
  assert (G3' : em / ke * (1 + (g0 - 12 * u53)) <= en / ke).
  { apply Qmult_le_r with ke; [lra|]. rewrite Hqn.
    setoid_replace (em / ke * (1 + (g0 - 12 * u53)) * ke)
      with (em / ke * ke * (1 + (g0 - 12 * u53))) by ring.
    rewrite Hqm. lra. }
  assert (G4 : vm * (1 + (g0 - 12 * u53) - 4 * u53) <= vn).
  { apply (gap_step (em / ke) (en / ke)); lra. }
  assert (Pgap : 0 < vm * (g0 - 16 * u53)) by (apply Qmult_lt_0_compat; lra).
  lra.
Qed.

Local Close Scope Q_scope.

(** ** Properties of [BohrAtom] *)

(** C1 (as the code has it).  On every atom that [__init__] builds,
    [wavelength(n, n)] never returns: it raises [ZeroDivisionError] when
    [Z ** 2] and [n ** 2] have a float and [OverflowError] otherwise.  For two
    levels whose energies are returned, [wavelength] raises
    [ZeroDivisionError] when the two energies are the same float and returns
    [c / (abs(E_f - E_i) / h)], that is [c / frequency], when they differ. *)
Theorem wavelength_spec Z0 self :
  BohrAtom.__init__ Z0 = Return self ->
  (forall n, 1 <= n ->
     BohrAtom.wavelength self n n =
       if float_range (Z0 ^ 2) && float_range (n ^ 2)
       then Raise ZeroDivisionError else Raise OverflowError)
  /\ (forall n_i n_f E_i E_f,
        BohrAtom.energy_joule self n_i = Return E_i ->
        BohrAtom.energy_joule self n_f = Return E_f ->
        BohrAtom.frequency self n_i n_f = Return (abs (E_f - E_i) / _h)%float
        /\ BohrAtom.wavelength self n_i n_f =
             if (E_f =? E_i)%float then Raise ZeroDivisionError
             else Return (_c / (abs (E_f - E_i) / _h))%float).
Proof.
  intros Hinit. apply init_inv in Hinit. destruct Hinit as [HZ ->]. split.
  - intros n Hn.
    destruct (energy_joule_cases Z0 n HZ Hn) as [(-> & E & HE & HF)|(-> & HE)].
    + rewrite (wavelength_value Z0 n n E E HZ HE HE).
      rewrite (prim_eqb_ival E E true true HF HF), Z.eqb_refl. reflexivity.
    + unfold BohrAtom.wavelength, BohrAtom.frequency, BohrAtom.transition_energy_joule.
      rewrite HE. reflexivity.
  - intros n_i n_f E_i E_f Hi Hf. split.
    + apply frequency_value; assumption.
    + apply wavelength_value; assumption.
Qed.

Lemma wavelength_spec_witness :
  BohrAtom.wavelength (atom 1) 2 2 = Raise ZeroDivisionError
  /\ BohrAtom.wavelength (atom 1) 2 1 = Return 1.2150227341195295e-07%float.
Proof.
  destruct (wavelength_spec 1 (atom 1)) as [H1 H2]; [vm_compute; reflexivity|].
  split.
  - rewrite (H1 2) by lia. vm_compute. reflexivity.
  - edestruct (H2 2 1) as [_ H]; [vm_compute; reflexivity|vm_compute; reflexivity|].
    rewrite H. vm_compute. reflexivity.
Defined.

(** C1, the claim as stated fails: levels [10 ** 18] and [10 ** 18 + 1] of
    hydrogen are distinct and valid, yet their energies are the same float,
    the frequency is [0.0] and [wavelength] raises [ZeroDivisionError]
    instead of returning [c / frequency]. *)
Lemma wavelength_distinct_levels_raises :
  exists self, BohrAtom.__init__ 1 = Return self
    /\ 1 <= 10 ^ 18 /\ 1 <= 10 ^ 18 + 1 /\ 10 ^ 18 <> 10 ^ 18 + 1
    /\ BohrAtom.frequency self (10 ^ 18) (10 ^ 18 + 1) = Return 0%float
    /\ BohrAtom.wavelength self (10 ^ 18) (10 ^ 18 + 1) = Raise ZeroDivisionError.
Proof.
  exists (atom 1). repeat split; try (vm_compute; reflexivity); lia.
Qed.

(** C2.  [BohrAtom(Z)] raises [ValueError] for every integer [Z < 1], in
    particular for [0] and [-5]; for every [Z >= 1] it returns an atom
    that stores [Z] itself; and the Bohr radius of the atom built for
    [Z = 1] is within 0.1% of [5.29177e-11] metres. *)
Theorem init_spec :
  (forall Z0, Z0 < 1 -> BohrAtom.__init__ Z0 = Raise (ValueError BohrAtom.msg_Z))
  /\ BohrAtom.__init__ 0 = Raise (ValueError BohrAtom.msg_Z)
  /\ BohrAtom.__init__ (-5) = Raise (ValueError BohrAtom.msg_Z)
  /\ (forall Z0, 1 <= Z0 ->
        exists self, BohrAtom.__init__ Z0 = Return self /\ BohrAtom.Z self = Z0)
  /\ (exists self, BohrAtom.__init__ 1 = Return self
        /\ (Qabs (F2Q (BohrAtom.a0 self) - 5.29177e-11)
             <= (1 # 1000) * 5.29177e-11)%Q).
Proof.
  assert (Hlow : forall Z0, Z0 < 1 ->
            BohrAtom.__init__ Z0 = Raise (ValueError BohrAtom.msg_Z)).
  { intros Z0 H. unfold BohrAtom.__init__.
    rewrite (proj2 (Z.ltb_lt Z0 1)) by assumption. reflexivity. }
  split; [exact Hlow|]. split; [apply Hlow; lia|]. split; [apply Hlow; lia|]. split.
  - intros Z0 HZ. exists (atom Z0). split; [apply init_atom; assumption|reflexivity].
  - exists (atom 1). split; [apply init_atom; lia|].
    apply Qle_bool_iff. vm_compute. reflexivity.
Qed.

(** C3 (as the code has it).  On every atom that [__init__] builds,
    [energy_joule(n)] raises [ValueError] for [n < 1]; for [n >= 1] it is
    [-(m_e * e**4 * Z**2) / (8 * eps0**2 * h**2 * n**2)] computed in floats,
    an [OverflowError] when [Z ** 2] or [n ** 2] has no float.  A returned
    energy is finite and never positive; it is strictly negative at least
    while [Z] and [n] are at most [10 ** 150] (further up the quotient
    underflows to [-0.0]). *)
Theorem energy_joule_spec Z0 self :
  BohrAtom.__init__ Z0 = Return self ->
  (forall n, n < 1 -> BohrAtom.energy_joule self n = Raise (ValueError BohrAtom.msg_n))
  /\ (forall n, 1 <= n ->
        BohrAtom.energy_joule self n =
          (fz <- float_of_int (Z0 ^ 2) ;;
           fn <- float_of_int (n ^ 2) ;;
           Return (- (E_num * fz) / (E_den * fn))%float))
  /\ (forall n E, BohrAtom.energy_joule self n = Return E ->
        (E <=? 0)%float = true /\ is_finite_or_zero (Prim2SF E) = true)
  /\ (forall n, 1 <= n <= 10 ^ 150 -> Z0 <= 10 ^ 150 ->
        exists E, BohrAtom.energy_joule self n = Return E /\ (E <? 0)%float = true).
Proof.
  intros Hinit. apply init_inv in Hinit. destruct Hinit as [HZ ->].
  split; [intros n Hn; apply energy_joule_low; assumption|]. split; [|split].
  - intros n Hn. rewrite energy_joule_atom by assumption. unfold energy_expr.
    destruct (float_of_int (Z0 ^ 2)) as [fz|] eqn:Hfz; cbn [bind]; [|reflexivity].
    destruct (float_of_int (n ^ 2)) as [fn|] eqn:Hfn; cbn [bind]; [|reflexivity].
    pose proof (energy_expr_returns Z0 n fz fn HZ Hn Hfz Hfn) as [H _].
    unfold energy_expr in H. rewrite Hfz, Hfn in H. exact H.
  - intros n E HE. destruct (energy_joule_returned Z0 n E HZ HE) as [_ HF].
    split; [apply finite_or_zero_leb; assumption|eapply finite_or_zero_is; eassumption].
  - intros n Hn HZ0. rewrite energy_joule_atom by lia. unfold energy_expr.
    destruct (float_of_int_square Z0 ltac:(lia)) as (fz & Hfz & Hmz).
    destruct (float_of_int_square n Hn) as (fn & Hfn & Hmn).
    rewrite Hfz, Hfn. cbn [bind].
    apply finite_mag_weaken with (lo' := 1) (hi' := 1024) in Hmz; [|lia|lia].
    pose proof (energy_num_mag fz 1 ltac:(lia) Hmz) as HA.
    pose proof (energy_den_mag fn 1 1001 ltac:(lia) ltac:(lia) Hmn) as HB.
    unfold float_truediv. rewrite (finite_mag_nonzero _ _ _ _ HB).
    eexists. split; [reflexivity|].
    pose proof (prim_div_mag _ _ _ _ _ _ _ _ HA HB ltac:(lia) ltac:(lia)) as H.
    eapply finite_mag_ltb_zero. exact H.
Qed.

Lemma energy_joule_spec_witness :
  BohrAtom.energy_joule (atom 1) 0 = Raise (ValueError BohrAtom.msg_n)
  /\ exists E, BohrAtom.energy_joule (atom 1) 3 = Return E /\ (E <? 0)%float = true.
Proof.
  destruct (energy_joule_spec 1 (atom 1)) as (H1 & _ & _ & H4); [vm_compute; reflexivity|].
  split; [apply H1; lia|apply H4; [split; [lia|vm_compute; discriminate]|vm_compute; discriminate]].
Defined.

(** C3, the claim as stated fails: on hydrogen, level [2 ** 512] is valid
    but [energy_joule] raises [OverflowError] instead of returning, and at
    level [10 ** 154] it returns [-0.0], which is not strictly negative. *)
Lemma energy_joule_overflow_and_underflow :
  exists self, BohrAtom.__init__ 1 = Return self
    /\ 1 <= 2 ^ 512
    /\ BohrAtom.energy_joule self (2 ^ 512) = Raise OverflowError
    /\ 1 <= 10 ^ 154
    /\ BohrAtom.energy_joule self (10 ^ 154) = Return neg_zero
    /\ (neg_zero <? 0)%float = false.
Proof.
  exists (atom 1). repeat split; try (vm_compute; reflexivity); vm_compute; discriminate.
Qed.

(** C4 (as the code has it).  On every atom that [__init__] builds and for
    every level [n >= 1], [energy(n, unit)] first evaluates
    [energy_joule(n)].  When [Z ** 2] and [n ** 2] have a float,
    [energy_joule(n)] returns some [E] and [energy(n, unit)] returns [E]
    itself when the unit is [j] in either case, [E / e] when it is [ev] in
    any casing, and raises the unit [ValueError] for every other string.
    When [Z ** 2] or [n ** 2] has no float, [energy_joule(n)] raises
    [OverflowError] and so does [energy(n, unit)], whatever the unit
    string. *)
Theorem energy_spec Z0 self n unit :
  BohrAtom.__init__ Z0 = Return self -> 1 <= n ->
  (float_range (Z0 ^ 2) = true -> float_range (n ^ 2) = true ->
   exists E, BohrAtom.energy_joule self n = Return E
     /\ BohrAtom.energy self n unit =
          if String.eqb (lower unit) "j" then Return E
          else if String.eqb (lower unit) "ev" then Return (E / _e)%float
          else Raise (ValueError BohrAtom.msg_unit))
  /\ (float_range (Z0 ^ 2) && float_range (n ^ 2) = false ->
      BohrAtom.energy_joule self n = Raise OverflowError
      /\ BohrAtom.energy self n unit = Raise OverflowError)
  /\ (String.eqb (lower unit) "j" = true <-> unit = "j"%string \/ unit = "J"%string)
  /\ (String.eqb (lower unit) "ev" = true <->
      unit = "ev"%string \/ unit = "eV"%string \/ unit = "Ev"%string \/ unit = "EV"%string).
Proof.
  intros Hinit Hn. apply init_inv in Hinit. destruct Hinit as [HZ ->].
  split; [|split; [|split; [apply lower_j|apply lower_ev]]].
  - intros RZ Rn.
    destruct (energy_joule_cases Z0 n HZ Hn) as [(_ & E & HE & HF)|(Hr & _)].
    + exists E. split; [assumption|]. unfold BohrAtom.energy. rewrite HE. cbn [bind].
      destruct (String.eqb (lower unit) "j"); [reflexivity|].
      destruct (String.eqb (lower unit) "ev"); [|reflexivity].
      cbn [atom BohrAtom._e]. unfold float_truediv.
      rewrite (finite_mag_nonzero _ _ _ _ e_mag). reflexivity.
    + rewrite RZ, Rn in Hr. discriminate.
  - intros R.
    destruct (energy_joule_cases Z0 n HZ Hn) as [(Hr & _)|(_ & HE)].
    + rewrite R in Hr. discriminate.
    + split; [exact HE|]. unfold BohrAtom.energy. rewrite HE. reflexivity.
Qed.

Lemma energy_spec_witness :
  BohrAtom.energy (atom 1) 1 "eV" = Return (-13.605693122885842)%float
  /\ BohrAtom.energy (atom 1) 1 "J" = Return (-2.1798723610862185e-18)%float
  /\ BohrAtom.energy (atom 1) 1 "kJ" = Raise (ValueError BohrAtom.msg_unit)
  /\ BohrAtom.energy (atom 1) (2 ^ 512) "kJ" = Raise OverflowError.
Proof.
  assert (H : forall unit, exists E,
             BohrAtom.energy_joule (atom 1) 1 = Return E
             /\ BohrAtom.energy (atom 1) 1 unit =
                  if String.eqb (lower unit) "j" then Return E
                  else if String.eqb (lower unit) "ev" then Return (E / _e)%float
                  else Raise (ValueError BohrAtom.msg_unit)).
  { intros unit.
    destruct (energy_spec 1 (atom 1) 1 unit) as (H & _); [vm_compute; reflexivity|lia|].
    apply H; vm_compute; reflexivity. }
  split; [|split; [|split]].
  - destruct (H "eV"%string) as (E & HE & ->). vm_compute in HE. injection HE as <-.
    vm_compute. reflexivity.
  - destruct (H "J"%string) as (E & HE & ->). vm_compute in HE. injection HE as <-.
    vm_compute. reflexivity.
  - destruct (H "kJ"%string) as (E & HE & ->). vm_compute. reflexivity.
  - destruct (energy_spec 1 (atom 1) (2 ^ 512) "kJ") as (_ & H2 & _);
      [vm_compute; reflexivity|vm_compute; discriminate|].
    apply H2. vm_compute. reflexivity.
Defined.

(** C4, the claim as stated fails: on hydrogen, level [2 ** 512] is valid
    and [kJ] is not a unit, yet [energy] raises [OverflowError], not the
    unit [ValueError]. *)
Lemma energy_overflow_before_unit :
  exists self, BohrAtom.__init__ 1 = Return self
    /\ 1 <= 2 ^ 512
    /\ String.eqb (lower "kJ") "j" = false /\ String.eqb (lower "kJ") "ev" = false
    /\ BohrAtom.energy self (2 ^ 512) "kJ" = Raise OverflowError.
Proof.
  exists (atom 1). repeat split; try (vm_compute; reflexivity); vm_compute; discriminate.
Qed.

(** C5 (as the code has it).  On every atom that [__init__] builds,
    [radius(n)] raises [ValueError] for [n < 1]; for [n >= 1] it is the
    float [a0 * n**2 / Z], an [OverflowError] when [n ** 2] or [Z] has no
    float and a value otherwise; and [radius(1)] is [a0 / Z]. *)
Theorem radius_spec Z0 self :
  BohrAtom.__init__ Z0 = Return self ->
  (forall n, n < 1 -> BohrAtom.radius self n = Raise (ValueError BohrAtom.msg_n))
  /\ (forall n, 1 <= n ->
        BohrAtom.radius self n =
          (fn <- float_of_int (n ^ 2) ;;
           fz <- float_of_int Z0 ;;
           Return (BohrAtom.a0 self * fn / fz)%float))
  /\ (forall n, 1 <= n -> float_range (n ^ 2) = true -> float_range Z0 = true ->
        exists r, BohrAtom.radius self n = Return r)
  /\ BohrAtom.radius self 1 =
       (fz <- float_of_int Z0 ;; Return (BohrAtom.a0 self / fz)%float).
Proof.
  intros Hinit. apply init_inv in Hinit. destruct Hinit as [HZ ->].
  assert (Hform : forall n, 1 <= n ->
            BohrAtom.radius (atom Z0) n =
              (fn <- float_of_int (n ^ 2) ;;
               fz <- float_of_int Z0 ;;
               Return (BohrAtom.a0 (atom Z0) * fn / fz)%float)).
  { intros n Hn. unfold BohrAtom.radius.
    rewrite (proj2 (Z.ltb_ge n 1)) by assumption.
    unfold float_mul_int, float_truediv_int. cbn [atom BohrAtom.a0 BohrAtom.Z].
    destruct (float_of_int (n ^ 2)) as [fn|]; cbn [bind]; [|reflexivity].
    destruct (float_of_int Z0) as [fz|] eqn:Hfz; cbn [bind]; [|reflexivity].
    unfold float_truediv. rewrite (float_of_int_nonzero Z0 fz ltac:(lia) Hfz). reflexivity. }
  split; [intros n Hn; apply radius_low; assumption|].
  split; [exact Hform|]. split.
  - intros n Hn Rn RZ. rewrite Hform by assumption.
    destruct (float_range_true _ Rn) as (fn & ->).
    destruct (float_range_true _ RZ) as (fz & ->). cbn [bind]. eauto.
  - rewrite Hform by lia. change (float_of_int (1 ^ 2)) with (float_of_int 1).
    replace (float_of_int 1) with (Return 1%float) by (vm_compute; reflexivity).
    cbn [bind atom BohrAtom.a0].
    replace (a0_value * 1)%float with a0_value by (vm_compute; reflexivity). reflexivity.
Qed.

Lemma radius_spec_witness :
  BohrAtom.radius (atom 1) 0 = Raise (ValueError BohrAtom.msg_n)
  /\ BohrAtom.radius (atom 2) 3 = Return (a0_value * 9 / 2)%float
  /\ BohrAtom.radius (atom 2) 1 = Return (a0_value / 2)%float.
Proof.
  destruct (radius_spec 1 (atom 1)) as (H1 & _); [vm_compute; reflexivity|].
  destruct (radius_spec 2 (atom 2)) as (_ & H2 & _ & H4); [vm_compute; reflexivity|].
  split; [apply H1; lia|]. split.
  - rewrite (H2 3) by lia. vm_compute. reflexivity.
  - rewrite H4. vm_compute. reflexivity.
Defined.

(** C5, the claim as stated fails: on hydrogen, level [2 ** 512] is valid
    but [radius] raises [OverflowError] instead of returning a radius. *)
Lemma radius_overflow :
  exists self, BohrAtom.__init__ 1 = Return self
    /\ 1 <= 2 ^ 512
    /\ BohrAtom.radius self (2 ^ 512) = Raise OverflowError.
Proof.
  exists (atom 1). split; [vm_compute; reflexivity|].
  split; [vm_compute; discriminate|vm_compute; reflexivity].
Qed.

(** C6.  On every atom that [__init__] builds, for levels [n_i, n_f >= 1]
    and a unit that is [j] or [ev] in any casing, [transition_energy] is
    symmetric in the two levels, every value it returns is non-negative,
    and it does return when [Z ** 2], [n_i ** 2] and [n_f ** 2] have a
    float; the value is [abs] of the signed transition energy, divided by
    [e] for [ev]. *)
Theorem transition_energy_symmetric_nonneg Z0 self n_i n_f unit :
  BohrAtom.__init__ Z0 = Return self -> 1 <= n_i -> 1 <= n_f ->
  String.eqb (lower unit) "j" = true \/ String.eqb (lower unit) "ev" = true ->
  BohrAtom.transition_energy self n_i n_f unit = BohrAtom.transition_energy self n_f n_i unit
  /\ (forall v, BohrAtom.transition_energy self n_i n_f unit = Return v ->
        (0 <=? v)%float = true)
  /\ (forall dE, BohrAtom.transition_energy_joule self n_i n_f = Return dE ->
        BohrAtom.transition_energy self n_i n_f unit =
          if String.eqb (lower unit) "j" then Return (abs dE)
          else Return (abs dE / _e)%float)
  /\ (float_range (Z0 ^ 2) && float_range (n_i ^ 2) && float_range (n_f ^ 2) = true ->
        exists v, BohrAtom.transition_energy self n_i n_f unit = Return v).
Proof.
  intros Hinit Hi Hf Hunit. apply init_inv in Hinit. destruct Hinit as [HZ ->].
  assert (Hconv : forall dE,
            (if String.eqb (lower unit) "j" then Return (float_abs dE)
             else if String.eqb (lower unit) "ev"
                  then float_truediv (float_abs dE) (BohrAtom._e (atom Z0))
                  else Raise (ValueError BohrAtom.msg_unit)) =
            (if String.eqb (lower unit) "j" then Return (abs dE)
             else Return (abs dE / _e)%float)).
  { intros dE. destruct (String.eqb (lower unit) "j"); [reflexivity|].
    destruct Hunit as [Hu|Hu]; [discriminate|]. rewrite Hu.
    cbn [atom BohrAtom._e]. unfold float_truediv.
    rewrite (finite_mag_nonzero _ _ _ _ e_mag). reflexivity. }
  unfold BohrAtom.transition_energy.
  destruct (transition_energy_joule_cases Z0 n_i n_f HZ Hi Hf)
    as [(R & E_i & E_f & HEi & HFi & HEf & HFf & HT)|(R & HT)];
  destruct (transition_energy_joule_cases Z0 n_f n_i HZ Hf Hi)
    as [(R' & E_f' & E_i' & HEf' & _ & HEi' & _ & HT')|(R' & HT')];
    rewrite float_range_swap in R'; try (rewrite R in R'; discriminate).
  - rewrite HEf in HEf'. injection HEf' as <-. rewrite HEi in HEi'. injection HEi' as <-.
    rewrite HT, HT'. cbn [bind]. rewrite !Hconv.
    replace (abs (E_i - E_f)) with (abs (E_f - E_i)) by apply prim_abs_sub_comm.
    split; [reflexivity|]. split; [|split].
    + intros v Hv. apply sf_nonneg_leb.
      pose proof (sf_nonneg_abs_sub E_f E_i true true HFf HFi) as Hnn.
      destruct (String.eqb (lower unit) "j"); injection Hv as <-; [exact Hnn|].
      eapply sf_nonneg_div; [exact Hnn|exact e_mag].
    + intros dE HdE. injection HdE as <-. reflexivity.
    + intros _. destruct (String.eqb (lower unit) "j"); eauto.
  - rewrite HT, HT'. cbn [bind]. split; [reflexivity|]. split; [|split].
    + intros v Hv. discriminate.
    + intros dE HdE. discriminate.
    + intros Hr. rewrite Hr in R. discriminate.
Qed.

Lemma transition_energy_symmetric_nonneg_witness :
  BohrAtom.transition_energy (atom 1) 1 2 "eV" = BohrAtom.transition_energy (atom 1) 2 1 "eV"
  /\ BohrAtom.transition_energy (atom 1) 1 2 "eV" = Return 10.204269842164381%float.
Proof.
  destruct (transition_energy_symmetric_nonneg 1 (atom 1) 1 2 "eV") as (H1 & _ & _ & _);
    [vm_compute; reflexivity|lia|lia|right; vm_compute; reflexivity|].
  split; [exact H1|vm_compute; reflexivity].
Defined.

(** C7.  On every atom that [__init__] builds,
    [transition_energy_joule(n_i, n_f)] is [E(n_f) - E(n_i)] for the two
    results of [energy_joule]: when both energies are returned it returns
    their signed float difference, which is positive exactly when the
    final energy is the greater one, and it does so for all levels
    [>= 1] within the float range.  It performs no check of its own: a
    [ValueError] can only be the level error of [energy_joule], raised for
    [n_i < 1], or for [n_f < 1] once the energy of [n_i] is returned. *)
Theorem transition_energy_joule_spec Z0 self n_i n_f :
  BohrAtom.__init__ Z0 = Return self ->
  BohrAtom.transition_energy_joule self n_i n_f =
    (E_i <- BohrAtom.energy_joule self n_i ;;
     E_f <- BohrAtom.energy_joule self n_f ;;
     Return (E_f - E_i)%float)
  /\ (forall E_i E_f,
        BohrAtom.energy_joule self n_i = Return E_i ->
        BohrAtom.energy_joule self n_f = Return E_f ->
        BohrAtom.transition_energy_joule self n_i n_f = Return (E_f - E_i)%float
        /\ (0 <? E_f - E_i)%float = (E_i <? E_f)%float)
  /\ (1 <= n_i -> 1 <= n_f ->
      float_range (Z0 ^ 2) && float_range (n_i ^ 2) && float_range (n_f ^ 2) = true ->
      exists E_i E_f,
        BohrAtom.energy_joule self n_i = Return E_i
        /\ BohrAtom.energy_joule self n_f = Return E_f
        /\ BohrAtom.transition_energy_joule self n_i n_f = Return (E_f - E_i)%float)
  /\ (n_i < 1 ->
      BohrAtom.transition_energy_joule self n_i n_f = Raise (ValueError BohrAtom.msg_n))
  /\ (n_f < 1 -> (exists E_i, BohrAtom.energy_joule self n_i = Return E_i) ->
      BohrAtom.transition_energy_joule self n_i n_f = Raise (ValueError BohrAtom.msg_n))
  /\ (forall msg,
        BohrAtom.transition_energy_joule self n_i n_f = Raise (ValueError msg) ->
        msg = BohrAtom.msg_n /\ (n_i < 1 \/ n_f < 1)).
Proof.
  intros Hinit. apply init_inv in Hinit. destruct Hinit as [HZ ->].
  split; [reflexivity|]. split; [|split; [|split; [|split]]].
  - intros E_i E_f Hi Hf. split.
    + unfold BohrAtom.transition_energy_joule. rewrite Hi, Hf. reflexivity.
    + destruct (energy_joule_returned _ _ _ HZ Hi) as [_ Fi].
      destruct (energy_joule_returned _ _ _ HZ Hf) as [_ Ff].
      apply (prim_sub_pos E_f E_i true true Ff Fi).
  - intros Hi Hf R.
    destruct (transition_energy_joule_cases Z0 n_i n_f HZ Hi Hf)
      as [(_ & E_i & E_f & HEi & _ & HEf & _ & HT)|(R' & _)].
    + exists E_i, E_f. repeat split; assumption.
    + rewrite R in R'. discriminate.
  - intros Hi. unfold BohrAtom.transition_energy_joule.
    rewrite energy_joule_low by assumption. reflexivity.
  - intros Hf (E_i & Hi). unfold BohrAtom.transition_energy_joule.
    rewrite Hi. cbn [bind]. rewrite energy_joule_low by assumption. reflexivity.
  - intros msg H.
    destruct (Z.lt_ge_cases n_i 1) as [Hi|Hi].
    + unfold BohrAtom.transition_energy_joule in H.
      rewrite energy_joule_low in H by assumption. cbn [bind] in H.
      injection H as <-. split; [reflexivity|left; assumption].
    + destruct (Z.lt_ge_cases n_f 1) as [Hf|Hf].
      * unfold BohrAtom.transition_energy_joule in H.
        destruct (BohrAtom.energy_joule (atom Z0) n_i) as [E_i|ex] eqn:HEi; cbn [bind] in H.
        -- rewrite energy_joule_low in H by assumption. cbn [bind] in H.
           injection H as <-. split; [reflexivity|right; assumption].
        -- destruct (energy_joule_cases Z0 n_i HZ Hi) as [(_ & E & HE & _)|(_ & HE)];
             rewrite HE in HEi; [discriminate|]. injection HEi as <-. discriminate.
      * destruct (transition_energy_joule_cases Z0 n_i n_f HZ Hi Hf)
          as [(_ & E_i & E_f & _ & _ & _ & _ & HT)|(_ & HT)]; rewrite HT in H; discriminate.
Qed.

Lemma transition_energy_joule_spec_witness :
  BohrAtom.transition_energy_joule (atom 1) 1 2 = Return 1.6349042708146639e-18%float
  /\ BohrAtom.transition_energy_joule (atom 1) 2 1 = Return (-1.6349042708146639e-18)%float
  /\ BohrAtom.transition_energy_joule (atom 1) 0 1 = Raise (ValueError BohrAtom.msg_n)
  /\ BohrAtom.transition_energy_joule (atom 1) 1 0 = Raise (ValueError BohrAtom.msg_n).
Proof.
  assert (H : forall n_i n_f, _) by
    (intros n_i n_f; exact (transition_energy_joule_spec 1 (atom 1) n_i n_f eq_refl)).
  split; [|split; [|split]].
  - destruct (H 1 2) as (_ & _ & H3 & _).
    destruct H3 as (E_i & E_f & Hi & Hf & ->); [lia|lia|vm_compute; reflexivity|].
    vm_compute in Hi, Hf. injection Hi as <-. injection Hf as <-. vm_compute. reflexivity.
  - destruct (H 2 1) as (_ & _ & H3 & _).
    destruct H3 as (E_i & E_f & Hi & Hf & ->); [lia|lia|vm_compute; reflexivity|].
    vm_compute in Hi, Hf. injection Hi as <-. injection Hf as <-. vm_compute. reflexivity.
  - destruct (H 0 1) as (_ & _ & _ & H4 & _). apply H4. lia.
  - destruct (H 1 0) as (_ & _ & _ & _ & H5 & _). apply H5; [lia|].
    eexists. vm_compute. reflexivity.
Defined.

(** C8 (as the code has it).  On every atom that [__init__] builds, a
    returned energy is never positive and the magnitude of the energy never
    grows with the level: for [n <= m], [abs E(m) <= abs E(n)] and
    [E(n) <= E(m)], in joules and in electron-volts alike.  In joules and
    in electron-volts the energies are returned, strictly negative and their
    magnitudes strictly decreasing at least for levels up to [10 ** 12] (and
    [Z <= 10 ** 150]); far beyond, neighbouring levels share one float and
    the energy underflows to [-0.0]. *)
Theorem energy_levels_monotone Z0 self :
  BohrAtom.__init__ Z0 = Return self ->
  (forall n m E_n E_m, n <= m ->
     BohrAtom.energy_joule self n = Return E_n ->
     BohrAtom.energy_joule self m = Return E_m ->
     (E_n <=? 0)%float = true
     /\ (abs E_m <=? abs E_n)%float = true
     /\ (E_n <=? E_m)%float = true)
  /\ (forall n m V_n V_m, n <= m ->
        BohrAtom.energy self n "eV" = Return V_n ->
        BohrAtom.energy self m "eV" = Return V_m ->
        (V_n <=? 0)%float = true /\ (abs V_m <=? abs V_n)%float = true)
  /\ (forall n m, 1 <= n -> n < m -> m <= 10 ^ 12 -> Z0 <= 10 ^ 150 ->
        exists E_n E_m,
          BohrAtom.energy_joule self n = Return E_n
          /\ BohrAtom.energy_joule self m = Return E_m
          /\ (E_n <? 0)%float = true /\ (E_m <? 0)%float = true
          /\ (abs E_m <? abs E_n)%float = true)
  /\ (forall n m, 1 <= n -> n < m -> m <= 10 ^ 12 -> Z0 <= 10 ^ 150 ->
        exists V_n V_m,
          BohrAtom.energy self n "eV" = Return V_n
          /\ BohrAtom.energy self m "eV" = Return V_m
          /\ (V_n <? 0)%float = true /\ (V_m <? 0)%float = true
          /\ (abs V_m <? abs V_n)%float = true).
Proof.
  intros Hinit. apply init_inv in Hinit. destruct Hinit as [HZ ->].
  assert (Hmono : forall n m E_n E_m, n <= m ->
            BohrAtom.energy_joule (atom Z0) n = Return E_n ->
            BohrAtom.energy_joule (atom Z0) m = Return E_m ->
            finite_or_zero true E_n /\ finite_or_zero true E_m
            /\ (abs E_m <=? abs E_n)%float = true).
  { intros n m E_n E_m Hnm Hn Hm.
    destruct (energy_joule_returned Z0 n E_n HZ Hn) as [_ Fn].
    destruct (energy_joule_returned Z0 m E_m HZ Hm) as [_ Fm].
    split; [assumption|]. split; [assumption|].
    eapply energy_abs_mono; eassumption. }
  split; [|split; [|split]].
  - intros n m E_n E_m Hnm Hn Hm.
    destruct (Hmono n m E_n E_m Hnm Hn Hm) as (Fn & Fm & Habs).
    split; [apply finite_or_zero_leb; assumption|]. split; [assumption|].
    rewrite <- (abs_leb_nonpos E_n E_m Fn Fm). assumption.
  - intros n m V_n V_m Hnm Hn Hm.
    destruct (energy_eV_inv Z0 n V_n Hn) as (E_n & HEn & ->).
    destruct (energy_eV_inv Z0 m V_m Hm) as (E_m & HEm & ->).
    destruct (Hmono n m E_n E_m Hnm HEn HEm) as (Fn & Fm & Habs).
    split; [eapply finite_or_zero_div_nonpos; [exact Fn|exact e_mag]|].
    destruct e_mag as (me & ee & He & _).
    exact (prim_div_mono E_m E_n _e true true me ee Fm Fn He Habs).
  - intros n m Hn Hnm Hm HZ0. apply energy_abs_strict; lia.
  - intros n m Hn Hnm Hm HZ0. apply energy_eV_strict; lia.
Qed.

Lemma energy_levels_monotone_witness :
  (exists E_1 E_2,
     BohrAtom.energy_joule (atom 1) 1 = Return E_1
     /\ BohrAtom.energy_joule (atom 1) 2 = Return E_2
     /\ (E_1 <? 0)%float = true /\ (E_2 <? 0)%float = true
     /\ (abs E_2 <? abs E_1)%float = true)
  /\ (exists V_1 V_2,
        BohrAtom.energy (atom 1) 1 "eV" = Return V_1
        /\ BohrAtom.energy (atom 1) 2 "eV" = Return V_2
        /\ (V_1 <? 0)%float = true /\ (V_2 <? 0)%float = true
        /\ (abs V_2 <? abs V_1)%float = true).
Proof.
  destruct (energy_levels_monotone 1 (atom 1)) as (_ & _ & H3 & H4); [vm_compute; reflexivity|].
  split.
  - apply (H3 1 2); [lia|lia|vm_compute; discriminate|vm_compute; discriminate].
  - apply (H4 1 2); [lia|lia|vm_compute; discriminate|vm_compute; discriminate].
Defined.

(** C8, the claim as stated fails: on hydrogen the levels [10 ** 18] and
    [10 ** 18 + 1] have the same energy, so the magnitude does not strictly
    decrease, and at level [10 ** 154] the energy is [-0.0], which is not
    strictly negative. *)
Lemma energy_levels_collide :
  exists self E, BohrAtom.__init__ 1 = Return self
    /\ 1 <= 10 ^ 18 /\ 10 ^ 18 < 10 ^ 18 + 1
    /\ BohrAtom.energy_joule self (10 ^ 18) = Return E
    /\ BohrAtom.energy_joule self (10 ^ 18 + 1) = Return E
    /\ (abs E <? abs E)%float = false
    /\ BohrAtom.energy_joule self (10 ^ 154) = Return neg_zero
    /\ (neg_zero <? 0)%float = false.
Proof.
  exists (atom 1). eexists.
  split; [vm_compute; reflexivity|]. split; [vm_compute; discriminate|].
  split; [lia|]. split; [vm_compute; reflexivity|].
  split; [vm_compute; reflexivity|]. split; [vm_compute; reflexivity|].
  split; vm_compute; reflexivity.
Qed.

(** C9 (as the code has it).  On every atom that [__init__] builds,
    [frequency(n_i, n_f)] is [abs(dE) / h] for the signed transition energy
    [dE]; every returned frequency is non-negative; a level below [1] gives
    the [ValueError] of [energy_joule]; levels [>= 1] in the float range
    give a value.  When the frequency returned is neither zero nor
    infinite, [wavelength] returns [c / frequency] and
    [frequency * wavelength] is within [3 * 2 ** -53] of [c], relatively;
    this is the case of distinct levels up to [10 ** 12], where the
    frequency is positive. *)
Theorem frequency_spec Z0 self n_i n_f :
  BohrAtom.__init__ Z0 = Return self ->
  BohrAtom.frequency self n_i n_f =
    (dE <- BohrAtom.transition_energy_joule self n_i n_f ;; Return (abs dE / _h)%float)
  /\ (forall nu, BohrAtom.frequency self n_i n_f = Return nu -> (0 <=? nu)%float = true)
  /\ (n_i < 1 -> BohrAtom.frequency self n_i n_f = Raise (ValueError BohrAtom.msg_n))
  /\ (n_f < 1 -> (exists E_i, BohrAtom.energy_joule self n_i = Return E_i) ->
      BohrAtom.frequency self n_i n_f = Raise (ValueError BohrAtom.msg_n))
  /\ (1 <= n_i -> 1 <= n_f ->
      float_range (Z0 ^ 2) && float_range (n_i ^ 2) && float_range (n_f ^ 2) = true ->
      exists nu, BohrAtom.frequency self n_i n_f = Return nu)
  /\ (forall nu, BohrAtom.frequency self n_i n_f = Return nu ->
        (0 <? nu)%float = true -> (nu <? infinity)%float = true ->
        BohrAtom.wavelength self n_i n_f = Return (_c / nu)%float
        /\ (Qabs (F2Q (nu * (_c / nu))%float - F2Q _c) <= (3 # 2 ^ 53) * F2Q _c)%Q)
  /\ (1 <= n_i <= 10 ^ 12 -> 1 <= n_f <= 10 ^ 12 -> n_i <> n_f -> Z0 <= 10 ^ 150 ->
      exists nu, BohrAtom.frequency self n_i n_f = Return nu /\ (0 <? nu)%float = true).
Proof.
  intros Hinit. apply init_inv in Hinit. destruct Hinit as [HZ ->].
  assert (Hform : BohrAtom.frequency (atom Z0) n_i n_f =
            (dE <- BohrAtom.transition_energy_joule (atom Z0) n_i n_f ;;
             Return (abs dE / _h)%float)).
  { unfold BohrAtom.frequency.
    destruct (BohrAtom.transition_energy_joule (atom Z0) n_i n_f); [|reflexivity].
    cbn [bind atom BohrAtom._h]. unfold float_truediv.
    rewrite (finite_mag_nonzero _ _ _ _ h_mag). reflexivity. }
  split; [exact Hform|]. split; [|split; [|split; [|split; [|split]]]].
  - intros nu Hnu. destruct (frequency_inv Z0 n_i n_f nu Hnu) as (E_i & E_f & Hi & Hf & ->).
    destruct (energy_joule_returned _ _ _ HZ Hi) as [_ Fi].
    destruct (energy_joule_returned _ _ _ HZ Hf) as [_ Ff].
    apply sf_nonneg_leb. eapply sf_nonneg_div; [|exact h_mag].
    eapply sf_nonneg_abs_sub; eassumption.
  - intros Hi. rewrite Hform. unfold BohrAtom.transition_energy_joule.
    rewrite energy_joule_low by assumption. reflexivity.
  - intros Hf (E_i & Hi). rewrite Hform. unfold BohrAtom.transition_energy_joule.
    rewrite Hi. cbn [bind]. rewrite energy_joule_low by assumption. reflexivity.
  - intros Hi Hf R. rewrite Hform.
    destruct (transition_energy_joule_cases Z0 n_i n_f HZ Hi Hf)
      as [(_ & E_i & E_f & _ & _ & _ & _ & HT)|(R' & _)].
    + rewrite HT. cbn [bind]. eauto.
    + rewrite R in R'. discriminate.
  - intros nu Hnu Hpos Hfin.
    destruct (frequency_inv Z0 n_i n_f nu Hnu) as (E_i & E_f & Hi & Hf & Heq).
    destruct (energy_joule_returned _ _ _ HZ Hi) as [_ Fi].
    destruct (energy_joule_returned _ _ _ HZ Hf) as [_ Ff].
    destruct (frequency_mag E_f E_i true true nu Ff Fi Heq Hpos Hfin) as (mu & Hmu & Hlo).
    split.
    + unfold BohrAtom.wavelength. rewrite Hnu. cbn [bind atom BohrAtom._c].
      unfold float_truediv. rewrite (finite_mag_nonzero _ _ _ _ Hmu). reflexivity.
    + assert (Hhi : mu <= 1024).
      { destruct Hmu as (m & e & H & Hm).
        pose proof (valid_mag _ _ _ (prim_valid_finite _ _ _ _ H)). lia. }
      pose proof (prim_div_mag _ _ _ _ _ _ _ _ c_mag Hmu ltac:(lia) ltac:(lia)) as Hw.
      pose proof (prim_mul_mag _ _ _ _ _ _ _ _ Hmu Hw ltac:(lia) ltac:(lia)) as Hp.
      cbn [xorb] in Hw, Hp.
      rewrite (F2Q_pvf _ _ _ Hp), (F2Q_pvf _ _ _ c_mag).
      exact (round_trip nu mu Hmu Hlo).
  - intros Hi Hf Hne HZ0.
    assert (Hstrict : exists E_i E_f,
              BohrAtom.energy_joule (atom Z0) n_i = Return E_i
              /\ BohrAtom.energy_joule (atom Z0) n_f = Return E_f
              /\ finite_or_zero true E_i /\ finite_or_zero true E_f
              /\ (E_f =? E_i)%float = false).
    { destruct (Z.lt_total n_i n_f) as [Hlt|[Heq|Hgt]]; [|contradiction|].
      - destruct (energy_abs_strict Z0 n_i n_f ltac:(lia) ltac:(lia) Hlt ltac:(lia))
          as (E_i & E_f & HEi & HEf & Ni & Nf & Hs).
        exists E_i, E_f. split; [assumption|]. split; [assumption|].
        destruct (energy_joule_returned _ _ _ HZ HEi) as [_ Fi].
        destruct (energy_joule_returned _ _ _ HZ HEf) as [_ Ff].
        split; [assumption|]. split; [assumption|].
        destruct Fi as [Zi|(mi & ei & Pi)];
          [rewrite ltb_spec, Zi in Ni; discriminate|].
        destruct Ff as [Zf|(mf & ef & Pf)];
          [rewrite ltb_spec, Zf in Nf; discriminate|].
        apply (abs_ltb_neq E_f E_i (mag mf ef) (mag mf ef) (mag mi ei) (mag mi ei));
          [exists mf, ef; split; [assumption|lia]|exists mi, ei; split; [assumption|lia]|assumption].
      - destruct (energy_abs_strict Z0 n_f n_i ltac:(lia) ltac:(lia) Hgt ltac:(lia))
          as (E_f & E_i & HEf & HEi & Nf & Ni & Hs).
        exists E_i, E_f. split; [assumption|]. split; [assumption|].
        destruct (energy_joule_returned _ _ _ HZ HEi) as [_ Fi].
        destruct (energy_joule_returned _ _ _ HZ HEf) as [_ Ff].
        split; [assumption|]. split; [assumption|].
        destruct Fi as [Zi|(mi & ei & Pi)];
          [rewrite ltb_spec, Zi in Ni; discriminate|].
        destruct Ff as [Zf|(mf & ef & Pf)];
          [rewrite ltb_spec, Zf in Nf; discriminate|].
        assert (Hne' : (E_i =? E_f)%float = false).
        { apply (abs_ltb_neq E_i E_f (mag mi ei) (mag mi ei) (mag mf ef) (mag mf ef));
            [exists mi, ei; split; [assumption|lia]|exists mf, ef; split; [assumption|lia]|assumption]. }
        rewrite eqb_spec in *. unfold SFeqb in *.
        rewrite Pi, Pf in *. cbn [SFcompare] in *.
        rewrite Z.compare_antisym in Hne'.
        destruct (ef ?= ei)%Z; cbn [CompOpp] in *; try reflexivity.
        rewrite Pos.compare_cont_antisym in Hne'. cbn [CompOpp] in Hne'.
        destruct (Pos.compare_cont Eq mf mi); cbn [CompOpp] in *; try reflexivity; discriminate. }
    destruct Hstrict as (E_i & E_f & HEi & HEf & Fi & Ff & Hneq).
    exists (abs (E_f - E_i) / _h)%float. split; [apply frequency_value; assumption|].
    apply nonneg_nonzero_pos.
    + eapply sf_nonneg_div; [|exact h_mag]. eapply sf_nonneg_abs_sub; eassumption.
    + rewrite (abs_sub_div_zero E_f E_i true true _h (-110) (-110) Ff Fi h_mag ltac:(lia)).
      exact Hneq.
Qed.

Lemma frequency_spec_witness :
  exists nu,
    BohrAtom.frequency (atom 1) 2 1 = Return nu
    /\ BohrAtom.wavelength (atom 1) 2 1 = Return (_c / nu)%float
    /\ (Qabs (F2Q (nu * (_c / nu))%float - F2Q _c) <= (3 # 2 ^ 53) * F2Q _c)%Q.
Proof.
  destruct (frequency_spec 1 (atom 1) 2 1) as (_ & _ & _ & _ & _ & H & _);
    [vm_compute; reflexivity|].
  eexists. split; [vm_compute; reflexivity|].
  apply H; vm_compute; reflexivity.
Defined.

(** C9, the claim as stated fails.  On hydrogen the distinct valid levels
    [10 ** 20] and [10 ** 20 + 1] have frequency [0.0] and [wavelength]
    raises [ZeroDivisionError], so there is no product to compare with [c];
    and on the atom with [Z = 10 ** 154] the frequency between levels [1]
    and [2] is infinite, the wavelength is [0.0] and their product is NaN. *)
Lemma frequency_round_trip_fails :
  (exists self, BohrAtom.__init__ 1 = Return self
     /\ 1 <= 10 ^ 20 /\ 10 ^ 20 <> 10 ^ 20 + 1
     /\ BohrAtom.frequency self (10 ^ 20) (10 ^ 20 + 1) = Return 0%float
     /\ BohrAtom.wavelength self (10 ^ 20) (10 ^ 20 + 1) = Raise ZeroDivisionError)
  /\ (exists self, BohrAtom.__init__ (10 ^ 154) = Return self
        /\ BohrAtom.frequency self 1 2 = Return infinity
        /\ BohrAtom.wavelength self 1 2 = Return 0%float
        /\ (infinity * 0)%float = nan).
Proof.
  split.
  - exists (atom 1). split; [vm_compute; reflexivity|]. split; [vm_compute; discriminate|].
    split; [lia|]. split; vm_compute; reflexivity.
  - exists (atom (10 ^ 154)). split; [vm_compute; reflexivity|].
    split; [vm_compute; reflexivity|]. split; vm_compute; reflexivity.
Qed.

(** C10.  [energy(n, unit)] checks the level first: for every [n < 1] and
    every unit string, recognised or not, it raises the [ValueError] of
    [energy_joule], whose message differs from that of the unit error. *)
Theorem energy_checks_level_first (self : BohrAtom.t) (n : int) (unit : string) :
  n < 1 ->
  BohrAtom.energy self n unit = Raise (ValueError BohrAtom.msg_n)
  /\ BohrAtom.energy self n unit = BohrAtom.energy_joule self n
  /\ ValueError BohrAtom.msg_n <> ValueError BohrAtom.msg_unit.
Proof.
  intros Hn. unfold BohrAtom.energy. rewrite energy_joule_low by assumption.
  split; [reflexivity|]. split; [reflexivity|]. discriminate.
Qed.

Lemma energy_checks_level_first_witness :
  BohrAtom.energy (atom 1) 0 "parsec" = Raise (ValueError BohrAtom.msg_n)
  /\ BohrAtom.energy (atom 1) (-3) "eV" = Raise (ValueError BohrAtom.msg_n).
Proof.
  split.
  - apply (energy_checks_level_first (atom 1) 0 "parsec"). lia.
  - apply (energy_checks_level_first (atom 1) (-3) "eV"). lia.
Defined.

(** ** Further properties of [BohrAtom] *)

(** X1.  Whatever [Z] it is built with, an atom stores that [Z], which is at
    least [1], copies of the module constants, and one and the same Bohr
    radius [a0 = 5.291772109060855e-11], a positive float that does not
    depend on [Z]. *)
Theorem init_constants Z0 self :
  BohrAtom.__init__ Z0 = Return self ->
  1 <= Z0 /\ BohrAtom.Z self = Z0
  /\ BohrAtom.a0 self = 5.291772109060855e-11%float
  /\ (0 <? BohrAtom.a0 self)%float = true
  /\ BohrAtom._h self = _h /\ BohrAtom._hbar self = _hbar
  /\ BohrAtom._e self = _e /\ BohrAtom._m_e self = _m_e
  /\ BohrAtom._epsilon0 self = _epsilon0 /\ BohrAtom._c self = _c.
Proof.
  intros Hinit. apply init_inv in Hinit. destruct Hinit as [HZ ->].
  split; [assumption|]. cbn [atom BohrAtom.Z BohrAtom.a0 BohrAtom._h BohrAtom._hbar
    BohrAtom._e BohrAtom._m_e BohrAtom._epsilon0 BohrAtom._c].
  repeat split; vm_compute; reflexivity.
Qed.

Lemma init_constants_witness :
  exists self, BohrAtom.__init__ 26 = Return self
    /\ BohrAtom.Z self = 26 /\ BohrAtom.a0 self = 5.291772109060855e-11%float.
Proof.
  exists (atom 26). split; [vm_compute; reflexivity|].
  destruct (init_constants 26 (atom 26)) as (_ & H1 & H2 & _); [vm_compute; reflexivity|].
  split; assumption.
Defined.

(** X2.  For [Z] and [n] up to [10 ** 100], [energy_joule(n)] returns a
    float within [2 ** -49], relatively, of the exact value of the Bohr
    formula [- (m_e * e^4 * Z^2) / (8 * epsilon0^2 * h^2 * n^2)] on the
    decimal constants of the source, and [energy(n, "eV")] returns a float
    within [2 ** -49] of that value divided by [e]. *)
Theorem energy_accuracy Z0 self n :
  BohrAtom.__init__ Z0 = Return self -> Z0 <= 10 ^ 100 -> 1 <= n <= 10 ^ 100 ->
  exists E V,
    BohrAtom.energy_joule self n = Return E
    /\ BohrAtom.energy self n "eV" = Return V
    /\ (Qabs (F2Q E - bohr_energy Z0 n) <= (1 # 2 ^ 49) * Qabs (bohr_energy Z0 n))%Q
    /\ (Qabs (F2Q V - bohr_energy Z0 n / CODATA.e)
        <= (1 # 2 ^ 49) * Qabs (bohr_energy Z0 n / CODATA.e))%Q.
Proof.
  intros Hinit HZ0 Hn. apply init_inv in Hinit. destruct Hinit as [HZ ->].
  destruct (energy_eV_accuracy_atom Z0 n ltac:(lia) Hn)
    as (E & HE & HmE & WE & HV & HmV & WV).
  exists E, (E / _e)%float. split; [assumption|]. split; [assumption|].
  assert (PZ : (0 < inject_Z (Z0 ^ 2))%Q) by (apply inject_Z_pos; nia).
  assert (PN : (0 < inject_Z (n ^ 2))%Q) by (apply inject_Z_pos; nia).
  pose proof K_num_pos as PK. pose proof K_den_pos as PD.
  assert (PA : (0 <= K_num * inject_Z (Z0 ^ 2))%Q) by (apply Qmult_le_0_compat; lra).
  assert (PB : (0 < K_den * inject_Z (n ^ 2))%Q) by (apply Qmult_lt_0_compat; lra).
  assert (PQ : (0 <= K_num * inject_Z (Z0 ^ 2) / (K_den * inject_Z (n ^ 2)))%Q).
  { apply Qle_shift_div_l; lra. }
  assert (Pe : (0 < CODATA.e)%Q) by reflexivity.
  assert (PV : (0 <= K_num * inject_Z (Z0 ^ 2) / (K_den * inject_Z (n ^ 2)) / CODATA.e)%Q).
  { apply Qle_shift_div_l; lra. }
  pose proof (bohr_energy_neg Z0 n ltac:(lia)) as HB.
  split.
  - apply (within_Qabs_neg _ (pvf E) (K_num * inject_Z (Z0 ^ 2) / (K_den * inject_Z (n ^ 2)))%Q);
      [exact PQ|exact (F2Q_neg_pvf _ _ _ HmE)|exact HB|].
    eapply within_weaken; [exact PQ| | |exact WE]; qcmp.
  - apply (within_Qabs_neg _ (pvf (E / _e)%float)
             (K_num * inject_Z (Z0 ^ 2) / (K_den * inject_Z (n ^ 2)) / CODATA.e)%Q);
      [exact PV|exact (F2Q_neg_pvf _ _ _ HmV)| |].
    + rewrite HB. field. lra.
    + eapply within_weaken; [exact PV| | |exact WV]; qcmp.
Qed.

Lemma energy_accuracy_witness :
  exists E V,
    BohrAtom.energy_joule (atom 1) 1 = Return E
    /\ BohrAtom.energy (atom 1) 1 "eV" = Return V
    /\ (Qabs (F2Q E - bohr_energy 1 1) <= (1 # 2 ^ 49) * Qabs (bohr_energy 1 1))%Q
    /\ (Qabs (F2Q V - bohr_energy 1 1 / CODATA.e)
        <= (1 # 2 ^ 49) * Qabs (bohr_energy 1 1 / CODATA.e))%Q.
Proof.
  apply (energy_accuracy 1 (atom 1) 1);
    [vm_compute; reflexivity|vm_compute; discriminate
    |split; [lia|vm_compute; discriminate]].
Defined.

(** X3.  At a given level the energy deepens with the nuclear charge: for
    atoms built with [Z1 <= Z2], the energy of level [n] on the second is at
    most that on the first, and its magnitude at least as large, whenever
    both are returned. *)
Theorem energy_deepens_with_charge Z1 Z2 self1 self2 n E1 E2 :
  BohrAtom.__init__ Z1 = Return self1 ->
  BohrAtom.__init__ Z2 = Return self2 -> Z1 <= Z2 ->
  BohrAtom.energy_joule self1 n = Return E1 ->
  BohrAtom.energy_joule self2 n = Return E2 ->
  (E2 <=? E1)%float = true /\ (abs E1 <=? abs E2)%float = true.
Proof.
  intros H1 H2 Hle HE1 HE2.
  apply init_inv in H1. destruct H1 as [HZ1 ->].
  apply init_inv in H2. destruct H2 as [HZ2 ->].
  destruct (energy_joule_returned _ _ _ HZ1 HE1) as [_ F1].
  destruct (energy_joule_returned _ _ _ HZ2 HE2) as [_ F2].
  assert (Habs : (abs E1 <=? abs E2)%float = true).
  { destruct (energy_joule_inv Z1 n E1 HZ1 HE1) as (Hn & fz1 & fn & Hfz1 & Hfn & Hmz1 & Hmn & ->).
    destruct (energy_joule_inv Z2 n E2 HZ2 HE2) as (_ & fz2 & fn' & Hfz2 & Hfn' & Hmz2 & _ & ->).
    rewrite Hfn in Hfn'. apply Return_inj in Hfn'. subst fn'.
    pose proof (float_of_int_mono (Z1 ^ 2) (Z2 ^ 2) fz1 fz2 ltac:(nia) Hfz1 Hfz2) as Hz.
    destruct E_num_mag as (mk & ek & Hk & _).
    pose proof Hmz1 as (m1 & e1 & Hp1 & _). pose proof Hmz2 as (m2 & e2 & Hp2 & _).
    pose proof (prim_mul_mono E_num fz1 fz2 _ _ _ _ _ _ Hk Hp1 Hp2 Hz) as Hnum.
    pose proof (prim_mul_mag _ _ _ _ _ _ _ _ E_num_mag Hmz1 ltac:(lia) ltac:(lia)) as N1.
    pose proof (prim_mul_mag _ _ _ _ _ _ _ _ E_num_mag Hmz2 ltac:(lia) ltac:(lia)) as N2.
    cbn [xorb] in N1, N2.
    destruct (energy_den_mag fn 1 1024 ltac:(lia) ltac:(lia) Hmn) as (md & ed & Hd & _).
    unfold float_mul in Hd.
    apply (prim_div_mono _ _ (E_den * fn)%float true true md ed);
      [eapply finite_mag_finite_or_zero; exact (prim_opp_mag false _ _ _ N1)
      |eapply finite_mag_finite_or_zero; exact (prim_opp_mag false _ _ _ N2)
      |exact Hd|].
    rewrite (abs_opp_finite _ _ _ N1), (abs_opp_finite _ _ _ N2). exact Hnum. }
  split; [|exact Habs].
  rewrite <- (abs_leb_nonpos E2 E1 F2 F1). exact Habs.
Qed.

Lemma energy_deepens_with_charge_witness :
  exists E1 E2,
    BohrAtom.energy_joule (atom 1) 2 = Return E1
    /\ BohrAtom.energy_joule (atom 3) 2 = Return E2
    /\ (E2 <=? E1)%float = true /\ (abs E1 <=? abs E2)%float = true.
Proof.
  eexists _, _. split; [vm_compute; reflexivity|]. split; [vm_compute; reflexivity|].
  apply (energy_deepens_with_charge 1 3 (atom 1) (atom 3) 2);
    try (vm_compute; reflexivity). lia.
Defined.

(** X4.  Every radius that [radius] returns on a built atom is a finite,
    strictly positive float: the product [a0 * n**2] cannot overflow and the
    quotient by [Z] cannot underflow to zero. *)
Theorem radius_positive_finite Z0 self n r :
  BohrAtom.__init__ Z0 = Return self ->
  BohrAtom.radius self n = Return r ->
  1 <= n /\ (0 <? r)%float = true /\ (r <? infinity)%float = true.
Proof.
  intros Hinit Hr. apply init_inv in Hinit. destruct Hinit as [HZ ->].
  destruct (radius_inv Z0 n r HZ Hr) as (Hn & fn & fz & _ & _ & Hmn & Hmz & ->).
  split; [assumption|].
  exact (finite_mag_positive _ _ _ (radius_value_mag fn fz Hmn Hmz)).
Qed.

Lemma radius_positive_finite_witness :
  exists r, BohrAtom.radius (atom 2) 3 = Return r
    /\ (0 <? r)%float = true /\ (r <? infinity)%float = true.
Proof.
  eexists. split; [vm_compute; reflexivity|].
  apply (radius_positive_finite 2 (atom 2) 3); vm_compute; reflexivity.
Defined.

(** X5.  On a built atom the radius never decreases with the level: for
    [n <= m], [radius(n) <= radius(m)] whenever both are returned; and for
    levels up to [10 ** 12] (and [Z <= 10 ** 100]) the radii are returned and
    strictly increasing. *)
Theorem radius_monotone_in_level Z0 self :
  BohrAtom.__init__ Z0 = Return self ->
  (forall n m r_n r_m, n <= m ->
     BohrAtom.radius self n = Return r_n ->
     BohrAtom.radius self m = Return r_m ->
     (r_n <=? r_m)%float = true)
  /\ (forall n m, Z0 <= 10 ^ 100 -> 1 <= n -> n < m -> m <= 10 ^ 12 ->
        exists r_n r_m,
          BohrAtom.radius self n = Return r_n
          /\ BohrAtom.radius self m = Return r_m
          /\ (r_n <? r_m)%float = true).
Proof.
  intros Hinit. apply init_inv in Hinit. destruct Hinit as [HZ ->]. split.
  - intros n m r_n r_m Hnm Hn Hm.
    destruct (radius_inv Z0 n r_n HZ Hn) as (Hn1 & fn & fz & Hfn & Hfz & Hmn & Hmz & ->).
    destruct (radius_inv Z0 m r_m HZ Hm) as (Hm1 & fm & fz' & Hfm & Hfz' & Hmm & _ & ->).
    rewrite Hfz in Hfz'. apply Return_inj in Hfz'. subst fz'.
    pose proof (float_of_int_mono (n ^ 2) (m ^ 2) fn fm ltac:(nia) Hfn Hfm) as Hle.
    destruct a0_mag as (ma & ea & Ha & _).
    pose proof Hmn as (mn & en & Hpn & _). pose proof Hmm as (mm & em & Hpm & _).
    pose proof (prim_mul_mono a0_value fn fm _ _ _ _ _ _ Ha Hpn Hpm Hle) as Hprod.
    pose proof (radius_product_mag fn 1 1024 ltac:(lia) ltac:(lia) Hmn) as Pn.
    pose proof (radius_product_mag fm 1 1024 ltac:(lia) ltac:(lia) Hmm) as Pm.
    pose proof Hmz as (mz & ez & Hpz & _).
    rewrite <- (abs_finite_pos _ _ _ (radius_value_mag fn fz Hmn Hmz)).
    rewrite <- (abs_finite_pos _ _ _ (radius_value_mag fm fz Hmm Hmz)).
    apply (prim_div_mono _ _ fz false false mz ez);
      [eapply finite_mag_finite_or_zero; exact Pn
      |eapply finite_mag_finite_or_zero; exact Pm|exact Hpz|].
    rewrite (abs_finite_pos _ _ _ Pn), (abs_finite_pos _ _ _ Pm). exact Hprod.
  - intros n m HZ0 Hn Hnm Hm. apply radius_strict_atom; lia.
Qed.

Lemma radius_monotone_in_level_witness :
  exists r_2 r_3,
    BohrAtom.radius (atom 1) 2 = Return r_2
    /\ BohrAtom.radius (atom 1) 3 = Return r_3
    /\ (r_2 <? r_3)%float = true.
Proof.
  destruct (radius_monotone_in_level 1 (atom 1)) as [_ H]; [vm_compute; reflexivity|].
  apply (H 2 3); [vm_compute; discriminate|lia|lia|vm_compute; discriminate].
Defined.

(** X6.  The radius of a level never grows with the nuclear charge: for
    atoms built with [Z1 <= Z2], [radius(n)] on the second is at most
    [radius(n)] on the first whenever both are returned. *)
Theorem radius_antitone_in_charge Z1 Z2 self1 self2 n r1 r2 :
  BohrAtom.__init__ Z1 = Return self1 ->
  BohrAtom.__init__ Z2 = Return self2 -> Z1 <= Z2 ->
  BohrAtom.radius self1 n = Return r1 ->
  BohrAtom.radius self2 n = Return r2 ->
  (r2 <=? r1)%float = true.
Proof.
  intros H1 H2 Hle Hr1 Hr2.
  apply init_inv in H1. destruct H1 as [HZ1 ->].
  apply init_inv in H2. destruct H2 as [HZ2 ->].
  destruct (radius_inv Z1 n r1 HZ1 Hr1) as (Hn1 & fn & fz1 & Hfn & Hfz1 & Hmn & Hmz1 & ->).
  destruct (radius_inv Z2 n r2 HZ2 Hr2) as (_ & fn' & fz2 & Hfn' & Hfz2 & _ & Hmz2 & ->).
  rewrite Hfn in Hfn'. apply Return_inj in Hfn'. subst fn'.
  pose proof (float_of_int_mono Z1 Z2 fz1 fz2 ltac:(lia) Hfz1 Hfz2) as Hz.
  pose proof (radius_product_mag fn 1 1024 ltac:(lia) ltac:(lia) Hmn) as (mp & ep & Hp & _).
  pose proof Hmz1 as (m1 & e1 & Hp1 & _). pose proof Hmz2 as (m2 & e2 & Hp2 & _).
  rewrite <- (abs_finite_pos _ _ _ (radius_value_mag fn fz1 Hmn Hmz1)).
  rewrite <- (abs_finite_pos _ _ _ (radius_value_mag fn fz2 Hmn Hmz2)).
  exact (prim_div_anti _ _ _ _ _ _ _ _ _ _ Hp Hp1 Hp2 Hz).
Qed.

Lemma radius_antitone_in_charge_witness :
  exists r1 r2,
    BohrAtom.radius (atom 1) 3 = Return r1
    /\ BohrAtom.radius (atom 2) 3 = Return r2
    /\ (r2 <=? r1)%float = true.
Proof.
  eexists _, _. split; [vm_compute; reflexivity|]. split; [vm_compute; reflexivity|].
  apply (radius_antitone_in_charge 1 2 (atom 1) (atom 2) 3);
    try (vm_compute; reflexivity). lia.
Defined.

(** X7.  For [Z] and [n] up to [10 ** 100], [radius(n)] returns a float
    within [5 * 2 ** -53], relatively, of the exact quotient
    [a0 * n^2 / Z] taken on the stored [a0]. *)
Theorem radius_accuracy Z0 self n :
  BohrAtom.__init__ Z0 = Return self -> Z0 <= 10 ^ 100 -> 1 <= n <= 10 ^ 100 ->
  exists r,
    BohrAtom.radius self n = Return r
    /\ (Qabs (F2Q r - F2Q (BohrAtom.a0 self) * inject_Z (n ^ 2) / inject_Z Z0)
        <= (5 # 2 ^ 53) * (F2Q (BohrAtom.a0 self) * inject_Z (n ^ 2) / inject_Z Z0))%Q.
Proof.
  intros Hinit HZ0 Hn. apply init_inv in Hinit. destruct Hinit as [HZ ->].
  destruct (radius_accuracy_atom Z0 n ltac:(lia) Hn) as (r & Hr & Hm & W).
  exists r. split; [assumption|]. cbn [atom BohrAtom.a0].
  rewrite (F2Q_pvf _ _ _ Hm), (F2Q_pvf _ _ _ a0_mag).
  apply within_Qabs. exact W.
Qed.

Lemma radius_accuracy_witness :
  exists r,
    BohrAtom.radius (atom 2) 3 = Return r
    /\ (Qabs (F2Q r - F2Q a0_value * inject_Z (3 ^ 2) / inject_Z 2)
        <= (5 # 2 ^ 53) * (F2Q a0_value * inject_Z (3 ^ 2) / inject_Z 2))%Q.
Proof.
  apply (radius_accuracy 2 (atom 2) 3);
    [vm_compute; reflexivity|vm_compute; discriminate
    |split; [lia|vm_compute; discriminate]].
Defined.

(** X8.  The sign of [transition_energy_joule(n_i, n_f)] follows the
    direction of the transition: it is never negative going up
    ([n_i <= n_f], absorption) and never positive going down
    ([n_f <= n_i], emission); and the reverse transition returns the
    opposite value, of the same magnitude. *)
Theorem transition_energy_joule_direction Z0 self n_i n_f dE :
  BohrAtom.__init__ Z0 = Return self ->
  BohrAtom.transition_energy_joule self n_i n_f = Return dE ->
  (n_i <= n_f -> (0 <=? dE)%float = true)
  /\ (n_f <= n_i -> (dE <=? 0)%float = true)
  /\ exists dE',
       BohrAtom.transition_energy_joule self n_f n_i = Return dE'
       /\ (dE' =? - dE)%float = true /\ abs dE' = abs dE.
Proof.
  intros Hinit H. apply init_inv in Hinit. destruct Hinit as [HZ ->].
  destruct (transition_energy_joule_inv Z0 n_i n_f dE HZ H)
    as (E_i & E_f & Hi & Hf & Fi & Ff & _ & _ & ->).
  split; [|split].
  - intros Hle. apply (prim_sub_nonneg E_f E_i true true Ff Fi).
    exact (energy_leb_mono Z0 n_i n_f E_i E_f HZ Hle Hi Hf).
  - intros Hle. apply (prim_sub_nonpos E_f E_i true true Ff Fi).
    exact (energy_leb_mono Z0 n_f n_i E_f E_i HZ Hle Hf Hi).
  - exists (E_i - E_f)%float. split; [|split].
    + unfold BohrAtom.transition_energy_joule. rewrite Hf, Hi. reflexivity.
    + exact (prim_sub_swap E_f E_i true true Ff Fi).
    + apply prim_abs_sub_comm.
Qed.

Lemma transition_energy_joule_direction_witness :
  exists dE dE',
    BohrAtom.transition_energy_joule (atom 1) 1 2 = Return dE
    /\ (0 <=? dE)%float = true
    /\ BohrAtom.transition_energy_joule (atom 1) 2 1 = Return dE'
    /\ (dE' =? - dE)%float = true.
Proof.
  destruct (transition_energy_joule_direction 1 (atom 1) 1 2 1.6349042708146639e-18%float)
    as (H1 & _ & dE' & H3 & H4 & _); [vm_compute; reflexivity|vm_compute; reflexivity|].
  eexists _, dE'. split; [vm_compute; reflexivity|]. split; [apply H1; lia|].
  split; assumption.
Defined.

(** X9.  [transition_energy] converts after the levels are dealt with:
    whatever [transition_energy_joule] raises is raised whatever the unit
    string, in particular the level [ValueError] for [n_i < 1]; once the
    signed energy [dE] is returned an unknown unit raises the unit
    [ValueError], [j] gives [abs(dE)] and [ev] gives [abs(dE) / e].  The
    value in electron-volts is the value in joules divided by [e], and
    [frequency] is the value in joules divided by [h]. *)
Theorem transition_energy_units Z0 self n_i n_f unit :
  BohrAtom.__init__ Z0 = Return self ->
  (forall exn, BohrAtom.transition_energy_joule self n_i n_f = Raise exn ->
     BohrAtom.transition_energy self n_i n_f unit = Raise exn)
  /\ (n_i < 1 ->
      BohrAtom.transition_energy self n_i n_f unit = Raise (ValueError BohrAtom.msg_n))
  /\ (forall dE, BohrAtom.transition_energy_joule self n_i n_f = Return dE ->
        BohrAtom.transition_energy self n_i n_f unit =
          if String.eqb (lower unit) "j" then Return (abs dE)
          else if String.eqb (lower unit) "ev" then Return (abs dE / _e)%float
          else Raise (ValueError BohrAtom.msg_unit))
  /\ (forall v, BohrAtom.transition_energy self n_i n_f "J" = Return v ->
        BohrAtom.transition_energy self n_i n_f "eV" = Return (v / _e)%float
        /\ BohrAtom.frequency self n_i n_f = Return (v / _h)%float).
Proof.
  intros Hinit. apply init_inv in Hinit. destruct Hinit as [HZ ->].
  split; [|split; [|split]].
  - intros exn H. unfold BohrAtom.transition_energy. rewrite H. reflexivity.
  - intros Hi. unfold BohrAtom.transition_energy, BohrAtom.transition_energy_joule.
    rewrite energy_joule_low by assumption. reflexivity.
  - intros dE H. apply transition_energy_value. assumption.
  - intros v Hv.
    destruct (BohrAtom.transition_energy_joule (atom Z0) n_i n_f) as [dE|exn] eqn:HdE;
      [|unfold BohrAtom.transition_energy in Hv; rewrite HdE in Hv; discriminate].
    rewrite (transition_energy_value Z0 n_i n_f "J" dE HdE) in Hv.
    change (String.eqb (lower "J") "j") with true in Hv. cbv iota in Hv.
    apply Return_inj in Hv. subst v. split.
    + rewrite (transition_energy_value Z0 n_i n_f "eV" dE HdE). reflexivity.
    + rewrite frequency_of_transition, HdE. reflexivity.
Qed.

Lemma transition_energy_units_witness :
  BohrAtom.transition_energy (atom 1) 0 2 "parsec" = Raise (ValueError BohrAtom.msg_n)
  /\ BohrAtom.transition_energy (atom 1) 1 2 "parsec" = Raise (ValueError BohrAtom.msg_unit).
Proof.
  destruct (transition_energy_units 1 (atom 1) 0 2 "parsec") as (_ & H1 & _);
    [vm_compute; reflexivity|].
  destruct (transition_energy_units 1 (atom 1) 1 2 "parsec") as (_ & _ & H2 & _);
    [vm_compute; reflexivity|].
  split; [apply H1; lia|].
  rewrite (H2 1.6349042708146639e-18%float) by (vm_compute; reflexivity).
  vm_compute. reflexivity.
Defined.

(** X10.  Between a level and itself nothing is exchanged: on a built atom,
    for a level [n >= 1] such that [Z ** 2] and [n ** 2] have a float, the
    signed transition energy, the transition energy in either unit and the
    frequency are all returned and are exactly [0.0]. *)
Theorem same_level_is_zero Z0 self n :
  BohrAtom.__init__ Z0 = Return self -> 1 <= n ->
  float_range (Z0 ^ 2) = true -> float_range (n ^ 2) = true ->
  BohrAtom.transition_energy_joule self n n = Return 0%float
  /\ BohrAtom.transition_energy self n n "J" = Return 0%float
  /\ BohrAtom.transition_energy self n n "eV" = Return 0%float
  /\ BohrAtom.frequency self n n = Return 0%float.
Proof.
  intros Hinit Hn RZ Rn. apply init_inv in Hinit. destruct Hinit as [HZ ->].
  destruct (energy_joule_cases Z0 n HZ Hn) as [(_ & E & HE & HF)|(Hr & _)];
    [|rewrite RZ, Rn in Hr; discriminate].
  assert (HT : BohrAtom.transition_energy_joule (atom Z0) n n = Return 0%float).
  { unfold BohrAtom.transition_energy_joule. rewrite HE. cbn [bind]. unfold float_sub.
    rewrite (prim_sub_self true E HF). reflexivity. }
  split; [exact HT|]. split; [|split].
  - rewrite (transition_energy_value Z0 n n "J" 0%float HT). vm_compute. reflexivity.
  - rewrite (transition_energy_value Z0 n n "eV" 0%float HT). vm_compute. reflexivity.
  - rewrite frequency_of_transition, HT. vm_compute. reflexivity.
Qed.

Lemma same_level_is_zero_witness :
  BohrAtom.transition_energy_joule (atom 1) 3 3 = Return 0%float
  /\ BohrAtom.transition_energy (atom 1) 3 3 "J" = Return 0%float
  /\ BohrAtom.transition_energy (atom 1) 3 3 "eV" = Return 0%float
  /\ BohrAtom.frequency (atom 1) 3 3 = Return 0%float.
Proof.
  apply (same_level_is_zero 1 (atom 1) 3); try (vm_compute; reflexivity). lia.
Defined.

(** X11.  [frequency] and [wavelength] do not depend on the direction of
    the transition: a value returned for [(n_i, n_f)] is returned for
    [(n_f, n_i)], and for levels [>= 1] the two calls have the same outcome,
    exceptions included. *)
Theorem frequency_wavelength_symmetric Z0 self n_i n_f :
  BohrAtom.__init__ Z0 = Return self ->
  (forall nu, BohrAtom.frequency self n_i n_f = Return nu ->
     BohrAtom.frequency self n_f n_i = Return nu)
  /\ (forall w, BohrAtom.wavelength self n_i n_f = Return w ->
        BohrAtom.wavelength self n_f n_i = Return w)
  /\ (1 <= n_i -> 1 <= n_f ->
      BohrAtom.frequency self n_i n_f = BohrAtom.frequency self n_f n_i
      /\ BohrAtom.wavelength self n_i n_f = BohrAtom.wavelength self n_f n_i).
Proof.
  intros Hinit. apply init_inv in Hinit. destruct Hinit as [HZ ->].
  assert (Hfreq : forall a b nu, BohrAtom.frequency (atom Z0) a b = Return nu ->
            BohrAtom.frequency (atom Z0) b a = Return nu).
  { intros a b nu Hnu.
    destruct (frequency_inv Z0 a b nu Hnu) as (E_a & E_b & Ha & Hb & ->).
    rewrite (frequency_value Z0 b a E_b E_a Hb Ha).
    rewrite (prim_abs_sub_comm E_a E_b). reflexivity. }
  split; [apply Hfreq|].
  assert (Hwave : forall a b,
            BohrAtom.frequency (atom Z0) a b = BohrAtom.frequency (atom Z0) b a ->
            BohrAtom.wavelength (atom Z0) a b = BohrAtom.wavelength (atom Z0) b a).
  { intros a b H. unfold BohrAtom.wavelength. rewrite H. reflexivity. }
  split.
  - intros w Hw.
    destruct (BohrAtom.frequency (atom Z0) n_i n_f) as [nu|] eqn:Hnu;
      [|unfold BohrAtom.wavelength in Hw; rewrite Hnu in Hw; discriminate].
    rewrite <- Hw. symmetry. apply Hwave. rewrite Hnu. symmetry. apply Hfreq. exact Hnu.
  - intros Hi Hf.
    assert (E : BohrAtom.frequency (atom Z0) n_i n_f = BohrAtom.frequency (atom Z0) n_f n_i).
    { destruct (BohrAtom.frequency (atom Z0) n_i n_f) as [nu|exn] eqn:Hnu.
      - symmetry. apply Hfreq. exact Hnu.
      - destruct (BohrAtom.frequency (atom Z0) n_f n_i) as [nu'|exn'] eqn:Hnu'.
        + apply Hfreq in Hnu'. rewrite Hnu in Hnu'. discriminate.
        + rewrite frequency_of_transition in Hnu, Hnu'.
          destruct (transition_energy_joule_cases Z0 n_i n_f HZ Hi Hf)
            as [(_ & E_i & E_f & _ & _ & _ & _ & HT)|(_ & HT)];
            rewrite HT in Hnu; [discriminate|].
          destruct (transition_energy_joule_cases Z0 n_f n_i HZ Hf Hi)
            as [(_ & E_i' & E_f' & _ & _ & _ & _ & HT')|(_ & HT')];
            rewrite HT' in Hnu'; [discriminate|].
          cbn [bind] in Hnu, Hnu'. rewrite <- Hnu, <- Hnu'. reflexivity. }
    split; [exact E|apply Hwave; exact E].
Qed.

Lemma frequency_wavelength_symmetric_witness :
  BohrAtom.frequency (atom 1) 1 2 = BohrAtom.frequency (atom 1) 2 1
  /\ BohrAtom.wavelength (atom 1) 1 2 = Return 1.2150227341195295e-07%float.
Proof.
  destruct (frequency_wavelength_symmetric 1 (atom 1) 2 1) as (_ & H2 & _);
    [vm_compute; reflexivity|].
  destruct (frequency_wavelength_symmetric 1 (atom 1) 1 2) as (_ & _ & H3);
    [vm_compute; reflexivity|].
  split; [apply H3; lia|apply H2; vm_compute; reflexivity].
Defined.

(** X12.  A wavelength that [wavelength] returns on a built atom is a
    finite float that is not negative: never NaN, never an infinity.  It is
    returned for two distinct levels [>= 1] only. *)
Theorem wavelength_finite_nonneg Z0 self n_i n_f w :
  BohrAtom.__init__ Z0 = Return self ->
  BohrAtom.wavelength self n_i n_f = Return w ->
  (0 <=? w)%float = true /\ (w <? infinity)%float = true
  /\ 1 <= n_i /\ 1 <= n_f /\ n_i <> n_f.
Proof.
  intros Hinit Hw. apply init_inv in Hinit. destruct Hinit as [HZ ->].
  destruct (wavelength_inv Z0 n_i n_f w HZ Hw) as (E_i & E_f & Hi & Hf & Fi & Ff & Hne & ->).
  destruct (energy_joule_returned _ _ _ HZ Hi) as [Ni _].
  destruct (energy_joule_returned _ _ _ HZ Hf) as [Nf _].
  assert (Hnz : (abs (E_f - E_i) / _h =? 0)%float = false).
  { rewrite (abs_sub_div_zero E_f E_i true true _h (-110) (-110) Ff Fi h_mag ltac:(lia)).
    exact Hne. }
  destruct (finite_or_zero_nonneg _ (wavelength_value_range E_f E_i true true Ff Fi Hnz))
    as [H1 H2].
  repeat split; try assumption.
  intros ->. rewrite Hi in Hf. apply Return_inj in Hf. subst E_f.
  rewrite (prim_eqb_ival E_i E_i true true Fi Fi), Z.eqb_refl in Hne. discriminate.
Qed.

Lemma wavelength_finite_nonneg_witness :
  exists w, BohrAtom.wavelength (atom 1) 3 2 = Return w
    /\ (0 <=? w)%float = true /\ (w <? infinity)%float = true.
Proof.
  eexists. split; [vm_compute; reflexivity|].
  destruct (wavelength_finite_nonneg 1 (atom 1) 3 2 6.5611227642454606e-07%float)
    as (H1 & H2 & _); [vm_compute; reflexivity|vm_compute; reflexivity|].
  split; assumption.
Defined.

(** X13.  On a built atom only [wavelength] can divide by zero: every
    exception raised by [energy_joule], [energy], [radius],
    [transition_energy_joule], [transition_energy] or [frequency] is the
    level [ValueError], the unit [ValueError] or an [OverflowError], never
    a [ZeroDivisionError]. *)
Theorem queries_never_divide_by_zero Z0 self n m unit exn :
  BohrAtom.__init__ Z0 = Return self ->
  BohrAtom.energy_joule self n = Raise exn
  \/ BohrAtom.energy self n unit = Raise exn
  \/ BohrAtom.radius self n = Raise exn
  \/ BohrAtom.transition_energy_joule self n m = Raise exn
  \/ BohrAtom.transition_energy self n m unit = Raise exn
  \/ BohrAtom.frequency self n m = Raise exn ->
  (exn = ValueError BohrAtom.msg_n \/ exn = ValueError BohrAtom.msg_unit
   \/ exn = OverflowError)
  /\ exn <> ZeroDivisionError.
Proof.
  intros Hinit H. apply init_inv in Hinit. destruct Hinit as [HZ ->].
  assert (C : exn = ValueError BohrAtom.msg_n \/ exn = ValueError BohrAtom.msg_unit
              \/ exn = OverflowError).
  { destruct H as [H|[H|[H|[H|[H|H]]]]].
    - destruct (energy_joule_raises Z0 n exn HZ H) as [[_ ->]|[_ ->]]; auto.
    - unfold BohrAtom.energy in H.
      destruct (BohrAtom.energy_joule (atom Z0) n) as [E|e1] eqn:HE; cbn [bind] in H.
      + cbn [atom BohrAtom._e] in H. unfold float_truediv in H.
        rewrite (finite_mag_nonzero _ _ _ _ e_mag) in H.
        destruct (String.eqb (lower unit) "j"); [discriminate|].
        destruct (String.eqb (lower unit) "ev"); [discriminate|].
        injection H as <-. auto.
      + injection H as <-.
        destruct (energy_joule_raises Z0 n e1 HZ HE) as [[_ ->]|[_ ->]]; auto.
    - destruct (radius_raises Z0 n exn HZ H) as [[_ ->]|[_ ->]]; auto.
    - destruct (transition_energy_joule_raises Z0 n m exn HZ H) as [->| ->]; auto.
    - destruct (BohrAtom.transition_energy_joule (atom Z0) n m) as [dE|e1] eqn:HT.
      + rewrite (transition_energy_value Z0 n m unit dE HT) in H.
        destruct (String.eqb (lower unit) "j"); [discriminate|].
        destruct (String.eqb (lower unit) "ev"); [discriminate|].
        injection H as <-. auto.
      + unfold BohrAtom.transition_energy in H. rewrite HT in H. cbn [bind] in H.
        injection H as <-.
        destruct (transition_energy_joule_raises Z0 n m e1 HZ HT) as [->| ->]; auto.
    - rewrite frequency_of_transition in H.
      destruct (BohrAtom.transition_energy_joule (atom Z0) n m) as [dE|e1] eqn:HT;
        cbn [bind] in H; [discriminate|]. injection H as <-.
      destruct (transition_energy_joule_raises Z0 n m e1 HZ HT) as [->| ->]; auto. }
  split; [exact C|]. destruct C as [->|[->| ->]]; discriminate.
Qed.

Lemma queries_never_divide_by_zero_witness :
  BohrAtom.radius (atom 1) (2 ^ 512) = Raise OverflowError
  /\ OverflowError <> ZeroDivisionError.
Proof.
  split; [vm_compute; reflexivity|].
  apply (queries_never_divide_by_zero 1 (atom 1) (2 ^ 512) 1 "eV" OverflowError);
    [vm_compute; reflexivity|].
  right. right. left. vm_compute. reflexivity.
Defined.

(** X14.  [repr] of a built atom is [<BohrAtom Z=... a0=5.292e-11 m>] with
    the decimal digits of [Z], which read back as [Z], in the first field;
    it is returned for every [Z] below [10 ** 4300] and, with the default
    limit on the conversion of an [int] to a string, raises [ValueError] from
    [10 ** 4300] on. *)
Theorem repr_spec Z0 self :
  BohrAtom.__init__ Z0 = Return self ->
  (Z0 < 10 ^ 4300 ->
   BohrAtom.__repr__ self =
     Return (String.append "<BohrAtom Z=" (String.append (decimal Z0) " a0=5.292e-11 m>")))
  /\ decimal_value 0 (decimal Z0) = Z0
  /\ (10 ^ 4300 <= Z0 -> BohrAtom.__repr__ self = Raise (ValueError msg_int_str)).
Proof.
  intros Hinit. apply init_inv in Hinit. destruct Hinit as [HZ ->].
  unfold BohrAtom.__repr__. cbn [atom BohrAtom.Z BohrAtom.a0].
  rewrite int_str_cases by lia. rewrite a0_format.
  split; [|split].
  - intros Hlt. rewrite (proj2 (Z.leb_gt (10 ^ 4300) Z0)) by assumption. reflexivity.
  - apply decimal_value_decimal. lia.
  - intros Hge. rewrite (proj2 (Z.leb_le (10 ^ 4300) Z0)) by assumption. reflexivity.
Qed.

Lemma repr_spec_witness :
  BohrAtom.__repr__ (atom 26) = Return "<BohrAtom Z=26 a0=5.292e-11 m>"%string.
Proof.
  destruct (repr_spec 26 (atom 26)) as (H1 & _ & _); [vm_compute; reflexivity|].
  rewrite H1.
  - vm_compute. reflexivity.
  - apply Z.lt_le_trans with (10 ^ 2); [reflexivity|].
    apply Z.pow_le_mono_r; lia.
Defined.
